(** * Metronome: timing engine and song sections

    A shallow embedding of [song_section.py], [config.py] and the timing
    core of [metronome.py] (with the tap-tempo write of [ui.py]).

    Conventions.
    - Python [int] is [Z]; [//] and [%] on integers are [Z.div] and
      [Z.modulo] (both round towards minus infinity, as Python does), with
      the [ZeroDivisionError] of a zero divisor written out.
    - Python [str] is [string]; a [dict] with string keys is a
      [gmap string pyval].
    - Python [float] values (timestamps and delays) are kept abstract behind
      the interface [PyFloat]; the scheduling results hold for every
      arithmetic that implements it, and closed formulas are stated in the
      exact rational instance.
    - A raised exception is the [Raise] outcome of [result]; inside the
      playback thread the state reached when the exception is raised is
      kept. *)

From Stdlib Require Import ZArith QArith String Ascii List Lia.
From stdpp Require Import gmap strings sorting.
Import ListNotations.

Local Open Scope string_scope.
Local Open Scope Z_scope.

(** ** Values, exceptions, results *)

(** The dynamically typed values that reach the modelled code: settings
    typed in entry widgets, and the values of a section dictionary. *)
Inductive pyval : Type :=
| VInt (z : Z)
| VStr (s : string)
| VBool (b : bool)
| VNone.

Inductive exn : Type :=
| ValueError (msg : string)
| TypeError
| ZeroDivisionError
| KeyError (key : string).

Inductive result (A : Type) : Type :=
| Ok (a : A)
| Raise (e : exn).
Arguments Ok {A} a.
Arguments Raise {A} e.

Definition is_ok {A} (r : result A) : bool :=
  match r with Ok _ => true | Raise _ => false end.

(** ** config.py *)

Module config.
Definition DEFAULT_BPM : Z := 120.
Definition DEFAULT_BEATS_PER_BAR : Z := 4.
Definition DEFAULT_SUBDIVISIONS : Z := 1.
Definition DEFAULT_TIMER_DURATION : Z := 0.
Definition DEFAULT_TEMPO_CHANGE_STEP : Z := 5.
Definition DEFAULT_TEMPO_CHANGE_INTERVAL : Z := 4.
Definition DEFAULT_COUNT_IN_BARS : Z := 2.
Definition MIN_BPM : Z := 20.
Definition MAX_BPM : Z := 250.
End config.
Import config.

(** ** song_section.py *)

Record SongSection : Type := mkSongSection {
  name : string;
  bars : Z;
  sec_bpm : Z;
  sec_beats_per_bar : Z;
  sec_subdivisions : Z;
  sec_swing_enabled : bool
}.

(** [SongSection.__post_init__]: the four checks, in source order. *)
Definition post_init (s : SongSection) : result SongSection :=
  if bars s <=? 0 then Raise (ValueError "Number of bars must be positive")
  else if sec_bpm s <=? 0 then Raise (ValueError "BPM must be positive")
  else if sec_beats_per_bar s <=? 0
       then Raise (ValueError "Beats per bar must be positive")
  else if sec_subdivisions s <=? 0
       then Raise (ValueError "Subdivisions must be positive")
  else Ok s.

(** The dataclass constructor: the generated [__init__] stores the fields
    and then runs [__post_init__]. *)
Definition new_SongSection (n : string) (b t bpb sub : Z) (sw : bool)
  : result SongSection :=
  post_init (mkSongSection n b t bpb sub sw).

(** [SongSection.get_total_ticks]. *)
Definition get_total_ticks (s : SongSection) : Z :=
  bars s * sec_beats_per_bar s * sec_subdivisions s.

(** [SongSection.to_dict]. *)
Definition to_dict (s : SongSection) : gmap string pyval :=
  <["name" := VStr (name s)]>
  (<["bars" := VInt (bars s)]>
  (<["bpm" := VInt (sec_bpm s)]>
  (<["beats_per_bar" := VInt (sec_beats_per_bar s)]>
  (<["subdivisions" := VInt (sec_subdivisions s)]>
  (<["swing_enabled" := VBool (sec_swing_enabled s)]> ∅))))).

(** [data[key]]: a missing key raises [KeyError]. *)
Definition getitem (data : gmap string pyval) (key : string) : result pyval :=
  match data !! key with
  | Some v => Ok v
  | None => Raise (KeyError key)
  end.

(** The record is typed as the dataclass annotates it ([str], [int],
    [bool]). A dictionary value of another type has no image in the typed
    record; [from_dict] answers [TypeError] for it, which marks the edge of
    the typed model: Python itself stores such a value unchecked, as
    [Dynamic.from_dict] below does, and the two agree wherever this one
    does not answer [TypeError]. *)
Definition as_str (v : pyval) : result string :=
  match v with VStr s => Ok s | _ => Raise TypeError end.
Definition as_int (v : pyval) : result Z :=
  match v with VInt z => Ok z | _ => Raise TypeError end.
Definition as_bool (v : pyval) : result bool :=
  match v with VBool b => Ok b | _ => Raise TypeError end.

Definition rbind {A B} (r : result A) (f : A -> result B) : result B :=
  match r with Ok a => f a | Raise e => Raise e end.

Notation "'try!' x := c 'in' k" := (rbind c (fun x => k))
  (at level 10, x name, c at level 100, k at level 200).

(** [SongSection.from_dict]: the six lookups in argument order, then the
    constructor. *)
Definition from_dict (data : gmap string pyval) : result SongSection :=
  try! n := rbind (getitem data "name") as_str in
  try! b := rbind (getitem data "bars") as_int in
  try! t := rbind (getitem data "bpm") as_int in
  try! bpb := rbind (getitem data "beats_per_bar") as_int in
  try! sub := rbind (getitem data "subdivisions") as_int in
  try! sw := rbind (getitem data "swing_enabled") as_bool in
  new_SongSection n b t bpb sub sw.


(** ** Python builtins used by metronome.py *)

(** [a // b] and [a % b] on integers. *)
Definition floordiv (a b : Z) : result Z :=
  if b =? 0 then Raise ZeroDivisionError else Ok (a / b).
Definition pymod (a b : Z) : result Z :=
  if b =? 0 then Raise ZeroDivisionError else Ok (a mod b).

(** [int(s)] for an ASCII string, base 10: surrounding whitespace (codes
    9 to 13 and 28 to 32) is dropped, one optional sign, then digits, with
    single underscores allowed between digits. Anything else is a
    [ValueError]. *)
Definition is_space (c : ascii) : bool :=
  let n := nat_of_ascii c in
  ((9 <=? n) && (n <=? 13) || (28 <=? n) && (n <=? 32))%nat.

Definition digit_of (c : ascii) : option Z :=
  let n := nat_of_ascii c in
  if ((48 <=? n) && (n <=? 57))%nat then Some (Z.of_nat n - 48) else None.

Fixpoint lstrip (s : list ascii) : list ascii :=
  match s with
  | c :: s' => if is_space c then lstrip s' else s
  | [] => []
  end.

Definition strip (s : list ascii) : list ascii :=
  rev (lstrip (rev (lstrip s))).

(** [after_us] records that the previous character was an underscore. *)
Fixpoint digits_from (acc : Z) (after_us : bool) (s : list ascii) : option Z :=
  match s with
  | [] => if after_us then None else Some acc
  | c :: s' =>
      match digit_of c with
      | Some d => digits_from (10 * acc + d) false s'
      | None =>
          if Ascii.eqb c "_"%char
          then if after_us then None else digits_from acc true s'
          else None
      end
  end.

Definition unsigned_literal (s : list ascii) : option Z :=
  match s with
  | c :: s' =>
      match digit_of c with
      | Some d => digits_from d false s'
      | None => None
      end
  | [] => None
  end.

Definition int_literal (s : string) : option Z :=
  match strip (list_ascii_of_string s) with
  | c :: s' =>
      if Ascii.eqb c "-"%char then option_map Z.opp (unsigned_literal s')
      else if Ascii.eqb c "+"%char then unsigned_literal s'
      else unsigned_literal (c :: s')
  | [] => None
  end.

(** [int(v)]. *)
Definition py_int (v : pyval) : result Z :=
  match v with
  | VInt z => Ok z
  | VBool b => Ok (if b then 1 else 0)
  | VStr s =>
      match int_literal s with
      | Some z => Ok z
      | None => Raise (ValueError "invalid literal for int() with base 10")
      end
  | VNone => Raise TypeError
  end.

(** ** Floating-point interface

    The operations metronome.py applies to timestamps and delays. [fdiv] is
    only called with a divisor already checked to be non-zero. *)
Class PyFloat (F : Type) : Type := {
  fadd : F -> F -> F;
  fsub : F -> F -> F;
  fmul : F -> F -> F;
  fdiv : F -> F -> F;
  of_int : Z -> F;
  fltb : F -> F -> bool;
  fleb : F -> F -> bool;
  ftruthy : F -> bool
}.

(** Exact rational arithmetic. *)
#[export] Instance Q_PyFloat : PyFloat Q := {
  fadd := Qplus;
  fsub := Qminus;
  fmul := Qmult;
  fdiv := Qdiv;
  of_int := inject_Z;
  fltb := fun x y => negb (Qle_bool y x);
  fleb := Qle_bool;
  ftruthy := fun x => negb (Qeq_bool x (inject_Z 0))
}.

(** [a / b] on two integers (true division). *)
Definition truediv {F} `{PyFloat F} (a b : Z) : result F :=
  if b =? 0 then Raise ZeroDivisionError else Ok (fdiv (of_int a) (of_int b)).

(** ** song_section.py on the values Python stores

    The dataclass does not check its annotations: [from_dict] hands the
    values of the dictionary to the constructor as they are, whatever their
    type, and [__post_init__] compares four of them with [0]. This is the
    class on the values [json.load] can produce; [from_dict] above is its
    reading at the annotated types. *)

Module Dynamic.
Section Values.
Context {F : Type} {FO : PyFloat F}.

#[local] Unset Elimination Schemes.
Inductive value : Type :=
| Int (z : Z)
| Float (x : F)
| Str (s : string)
| Bool (b : bool)
| NoneValue
| List (l : list value)
| Dict (d : list (string * value)).
#[local] Set Elimination Schemes.

Record SongSection : Type := mkSongSection {
  name : value;
  bars : value;
  bpm : value;
  beats_per_bar : value;
  subdivisions : value;
  swing_enabled : value
}.

(** [v <= 0]. An [int] is compared as it is, a [bool] as the integer it is
    ([True] is [1], [False] is [0]), a [float] by the float comparison; a
    [str], [None], a [list] and a [dict] do not order with an [int] and
    raise [TypeError]. *)
Definition le_zero (v : value) : result bool :=
  match v with
  | Int z => Ok (z <=? 0)
  | Bool b => Ok ((if b then 1 else 0) <=? 0)
  | Float x => Ok (fleb x (of_int 0))
  | Str _ | NoneValue | List _ | Dict _ => Raise TypeError
  end.

(** [SongSection.__post_init__]: the four checks, in source order. *)
Definition post_init (s : SongSection) : result SongSection :=
  try! c := le_zero (bars s) in
  if c then Raise (ValueError "Number of bars must be positive") else
  try! c := le_zero (bpm s) in
  if c then Raise (ValueError "BPM must be positive") else
  try! c := le_zero (beats_per_bar s) in
  if c then Raise (ValueError "Beats per bar must be positive") else
  try! c := le_zero (subdivisions s) in
  if c then Raise (ValueError "Subdivisions must be positive") else
  Ok s.

(** The dataclass constructor: the generated [__init__] stores the fields
    and then runs [__post_init__]. *)
Definition new_SongSection (n b t bpb sub sw : value) : result SongSection :=
  post_init (mkSongSection n b t bpb sub sw).

(** [SongSection.to_dict]. *)
Definition to_dict (s : SongSection) : gmap string value :=
  <["name" := name s]>
  (<["bars" := bars s]>
  (<["bpm" := bpm s]>
  (<["beats_per_bar" := beats_per_bar s]>
  (<["subdivisions" := subdivisions s]>
  (<["swing_enabled" := swing_enabled s]> ∅))))).

(** [data[key]]: a missing key raises [KeyError]. *)
Definition getitem (data : gmap string value) (key : string) : result value :=
  match data !! key with
  | Some v => Ok v
  | None => Raise (KeyError key)
  end.

(** [SongSection.from_dict]: the six lookups in argument order, then the
    constructor. *)
Definition from_dict (data : gmap string value) : result SongSection :=
  try! n := getitem data "name" in
  try! b := getitem data "bars" in
  try! t := getitem data "bpm" in
  try! bpb := getitem data "beats_per_bar" in
  try! sub := getitem data "subdivisions" in
  try! sw := getitem data "swing_enabled" in
  new_SongSection n b t bpb sub sw.

(** The values that get past a check [v <= 0] of [__post_init__]: a
    positive [int], [True], and a [float] for which [<= 0] is false. *)
Definition validated (v : value) : Prop :=
  match v with
  | Int z => 0 < z
  | Bool b => b = true
  | Float x => fleb x (of_int 0) = false
  | Str _ | NoneValue | List _ | Dict _ => False
  end.

End Values.
Arguments value F : clear implicits.
Arguments SongSection F : clear implicits.
End Dynamic.

(** The typed values and the typed record among the stored ones. *)
Definition of_pyval {F : Type} (v : pyval) : Dynamic.value F :=
  match v with
  | VInt z => Dynamic.Int z
  | VStr s => Dynamic.Str s
  | VBool b => Dynamic.Bool b
  | VNone => Dynamic.NoneValue
  end.

Definition of_section {F : Type} (s : SongSection) : Dynamic.SongSection F :=
  Dynamic.mkSongSection
    (Dynamic.Str (name s)) (Dynamic.Int (bars s)) (Dynamic.Int (sec_bpm s))
    (Dynamic.Int (sec_beats_per_bar s)) (Dynamic.Int (sec_subdivisions s))
    (Dynamic.Bool (sec_swing_enabled s)).

Definition result_map {A B} (f : A -> B) (r : result A) : result B :=
  match r with Ok a => Ok (f a) | Raise e => Raise e end.

(** ** metronome.py: the Metronome object *)

Section Engine.
Context {F : Type} {FO : PyFloat F}.

(** The attributes of a [Metronome]. [running] is the [_running] event;
    [thread] is the handle of the playback thread, numbered in creation
    order, and [threads_created] counts the [threading.Thread] objects
    created so far (a ghost field). [on_beat] records whether a callback is
    registered. [start_time] and [next_tick_time] exist only once [start]
    has run; until then they hold the value given at initialisation. The
    sound manager is an external collaborator: a dispatched sample is an
    event of the trace. *)
Record Metronome : Type := mkMetronome {
  thread : option nat;
  threads_created : nat;
  running : bool;
  on_beat : bool;
  bpm : Z;
  beats_per_bar : Z;
  subdivisions : Z;
  count_in_enabled : bool;
  count_in_bars : Z;
  tempo_change_mode : string;
  tempo_change_step : pyval;
  tempo_change_interval : pyval;
  timer_duration : F;
  swing_enabled : bool;
  current_section_index : nat;
  current_section : option SongSection;
  sections : list SongSection;
  start_time : F;
  next_tick_time : F
}.

(** [Metronome.__init__]. *)
Definition init : Metronome := {|
  thread := None;
  threads_created := 0%nat;
  running := false;
  on_beat := false;
  bpm := DEFAULT_BPM;
  beats_per_bar := DEFAULT_BEATS_PER_BAR;
  subdivisions := DEFAULT_SUBDIVISIONS;
  count_in_enabled := true;
  count_in_bars := DEFAULT_COUNT_IN_BARS;
  tempo_change_mode := "None";
  tempo_change_step := VInt DEFAULT_TEMPO_CHANGE_STEP;
  tempo_change_interval := VInt DEFAULT_TEMPO_CHANGE_INTERVAL;
  timer_duration := of_int DEFAULT_TIMER_DURATION;
  swing_enabled := false;
  current_section_index := 0%nat;
  current_section := None;
  sections := [];
  start_time := of_int 0;
  next_tick_time := of_int 0
|}.

(** Attribute assignments. *)
Definition set_running (v : bool) (m : Metronome) : Metronome :=
  let 'mkMetronome th tc _ ob b bpb sd cie cib tm ts ti td sw ix cs ss st nt := m in
  mkMetronome th tc v ob b bpb sd cie cib tm ts ti td sw ix cs ss st nt.

Definition set_thread (v : option nat) (m : Metronome) : Metronome :=
  let 'mkMetronome _ tc r ob b bpb sd cie cib tm ts ti td sw ix cs ss st nt := m in
  mkMetronome v tc r ob b bpb sd cie cib tm ts ti td sw ix cs ss st nt.

Definition set_threads_created (v : nat) (m : Metronome) : Metronome :=
  let 'mkMetronome th _ r ob b bpb sd cie cib tm ts ti td sw ix cs ss st nt := m in
  mkMetronome th v r ob b bpb sd cie cib tm ts ti td sw ix cs ss st nt.

Definition set_bpm (v : Z) (m : Metronome) : Metronome :=
  let 'mkMetronome th tc r ob _ bpb sd cie cib tm ts ti td sw ix cs ss st nt := m in
  mkMetronome th tc r ob v bpb sd cie cib tm ts ti td sw ix cs ss st nt.

Definition set_beats_per_bar (v : Z) (m : Metronome) : Metronome :=
  let 'mkMetronome th tc r ob b _ sd cie cib tm ts ti td sw ix cs ss st nt := m in
  mkMetronome th tc r ob b v sd cie cib tm ts ti td sw ix cs ss st nt.

Definition set_subdivisions (v : Z) (m : Metronome) : Metronome :=
  let 'mkMetronome th tc r ob b bpb _ cie cib tm ts ti td sw ix cs ss st nt := m in
  mkMetronome th tc r ob b bpb v cie cib tm ts ti td sw ix cs ss st nt.

Definition set_swing_enabled (v : bool) (m : Metronome) : Metronome :=
  let 'mkMetronome th tc r ob b bpb sd cie cib tm ts ti td _ ix cs ss st nt := m in
  mkMetronome th tc r ob b bpb sd cie cib tm ts ti td v ix cs ss st nt.

Definition set_current_section_index (v : nat) (m : Metronome) : Metronome :=
  let 'mkMetronome th tc r ob b bpb sd cie cib tm ts ti td sw _ cs ss st nt := m in
  mkMetronome th tc r ob b bpb sd cie cib tm ts ti td sw v cs ss st nt.

Definition set_current_section (v : option SongSection) (m : Metronome)
  : Metronome :=
  let 'mkMetronome th tc r ob b bpb sd cie cib tm ts ti td sw ix _ ss st nt := m in
  mkMetronome th tc r ob b bpb sd cie cib tm ts ti td sw ix v ss st nt.

Definition set_sections (v : list SongSection) (m : Metronome) : Metronome :=
  let 'mkMetronome th tc r ob b bpb sd cie cib tm ts ti td sw ix cs _ st nt := m in
  mkMetronome th tc r ob b bpb sd cie cib tm ts ti td sw ix cs v st nt.

Definition set_start_time (v : F) (m : Metronome) : Metronome :=
  let 'mkMetronome th tc r ob b bpb sd cie cib tm ts ti td sw ix cs ss _ nt := m in
  mkMetronome th tc r ob b bpb sd cie cib tm ts ti td sw ix cs ss v nt.

Definition set_next_tick_time (v : F) (m : Metronome) : Metronome :=
  let 'mkMetronome th tc r ob b bpb sd cie cib tm ts ti td sw ix cs ss st _ := m in
  mkMetronome th tc r ob b bpb sd cie cib tm ts ti td sw ix cs ss st v.

(** Settings assigned from the control side (ui.py). *)
Definition set_tempo_change_mode (v : string) (m : Metronome) : Metronome :=
  let 'mkMetronome th tc r ob b bpb sd cie cib _ ts ti td sw ix cs ss st nt := m in
  mkMetronome th tc r ob b bpb sd cie cib v ts ti td sw ix cs ss st nt.

Definition set_tempo_change_step (v : pyval) (m : Metronome) : Metronome :=
  let 'mkMetronome th tc r ob b bpb sd cie cib tm _ ti td sw ix cs ss st nt := m in
  mkMetronome th tc r ob b bpb sd cie cib tm v ti td sw ix cs ss st nt.

Definition set_tempo_change_interval (v : pyval) (m : Metronome) : Metronome :=
  let 'mkMetronome th tc r ob b bpb sd cie cib tm ts _ td sw ix cs ss st nt := m in
  mkMetronome th tc r ob b bpb sd cie cib tm ts v td sw ix cs ss st nt.

Definition set_count_in_enabled (v : bool) (m : Metronome) : Metronome :=
  let 'mkMetronome th tc r ob b bpb sd _ cib tm ts ti td sw ix cs ss st nt := m in
  mkMetronome th tc r ob b bpb sd v cib tm ts ti td sw ix cs ss st nt.

Definition set_timer_duration (v : F) (m : Metronome) : Metronome :=
  let 'mkMetronome th tc r ob b bpb sd cie cib tm ts ti _ sw ix cs ss st nt := m in
  mkMetronome th tc r ob b bpb sd cie cib tm ts ti v sw ix cs ss st nt.

(** [Metronome.is_running]. *)
Definition is_running (m : Metronome) : bool := running m.

(** [Metronome.start]. [now] is what [time.time()] answers if it is called.
    [start_time or time.time()] takes the clock when the argument is [None]
    or zero. Creating and starting the thread stores its handle; its body,
    [play], is run by the scheduler of threads and is modelled below. *)
Definition start (start_time_arg : option F) (now : F) (m : Metronome)
  : Metronome :=
  if negb (running m) then
    let m := set_running true m in
    let t := match start_time_arg with
             | Some t => if ftruthy t then t else now
             | None => now
             end in
    let m := set_start_time t m in
    let m := set_next_tick_time (start_time m) m in
    let m := set_thread (Some (threads_created m)) m in
    set_threads_created (S (threads_created m)) m
  else m.

(** [Metronome.stop]; joining waits for the playback thread to leave its
    loop. *)
Definition stop (m : Metronome) : Metronome :=
  let m := set_running false m in
  let m := match thread m with
           | Some _ => set_thread None m
           | None => m
           end in
  let m := set_current_section_index 0%nat m in
  let m := set_current_section None m in
  set_sections [] m.

(** The four assignments that copy a section into the live settings. *)
Definition load_section (s : SongSection) (m : Metronome) : Metronome :=
  let m := set_bpm (sec_bpm s) m in
  let m := set_beats_per_bar (sec_beats_per_bar s) m in
  let m := set_subdivisions (sec_subdivisions s) m in
  set_swing_enabled (sec_swing_enabled s) m.

(** [Metronome.start_song_flow]. It has no [raise]; the outcome type makes
    that visible. *)
Definition start_song_flow (secs : list SongSection) (now : F) (m : Metronome)
  : result Metronome :=
  match secs with
  | [] => Ok m
  | s0 :: _ =>
      let m := set_sections secs m in
      let m := set_current_section_index 0%nat m in
      let m := set_current_section (Some s0) m in
      let m := load_section s0 m in
      Ok (start None now m)
  end.

(** The write that ends [_tap_tempo] in ui.py, given the rounded tempo. *)
Definition tap_tempo_write (tapped : Z) (m : Metronome) : Metronome :=
  set_bpm (Z.max MIN_BPM (Z.min MAX_BPM tapped)) m.

(** ** Tempo change *)

(** The [try] block of [_handle_tempo_change]: only [ValueError] is caught,
    and it replaces both values. *)
Definition step_and_interval (step_raw interval_raw : pyval) : result (Z * Z) :=
  match (try! step := py_int step_raw in
         try! interval := py_int interval_raw in
         Ok (step, interval)) with
  | Ok p => Ok p
  | Raise (ValueError _) =>
      Ok (DEFAULT_TEMPO_CHANGE_STEP, DEFAULT_TEMPO_CHANGE_INTERVAL)
  | Raise e => Raise e
  end.

(** [mode == label and (bar_count % interval == 0)]: the remainder is only
    computed when the mode matches. *)
Definition mode_due (mode label : string) (bar_count interval : Z)
  : result bool :=
  if String.eqb mode label
  then try! r := pymod bar_count interval in Ok (r =? 0)
  else Ok false.

(** The value [_handle_tempo_change] writes to [bpm], or [None] when it
    writes nothing. *)
Definition tempo_change (mode : string) (step_raw interval_raw : pyval)
    (bar_count current : Z) : result (option Z) :=
  try! p := step_and_interval step_raw interval_raw in
  let '(step, interval) := p in
  try! up := mode_due mode "Speed Up" bar_count interval in
  if up then Ok (Some (Z.min MAX_BPM (current + step)))
  else
    try! down := mode_due mode "Slow Down" bar_count interval in
    if down then Ok (Some (Z.max MIN_BPM (current - step)))
    else Ok None.

(** [Metronome._handle_tempo_change] on the object. *)
Definition _handle_tempo_change (bar_count : Z) (m : Metronome)
  : result Metronome :=
  try! w := tempo_change (tempo_change_mode m) (tempo_change_step m)
              (tempo_change_interval m) bar_count (bpm m) in
  match w with
  | Some v => Ok (set_bpm v m)
  | None => Ok m
  end.

(** [Metronome._calculate_delay]. *)
Definition _calculate_delay (tick_in_beat : Z) (m : Metronome) : result F :=
  if swing_enabled m && (subdivisions m =? 2)
  then
    try! beat := truediv 60 (bpm m) in
    Ok (fmul beat (if tick_in_beat =? 0
                   then fdiv (of_int 2) (of_int 3)
                   else fdiv (of_int 1) (of_int 3)))
  else truediv 60 (bpm m * subdivisions m).

(** The tick identity computed at the top of each loop pass:
    [(current_beat, tick_in_beat, is_accented)]. *)
Definition tick_identity (tick_count subdivisions beats_per_bar : Z)
  : result (Z * Z * bool) :=
  try! current_beat := floordiv (tick_count - 1) subdivisions in
  try! tick_in_beat := pymod (tick_count - 1) subdivisions in
  try! is_accented :=
    (if tick_in_beat =? 0
     then try! r := pymod current_beat beats_per_bar in Ok (r =? 0)
     else Ok false) in
  Ok (current_beat, tick_in_beat, is_accented).

(** ** The playback thread *)

Inductive sample : Type := CountInSample | AccentedSample | RegularSample.

(** What the thread does to its surroundings. *)
Inductive event : Type :=
| PlaySample (s : sample)
| OnBeat (is_accented : bool)
| Sleep (duration : F).

(** The world of the playback thread: the object, the number of
    [time.time()] calls made, the trace of events, and the history of the
    delays added to [next_tick_time] (a ghost field). *)
Record World : Type := mkWorld {
  self : Metronome;
  clock_reads : nat;
  trace : list event;
  delays : list F
}.

(** A computation of the thread transforms the world and either returns or
    raises; the world reached at a raise is kept. *)
Definition M (A : Type) : Type := World -> World * result A.

Definition ret {A} (a : A) : M A := fun w => (w, Ok a).

Definition bind {A B} (c : M A) (k : A -> M B) : M B :=
  fun w => match c w with
           | (w', Ok a) => k a w'
           | (w', Raise e) => (w', Raise e)
           end.

Notation "'do' x <- c ; k" := (bind c (fun x => k))
  (at level 10, x name, c at level 100, k at level 200).
Notation "'run' c ; k" := (bind c (fun _ => k))
  (at level 10, c at level 100, k at level 200).

Definition lift {A} (r : result A) : M A := fun w => (w, r).

Definition get_self : M Metronome := fun w => (w, Ok (self w)).

Definition update (f : Metronome -> Metronome) : M unit :=
  fun w => (mkWorld (f (self w)) (clock_reads w) (trace w) (delays w), Ok tt).

Definition emit (e : event) : M unit :=
  fun w => (mkWorld (self w) (clock_reads w) (trace w ++ [e]) (delays w), Ok tt).

(** A method of the object that may raise and otherwise replaces it. *)
Definition call (f : Metronome -> result Metronome) : M unit :=
  do m <- get_self; do m' <- lift (f m); update (fun _ => m').

Section Clock.
(** [clock n] is the answer of the [n]-th call of [time.time()]. *)
Variable clock : nat -> F.

Definition time_time : M F :=
  fun w => (mkWorld (self w) (S (clock_reads w)) (trace w) (delays w),
            Ok (clock (clock_reads w))).

(** [self.next_tick_time += delay]. *)
Definition advance (delay : F) : M unit :=
  fun w => (mkWorld (set_next_tick_time (fadd (next_tick_time (self w)) delay)
                                        (self w))
                    (clock_reads w) (trace w) (delays w ++ [delay]), Ok tt).

(** The three lines that end a tick: the time to sleep is measured against
    the clock, and an overrun does not sleep. *)
Definition sleep_until_next_tick : M unit :=
  do m <- get_self;
  do now <- time_time;
  let sleep_time := fsub (next_tick_time m) now in
  if fltb (of_int 0) sleep_time then emit (Sleep sleep_time) else ret tt.

(** One pass of the count-in [for] loop. *)
Definition count_in_tick : M unit :=
  run emit (PlaySample CountInSample);
  do m <- get_self;
  do delay <- lift (truediv 60 (bpm m));
  run advance delay;
  sleep_until_next_tick.

Fixpoint repeat_M (n : nat) (body : M unit) : M unit :=
  match n with
  | O => ret tt
  | S n' => run body; repeat_M n' body
  end.

(** The count-in phase; [range] of a non-positive number is empty. *)
Definition count_in : M unit :=
  do m <- get_self;
  if count_in_enabled m
  then repeat_M (Z.to_nat (beats_per_bar m * count_in_bars m)) count_in_tick
  else ret tt.

(** The timer check at the top of the loop; the clock is read only when a
    duration is set. *)
Definition timer_expired : M bool :=
  do m <- get_self;
  if fltb (of_int 0) (timer_duration m)
  then do now <- time_time;
       ret (fleb (timer_duration m) (fsub now (start_time m)))
  else ret false.

(** The section check: [None] is the [break] at the end of the sequence,
    otherwise the bar count to go on with. *)
Definition section_check (bar_count : Z) : M (option Z) :=
  do m <- get_self;
  match current_section m with
  | Some s =>
      if bars s <=? bar_count then
        let ix := S (current_section_index m) in
        run update (set_current_section_index ix);
        match nth_error (sections m) ix with
        | None => run update (set_running false); ret None
        | Some s' =>
            run update (set_current_section (Some s'));
            run update (load_section s');
            ret (Some 0)
        end
      else ret (Some bar_count)
  | None => ret (Some bar_count)
  end.

(** One pass of the [while] loop, from the timer check to the sleep.
    [None] is a [break]; otherwise the new [tick_count] and [bar_count]. *)
Definition loop_body (tick_count bar_count : Z) : M (option (Z * Z)) :=
  do expired <- timer_expired;
  if expired then run update (set_running false); ret None
  else
    do checked <- section_check bar_count;
    match checked with
    | None => ret None
    | Some bar_count =>
        let tick_count := tick_count + 1 in
        do m <- get_self;
        do id <- lift (tick_identity tick_count (subdivisions m)
                                     (beats_per_bar m));
        let '(_, tick_in_beat, is_accented) := id in
        run emit (PlaySample (if is_accented then AccentedSample
                              else RegularSample));
        run (if on_beat m then emit (OnBeat is_accented) else ret tt);
        do r <- lift (pymod tick_count (beats_per_bar m * subdivisions m));
        do bar_count <-
          (if r =? 0
           then run call (_handle_tempo_change (bar_count + 1));
                ret (bar_count + 1)
           else ret bar_count);
        do delay <- (do m <- get_self; lift (_calculate_delay tick_in_beat m));
        run advance delay;
        run sleep_until_next_tick;
        ret (Some (tick_count, bar_count))
    end.

(** How an observed run of the loop stands: it left the loop, or it is
    still in it with these locals. *)
Inductive loop_state : Type :=
| Exited
| InLoop (tick_count bar_count : Z).

(** The [while self._running.is_set()] loop, observed for [n] passes. *)
Fixpoint steady_state (n : nat) (tick_count bar_count : Z) : M loop_state :=
  match n with
  | O => ret (InLoop tick_count bar_count)
  | S n' =>
      do m <- get_self;
      if running m then
        do r <- loop_body tick_count bar_count;
        match r with
        | None => ret Exited
        | Some (tc, bc) => steady_state n' tc bc
        end
      else ret Exited
  end.

(** [Metronome.play], observed for [n] passes of the steady-state loop. *)
Definition play (n : nat) : M loop_state :=
  run count_in;
  steady_state n 0 0.

End Clock.

(** The world in which the thread created by [start] begins. *)
Definition spawn (m : Metronome) : World := mkWorld m 0%nat [] [].

End Engine.

Arguments Metronome F : clear implicits.
Arguments World F : clear implicits.
Arguments event F : clear implicits.
Arguments M F A : clear implicits.

(** ** song.py *)

Record Song : Type := mkSong {
  song_name : string;
  song_sections : list SongSection
}.

(** [Song.__post_init__]: an empty name is refused; the sections are not
    looked at. *)
Definition Song_post_init (s : Song) : result Song :=
  if String.eqb (song_name s) ""
  then Raise (ValueError "Song name cannot be empty")
  else Ok s.

Definition new_Song (n : string) (secs : list SongSection) : result Song :=
  Song_post_init (mkSong n secs).

(** The values of a song dictionary: the name, and the list of section
    dictionaries. *)
Inductive song_val : Type :=
| SVStr (s : string)
| SVSections (l : list (gmap string pyval)).

(** [Song.to_dict]. *)
Definition Song_to_dict (s : Song) : gmap string song_val :=
  <["name" := SVStr (song_name s)]>
  (<["sections" := SVSections (map to_dict (song_sections s))]> ∅).

Definition song_getitem (data : gmap string song_val) (key : string)
  : result song_val :=
  match data !! key with
  | Some v => Ok v
  | None => Raise (KeyError key)
  end.

Definition as_song_str (v : song_val) : result string :=
  match v with SVStr s => Ok s | _ => Raise TypeError end.
Definition as_song_sections (v : song_val)
  : result (list (gmap string pyval)) :=
  match v with SVSections l => Ok l | _ => Raise TypeError end.

(** A list comprehension whose element expression may raise: the elements
    are built from left to right and the first exception ends it. *)
Fixpoint comprehension {A B} (f : A -> result B) (l : list A)
  : result (list B) :=
  match l with
  | [] => Ok []
  | x :: l' =>
      try! y := f x in
      try! ys := comprehension f l' in
      Ok (y :: ys)
  end.

(** [Song.from_dict]: the arguments are evaluated in order, the name, then
    every section, and only then is the song constructed. *)
Definition Song_from_dict (data : gmap string song_val) : result Song :=
  try! n := rbind (song_getitem data "name") as_song_str in
  try! l := rbind (song_getitem data "sections") as_song_sections in
  try! secs := comprehension from_dict l in
  new_Song n secs.

(** [s.endswith(suffix)]. *)
Definition endswith (s suffix : string) : bool :=
  bool_decide (list_ascii_of_string suffix `suffix_of` list_ascii_of_string s).

(** The file name [SongManager.save_song] and [SongManager.load_song] both
    work with: [.json] is added unless the name already ends with it. *)
Definition with_json_extension (filename : string) : string :=
  if negb (endswith filename ".json") then filename ++ ".json" else filename.

(** [SongManager.get_song_files], given what [os.listdir] answers. *)
Definition get_song_files (listing : list string) : list string :=
  filter (fun f => endswith f ".json" = true) listing.

(** [s[:-n]]: all but the last [n] characters. *)
Definition drop_last (n : nat) (s : string) : string :=
  let l := list_ascii_of_string s in
  string_of_list_ascii (take (length l - n) l).

(** [sorted] on a list of strings. *)
Definition sorted (l : list string) : list string :=
  merge_sort String.le l.

(** ** setlist_manager.py and sound_manager.py: directory listings *)

(** [SetlistManager.get_setlist_files], given what [os.listdir] answers. *)
Definition get_setlist_files (listing : list string) : list string :=
  sorted (map (drop_last 5)
              (filter (fun f => endswith f ".json" = true) listing)).

(** [SoundManager.get_available_samples], given what [os.listdir]
    answers. *)
Definition get_available_samples (listing : list string) : list string :=
  sorted (filter (fun f => endswith f ".wav" = true) listing).

(** ** setlist.py *)

Section Setlists.
Context {F : Type}.

Record SetlistEntry : Type := mkSetlistEntry {
  entry_song : Song;
  delay_after : F
}.

Record Setlist : Type := mkSetlist {
  setlist_name : string;
  entries : list SetlistEntry
}.

(** [Setlist.add_entry]. *)
Definition add_entry (song : Song) (delay : F) (sl : Setlist) : Setlist :=
  mkSetlist (setlist_name sl) (entries sl ++ [mkSetlistEntry song delay]).

Definition index_in_range (index : Z) (sl : Setlist) : bool :=
  (0 <=? index) && (index <? Z.of_nat (length (entries sl))).

(** [Setlist.remove_entry]: [pop] under the range guard. *)
Definition remove_entry (index : Z) (sl : Setlist) : Setlist :=
  if index_in_range index sl
  then mkSetlist (setlist_name sl) (delete (Z.to_nat index) (entries sl))
  else sl.

(** [l.insert(i, x)] for [0 <= i]: before position [i], at the end when
    [i] is past it. *)
Definition list_insert_at {A} (i : nat) (x : A) (l : list A) : list A :=
  take i l ++ x :: drop i l.

(** [Setlist.move_entry]: [pop] then [insert], under the two range
    guards. *)
Definition move_entry (from_index to_index : Z) (sl : Setlist) : Setlist :=
  if index_in_range from_index sl && index_in_range to_index sl
  then
    match entries sl !! Z.to_nat from_index with
    | Some entry =>
        mkSetlist (setlist_name sl)
          (list_insert_at (Z.to_nat to_index) entry
             (delete (Z.to_nat from_index) (entries sl)))
    | None => sl
    end
  else sl.

(** The values of an entry dictionary and of a setlist dictionary. *)
Inductive entry_val : Type :=
| EVStr (s : string)
| EVFloat (x : F).

Inductive setlist_val : Type :=
| LVStr (s : string)
| LVEntries (l : list (gmap string entry_val)).

Definition entry_to_dict (e : SetlistEntry) : gmap string entry_val :=
  <["song_name" := EVStr (song_name (entry_song e))]>
  (<["delay_after" := EVFloat (delay_after e)]> ∅).

(** [Setlist.to_dict]. *)
Definition Setlist_to_dict (sl : Setlist) : gmap string setlist_val :=
  <["name" := LVStr (setlist_name sl)]>
  (<["entries" := LVEntries (map entry_to_dict (entries sl))]> ∅).

Definition entry_getitem (data : gmap string entry_val) (key : string)
  : result entry_val :=
  match data !! key with
  | Some v => Ok v
  | None => Raise (KeyError key)
  end.

Definition setlist_getitem (data : gmap string setlist_val) (key : string)
  : result setlist_val :=
  match data !! key with
  | Some v => Ok v
  | None => Raise (KeyError key)
  end.

Definition as_entry_str (v : entry_val) : result string :=
  match v with EVStr s => Ok s | _ => Raise TypeError end.
Definition as_entry_float (v : entry_val) : result F :=
  match v with EVFloat x => Ok x | _ => Raise TypeError end.
Definition as_setlist_str (v : setlist_val) : result string :=
  match v with LVStr s => Ok s | _ => Raise TypeError end.
Definition as_setlist_entries (v : setlist_val)
  : result (list (gmap string entry_val)) :=
  match v with LVEntries l => Ok l | _ => Raise TypeError end.

(** The [for] loop of [Setlist.from_dict]: each entry loads its song by
    name through the song manager and is appended; the first exception
    ends the loop. *)
Fixpoint load_entries (load_song : string -> result Song)
    (l : list (gmap string entry_val)) (sl : Setlist) : result Setlist :=
  match l with
  | [] => Ok sl
  | entry_data :: rest =>
      try! n := rbind (entry_getitem entry_data "song_name") as_entry_str in
      try! song := load_song n in
      try! d :=
        rbind (entry_getitem entry_data "delay_after") as_entry_float in
      load_entries load_song rest (add_entry song d sl)
  end.

(** [Setlist.from_dict]; [load_song] is the song manager's method. *)
Definition Setlist_from_dict (data : gmap string setlist_val)
    (load_song : string -> result Song) : result Setlist :=
  try! n := rbind (setlist_getitem data "name") as_setlist_str in
  try! l := rbind (setlist_getitem data "entries") as_setlist_entries in
  load_entries load_song l (mkSetlist n []).

End Setlists.

Arguments SetlistEntry F : clear implicits.
Arguments Setlist F : clear implicits.
Arguments entry_val F : clear implicits.
Arguments setlist_val F : clear implicits.

(** ** Test drivers *)

(** The tempo after each of a list of bar boundaries handled in turn. *)
Fixpoint bpm_after_bars {F} (bar_counts : list Z) (m : Metronome F)
  : result (list Z) :=
  match bar_counts with
  | [] => Ok []
  | bc :: rest =>
      try! m' := _handle_tempo_change bc m in
      try! l := bpm_after_bars rest m' in
      Ok (bpm m' :: l)
  end.

(** The accent flag of a tick, [false] when the tick raises. *)
Definition accent_at (tick_count subdivisions beats_per_bar : Z) : bool :=
  match tick_identity tick_count subdivisions beats_per_bar with
  | Ok (_, _, a) => a
  | Raise _ => false
  end.

Definition in_bpm_bounds (v : Z) : Prop := MIN_BPM <= v <= MAX_BPM.

(** The number of count-in ticks [play] makes for these settings. *)
Definition count_in_ticks {F} (m : Metronome F) : nat :=
  if count_in_enabled m
  then Z.to_nat (beats_per_bar m * count_in_bars m)
  else 0%nat.

(** The bpm a tempo change leaves, in terms of the parsed settings. *)
Definition changed_bpm (mode : string) (step interval bar_count current : Z)
  : Z :=
  if String.eqb mode "Speed Up" && (bar_count mod interval =? 0)
  then Z.min MAX_BPM (current + step)
  else if String.eqb mode "Slow Down" && (bar_count mod interval =? 0)
  then Z.max MIN_BPM (current - step)
  else current.

(** ** Vocabulary of the scheduling properties *)

Section Schedule.
Context {F : Type} {FO : PyFloat F}.

(** The thread is on schedule from [t0]: [start_time] is [t0] and
    [next_tick_time] is [t0] with the delays computed so far added in
    turn. *)
Definition on_schedule (t0 : F) (w : World F) : Prop :=
  start_time (self w) = t0 /\
  next_tick_time (self w) = fold_left fadd (delays w) t0.

(** A computation keeps a property of the world, whether it returns or
    raises. *)
Definition preserves {A} (P : World F -> Prop) (c : M F A) : Prop :=
  forall w, P w -> P (fst (c w)).

(** An assignment that leaves the three time attributes alone. *)
Definition frames_time (f : Metronome F -> Metronome F) : Prop :=
  forall m, start_time (f m) = start_time m /\
            next_tick_time (f m) = next_tick_time m /\
            timer_duration (f m) = timer_duration m.

(** No fixed duration is set ([timer_duration > 0] is false). *)
Definition timer_off (m : Metronome F) : Prop :=
  fltb (of_int 0) (timer_duration m) = false.

(** Two worlds with the same object and the same delay history (their
    clocks, and so their traces, may differ), no timer being set. *)
Definition same_schedule (w1 w2 : World F) : Prop :=
  self w1 = self w2 /\ delays w1 = delays w2 /\ timer_off (self w1).

(** Two computations that take worlds with the same schedule to worlds with
    the same schedule, with the same outcome. *)
Definition related {A} (c1 c2 : M F A) : Prop :=
  forall w1 w2, same_schedule w1 w2 ->
    same_schedule (fst (c1 w1)) (fst (c2 w2)) /\ snd (c1 w1) = snd (c2 w2).

(** Settings under which every steady-state tick has the same delay and the
    loop never leaves on its own: no section sequence, no timer, a meter
    without zeros, no swing in effect, and no tempo change in effect. *)
Definition steady_settings (m : Metronome F) : Prop :=
  current_section m = None /\
  timer_off m /\
  bpm m <> 0 /\ subdivisions m <> 0 /\ beats_per_bar m <> 0 /\
  swing_enabled m && (subdivisions m =? 2) = false /\
  String.eqb (tempo_change_mode m) "Speed Up" = false /\
  String.eqb (tempo_change_mode m) "Slow Down" = false /\
  is_ok (step_and_interval (tempo_change_step m) (tempo_change_interval m))
    = true.

(** The delay of a count-in tick and of a steady-state tick without
    swing. *)
Definition beat_delay (m : Metronome F) : F :=
  fdiv (of_int 60) (of_int (bpm m)).
Definition nominal_delay (m : Metronome F) : F :=
  fdiv (of_int 60) (of_int (bpm m * subdivisions m)).

(** What one pass of the steady-state loop does to the schedule, read off
    its outcome [out] from world [w] and tick count [tc]. When the pass goes
    on, it has added to [next_tick_time] the delay [_calculate_delay]
    returns for the tick in the object as the pass leaves it, and nothing
    else: the clock is not in it. When the pass leaves the loop or raises,
    the schedule is as it was. [start_time] is never written. *)
Definition pass_schedule (tc : Z) (w : World F)
    (out : World F * result (option (Z * Z))) : Prop :=
  start_time (self (fst out)) = start_time (self w) /\
  match snd out with
  | Ok (Some (tc', _)) =>
      tc' = tc + 1 /\
      exists d,
        _calculate_delay ((tc' - 1) mod subdivisions (self (fst out)))
                         (self (fst out)) = Ok d /\
        next_tick_time (self (fst out)) = fadd (next_tick_time (self w)) d /\
        delays (fst out) = (delays w ++ [d])%list
  | _ =>
      next_tick_time (self (fst out)) = next_tick_time (self w) /\
      delays (fst out) = delays w
  end.

(** The same for one count-in tick: the delay added is [60 / bpm]. *)
Definition count_in_schedule (w : World F) (out : World F * result unit)
  : Prop :=
  start_time (self (fst out)) = start_time (self w) /\
  match snd out with
  | Ok _ =>
      exists d,
        truediv 60 (bpm (self w)) = Ok d /\
        next_tick_time (self (fst out)) = fadd (next_tick_time (self w)) d /\
        delays (fst out) = (delays w ++ [d])%list
  | Raise _ =>
      next_tick_time (self (fst out)) = next_tick_time (self w) /\
      delays (fst out) = delays w
  end.

(** Two worlds whose objects and delay histories are the same; the clock
    readings and the traces may differ. *)
Definition in_step (w1 w2 : World F) : Prop :=
  self w1 = self w2 /\ delays w1 = delays w2.

(** Two computations that keep worlds in step and end the same way. *)
Definition agree {A} (c1 c2 : M F A) : Prop :=
  forall w1 w2, in_step w1 w2 ->
    in_step (fst (c1 w1)) (fst (c2 w2)) /\ snd (c1 w1) = snd (c2 w2).

(** [t] with [d] added [n] times, one addition after the other. *)
Definition add_times (n : nat) (d t : F) : F :=
  Nat.iter n (fun t => fadd t d) t.

End Schedule.

(** ** Vocabulary of the playback trace and of section flows *)

Section Playback.
Context {F : Type} {FO : PyFloat F}.

(** The samples dispatched, in order, and the flags passed to the beat
    callback, in order. *)
Definition samples_of (tr : list (event F)) : list sample :=
  flat_map (fun e => match e with PlaySample s => [s] | _ => [] end) tr.

Definition beats_of (tr : list (event F)) : list bool :=
  flat_map (fun e => match e with OnBeat a => [a] | _ => [] end) tr.

(** The sample of tick [tick_count] for a meter. *)
Definition expected_sample (tick_count subdivisions beats_per_bar : Z)
  : sample :=
  if accent_at tick_count subdivisions beats_per_bar
  then AccentedSample else RegularSample.

(** The tick counts [tc + 1, ..., tc + n]. *)
Definition ticks_from (tc : Z) (n : nat) : list Z :=
  map (fun i => tc + Z.of_nat i) (seq 1 n).

(** Settings under which a pass of the loop cannot raise and the tempo is
    not changed at bar boundaries: no timer, a tempo and a meter without
    zeros, and a tempo-change mode other than the two that act, with
    settings [int] accepts. Swing and sections are left open. *)
Definition quiet_settings (m : Metronome F) : Prop :=
  timer_off m /\
  bpm m <> 0 /\ subdivisions m <> 0 /\ beats_per_bar m <> 0 /\
  String.eqb (tempo_change_mode m) "Speed Up" = false /\
  String.eqb (tempo_change_mode m) "Slow Down" = false /\
  is_ok (step_and_interval (tempo_change_step m) (tempo_change_interval m))
    = true.

(** The object is playing section [s], the entry [ix] of its list, with the
    section's tempo and meter loaded. *)
Definition at_section (secs : list SongSection) (ix : nat) (s : SongSection)
    (m : Metronome F) : Prop :=
  sections m = secs /\ current_section_index m = ix /\
  current_section m = Some s /\
  bpm m = sec_bpm s /\ beats_per_bar m = sec_beats_per_bar s /\
  subdivisions m = sec_subdivisions s /\
  running m = true.

(** The handling of bar boundaries [1, ..., n] in turn. *)
Fixpoint after_bars (n : nat) (m : Metronome F) : result (Metronome F) :=
  match n with
  | O => Ok m
  | S n' =>
      try! m' := after_bars n' m in
      _handle_tempo_change (Z.of_nat n) m'
  end.

End Playback.

(** The ticks of a list of sections, by [get_total_ticks]. *)
Definition flow_ticks (secs : list SongSection) : Z :=
  fold_right (fun s acc => get_total_ticks s + acc) 0 secs.

(** The loop does not reset [tick_count] when it changes section and finds
    the end of a bar by [tick_count % (beats_per_bar * subdivisions)]; a
    list of sections is in phase when every section starts on a tick count
    that is a multiple of its own bar length. [before] is the number of
    ticks played before the list. *)
Fixpoint in_phase (before : Z) (secs : list SongSection) : Prop :=
  match secs with
  | [] => True
  | s :: rest =>
      before mod (sec_beats_per_bar s * sec_subdivisions s) = 0 /\
      in_phase (before + get_total_ticks s) rest
  end.

(** What a section contributes when the loop plays it from its first tick
    to its last, [get_total_ticks] entries each: the samples, the flags
    handed to the beat callback, and the delays [_calculate_delay] returns
    with the section loaded into the object, for the ticks
    [1, ..., get_total_ticks] of the section. *)
Definition section_samples (s : SongSection) : list sample :=
  map (fun i => expected_sample i (sec_subdivisions s) (sec_beats_per_bar s))
      (ticks_from 0 (Z.to_nat (get_total_ticks s))).

Definition section_accents (s : SongSection) : list bool :=
  map (fun i => accent_at i (sec_subdivisions s) (sec_beats_per_bar s))
      (ticks_from 0 (Z.to_nat (get_total_ticks s))).

Definition section_delays {F : Type} {FO : PyFloat F} (m : Metronome F)
    (s : SongSection) : list (result F) :=
  map (fun i => _calculate_delay ((i - 1) mod sec_subdivisions s)
                                 (load_section s m))
      (ticks_from 0 (Z.to_nat (get_total_ticks s))).

(** * Properties *)

(** ** Song sections *)

Lemma post_init_ok (s : SongSection) :
  post_init s = Ok s <->
  0 < bars s /\ 0 < sec_bpm s /\ 0 < sec_beats_per_bar s /\
  0 < sec_subdivisions s.
Proof.
  unfold post_init.
  repeat match goal with
         | |- context [?a <=? ?b] => destruct (Z.leb_spec a b)
         end; split; intros Hs; try discriminate; try reflexivity; lia.
Qed.

Lemma post_init_inv (s s' : SongSection) :
  post_init s = Ok s' -> s' = s.
Proof.
  unfold post_init.
  repeat match goal with
         | |- context [?a <=? ?b] => destruct (a <=? b)
         end; congruence.
Qed.

Lemma post_init_raises (s : SongSection) :
  (exists msg, post_init s = Raise (ValueError msg)) <->
  bars s <= 0 \/ sec_bpm s <= 0 \/ sec_beats_per_bar s <= 0 \/
  sec_subdivisions s <= 0.
Proof.
  unfold post_init.
  repeat match goal with
         | |- context [?a <=? ?b] => destruct (Z.leb_spec a b)
         end; split; intros Hs; eauto; try lia.
  destruct Hs as [msg Hs]; discriminate.
Qed.

Lemma post_init_only_ValueError (s : SongSection) (e : exn) :
  post_init s = Raise e -> exists msg, e = ValueError msg.
Proof.
  unfold post_init.
  repeat match goal with
         | |- context [?a <=? ?b] => destruct (a <=? b)
         end; intros Hs; inversion Hs; eauto.
Qed.

(** C8. Constructing a section raises the validation error exactly when one
    of bars, bpm, beats per bar, subdivisions is not positive; it raises
    nothing else; and a section that was constructed holds the given values,
    the four numbers all positive. *)
Theorem section_construction_validates
    (n : string) (b t bpb sub : Z) (sw : bool) :
  ((exists msg, new_SongSection n b t bpb sub sw = Raise (ValueError msg)) <->
   (b <= 0 \/ t <= 0 \/ bpb <= 0 \/ sub <= 0)) /\
  (forall e, new_SongSection n b t bpb sub sw = Raise e ->
             exists msg, e = ValueError msg) /\
  (forall s, new_SongSection n b t bpb sub sw = Ok s ->
             s = mkSongSection n b t bpb sub sw /\
             0 < bars s /\ 0 < sec_bpm s /\ 0 < sec_beats_per_bar s /\
             0 < sec_subdivisions s).
Proof.
  unfold new_SongSection. split; [| split].
  - apply (post_init_raises (mkSongSection n b t bpb sub sw)).
  - intros e. apply post_init_only_ValueError.
  - intros s Hs. pose proof (post_init_inv _ _ Hs) as ->.
    split; [reflexivity |]. now apply post_init_ok.
Qed.

Lemma section_construction_validates_witness :
  0 < bars (mkSongSection "verse" 8 120 4 2 false) /\
  exists msg, new_SongSection "bridge" 4 0 4 2 false = Raise (ValueError msg).
Proof.
  split.
  - apply (proj2 (proj2 (section_construction_validates "verse" 8 120 4 2 false))
             (mkSongSection "verse" 8 120 4 2 false)).
    reflexivity.
  - apply (proj1 (section_construction_validates "bridge" 4 0 4 2 false)).
    right; left; lia.
Defined.

Lemma getitem_to_dict (s : SongSection) :
  getitem (to_dict s) "name" = Ok (VStr (name s)) /\
  getitem (to_dict s) "bars" = Ok (VInt (bars s)) /\
  getitem (to_dict s) "bpm" = Ok (VInt (sec_bpm s)) /\
  getitem (to_dict s) "beats_per_bar" = Ok (VInt (sec_beats_per_bar s)) /\
  getitem (to_dict s) "subdivisions" = Ok (VInt (sec_subdivisions s)) /\
  getitem (to_dict s) "swing_enabled" = Ok (VBool (sec_swing_enabled s)).
Proof.
  unfold getitem, to_dict. repeat split; by simplify_map_eq.
Qed.

(** C9. A section that was constructed survives the passage through its
    dictionary: [from_dict (to_dict s)] returns, and returns [s] itself, so
    every field is kept. *)
Theorem from_dict_to_dict
    (n : string) (b t bpb sub : Z) (sw : bool) (s : SongSection) :
  new_SongSection n b t bpb sub sw = Ok s ->
  from_dict (to_dict s) = Ok s.
Proof.
  intros Hs. unfold new_SongSection in Hs.
  pose proof (post_init_inv _ _ Hs) as ->.
  destruct (getitem_to_dict (mkSongSection n b t bpb sub sw))
    as (H1 & H2 & H3 & H4 & H5 & H6).
  unfold from_dict. rewrite H1, H2, H3, H4, H5, H6. simpl. exact Hs.
Qed.

Lemma from_dict_to_dict_witness :
  from_dict (to_dict (mkSongSection "chorus" 8 140 4 2 true)) =
  Ok (mkSongSection "chorus" 8 140 4 2 true).
Proof.
  apply (from_dict_to_dict "chorus" 8 140 4 2 true). reflexivity.
Defined.

(** ** Tick identity *)

Lemma tick_identity_ok (tc sub bpb : Z) :
  sub <> 0 -> bpb <> 0 ->
  tick_identity tc sub bpb =
  Ok ((tc - 1) / sub, (tc - 1) mod sub,
      ((tc - 1) mod sub =? 0) && (((tc - 1) / sub) mod bpb =? 0)).
Proof.
  intros Hsub Hbpb. unfold tick_identity, floordiv, pymod.
  apply Z.eqb_neq in Hsub, Hbpb. rewrite Hsub. simpl.
  destruct ((tc - 1) mod sub =? 0); simpl; [rewrite Hbpb |]; reflexivity.
Qed.

Lemma bar_start_iff (x sub bpb : Z) :
  0 < sub -> 0 < bpb ->
  (x mod sub = 0 /\ (x / sub) mod bpb = 0) <-> x mod (bpb * sub) = 0.
Proof.
  intros Hsub Hbpb.
  rewrite (Z.mul_comm bpb sub), Z.rem_mul_r by lia.
  pose proof (Z.mod_pos_bound x sub Hsub).
  pose proof (Z.mod_pos_bound (x / sub) bpb Hbpb).
  split; [intros [-> ->]; lia | nia].
Qed.

(** C4. For a tick count of at least 1 and positive meter settings, the loop
    computes [beat = (tick_count-1) div subdivisions] and
    [tick_in_beat = (tick_count-1) mod subdivisions], and accents the tick
    exactly when [tick_in_beat = 0] and [beat mod beats_per_bar = 0], that
    is, exactly every [beats_per_bar * subdivisions] ticks starting with the
    first; with 2 subdivisions and 4 beats the accented ticks are exactly
    1, 9, 17, ... *)
Theorem accent_rule (tick_count sub bpb : Z) :
  1 <= tick_count -> 0 < sub -> 0 < bpb ->
  (exists a,
     tick_identity tick_count sub bpb =
       Ok ((tick_count - 1) / sub, (tick_count - 1) mod sub, a) /\
     (a = true <->
      (tick_count - 1) mod sub = 0 /\ ((tick_count - 1) / sub) mod bpb = 0) /\
     (a = true <-> (tick_count - 1) mod (bpb * sub) = 0)) /\
  (accent_at tick_count 2 4 = true <->
   exists j, 0 <= j /\ tick_count = 8 * j + 1).
Proof.
  intros Htc Hsub Hbpb.
  assert (Hgen : forall s b, 0 < s -> 0 < b ->
            accent_at tick_count s b = true <->
            ((tick_count - 1) mod s = 0 /\ ((tick_count - 1) / s) mod b = 0)).
  { intros s b Hs Hb. unfold accent_at.
    rewrite tick_identity_ok by lia.
    rewrite andb_true_iff, !Z.eqb_eq. reflexivity. }
  split.
  - eexists. split; [apply tick_identity_ok; lia |].
    pose proof (Hgen sub bpb Hsub Hbpb) as Hg.
    unfold accent_at in Hg. rewrite tick_identity_ok in Hg by lia.
    split; [exact Hg |].
    rewrite Hg. now apply bar_start_iff.
  - rewrite (Hgen 2 4) by lia. rewrite (bar_start_iff _ 2 4) by lia.
    change (4 * 2) with 8. split.
    + intros Hm. exists ((tick_count - 1) / 8). split.
      * apply Z.div_pos; lia.
      * pose proof (Z.div_mod (tick_count - 1) 8). lia.
    + intros (j & Hj & ->).
      replace (8 * j + 1 - 1) with (j * 8) by lia. apply Z.mod_mul. lia.
Qed.

Lemma accent_rule_witness :
  accent_at 9 2 4 = true <-> exists j, 0 <= j /\ 9 = 8 * j + 1.
Proof.
  apply (proj2 (accent_rule 9 2 4 ltac:(lia) ltac:(lia) ltac:(lia))).
Defined.

(** The first seventeen ticks in 4/4 with two subdivisions. *)
Example accent_first_17 :
  filter (fun tc => accent_at tc 2 4) (map Z.of_nat (seq 1 17)) = [1; 9; 17].
Proof. reflexivity. Qed.

(** ** Tempo change at a bar boundary *)

Lemma py_int_non_numeric (s : string) :
  int_literal s = None -> exists msg, py_int (VStr s) = Raise (ValueError msg).
Proof. intros Hs. simpl. rewrite Hs. eauto. Qed.

(** A string that is not an integer literal, in either setting, puts the
    documented defaults in place of both. *)
Lemma step_and_interval_fallback (s : string) (v : pyval) :
  int_literal s = None ->
  step_and_interval (VStr s) v = Ok (5, 4) /\
  (is_ok (py_int v) = true -> step_and_interval v (VStr s) = Ok (5, 4)).
Proof.
  intros Hs. unfold step_and_interval. simpl. rewrite Hs. simpl.
  split; [reflexivity |].
  destruct (py_int v); simpl; [reflexivity | discriminate].
Qed.

Lemma step_and_interval_ints (step interval : Z) :
  step_and_interval (VInt step) (VInt interval) = Ok (step, interval).
Proof. reflexivity. Qed.

Lemma mode_due_ok (mode label : string) (bar_count interval : Z) :
  interval <> 0 ->
  mode_due mode label bar_count interval =
  Ok (String.eqb mode label && (bar_count mod interval =? 0)).
Proof.
  intros Hi. unfold mode_due, pymod. apply Z.eqb_neq in Hi. rewrite Hi.
  destruct (String.eqb mode label); reflexivity.
Qed.

Section TempoChange.
Context {F : Type} {FO : PyFloat F}.
Implicit Types m : Metronome F.

Lemma set_bpm_same m : set_bpm (bpm m) m = m.
Proof. destruct m; reflexivity. Qed.

Lemma bpm_set_bpm v m : bpm (set_bpm v m) = v.
Proof. destruct m; reflexivity. Qed.

Lemma handle_tempo_change_parsed m (bar_count step interval : Z) :
  step_and_interval (tempo_change_step m) (tempo_change_interval m)
    = Ok (step, interval) ->
  interval <> 0 ->
  _handle_tempo_change bar_count m =
  Ok (set_bpm (changed_bpm (tempo_change_mode m) step interval bar_count
                           (bpm m)) m).
Proof.
  intros Hp Hi. unfold _handle_tempo_change, tempo_change, changed_bpm.
  rewrite Hp. simpl. rewrite !mode_due_ok by assumption. simpl.
  destruct (String.eqb (tempo_change_mode m) "Speed Up"
            && (bar_count mod interval =? 0)); simpl; [reflexivity |].
  destruct (String.eqb (tempo_change_mode m) "Slow Down"
            && (bar_count mod interval =? 0)); simpl; [reflexivity |].
  now rewrite set_bpm_same.
Qed.

(** C7. With integer settings (interval not zero), handling bar boundary
    [bar_count] returns and changes nothing but the bpm: in mode "Speed Up",
    when [bar_count mod interval = 0], the bpm becomes
    [min MAX_BPM (bpm + step)]; in mode "Slow Down", when
    [bar_count mod interval = 0], it becomes [max MIN_BPM (bpm - step)]; at
    every other bar count, and in every other mode, it is unchanged. With
    "Speed Up", step 5 and interval 4, the bar counts 1..8 raise a bpm of
    120 at bars 4 and 8 only. *)
Theorem tempo_change_rule m (bar_count step interval : Z) :
  tempo_change_step m = VInt step ->
  tempo_change_interval m = VInt interval ->
  interval <> 0 ->
  (exists m',
     _handle_tempo_change bar_count m = Ok m' /\
     m' = set_bpm (bpm m') m /\
     (tempo_change_mode m = "Speed Up" -> bar_count mod interval = 0 ->
      bpm m' = Z.min MAX_BPM (bpm m + step)) /\
     (tempo_change_mode m = "Slow Down" -> bar_count mod interval = 0 ->
      bpm m' = Z.max MIN_BPM (bpm m - step)) /\
     (bar_count mod interval <> 0 -> bpm m' = bpm m) /\
     (tempo_change_mode m <> "Speed Up" ->
      tempo_change_mode m <> "Slow Down" -> bpm m' = bpm m)) /\
  (tempo_change_mode m = "Speed Up" -> step = 5 -> interval = 4 ->
   bpm m = 120 ->
   bpm_after_bars [1; 2; 3; 4; 5; 6; 7; 8] m =
   Ok [120; 120; 120; 125; 125; 125; 125; 130]).
Proof.
  intros Hs Hi Hnz.
  assert (Hp : forall v, step_and_interval (tempo_change_step (set_bpm v m))
                           (tempo_change_interval (set_bpm v m))
                         = Ok (step, interval)).
  { intros v. destruct m; simpl in *. subst. reflexivity. }
  split.
  - eexists. split.
    + apply (handle_tempo_change_parsed m bar_count step interval);
        [| exact Hnz].
      rewrite Hs, Hi. reflexivity.
    + rewrite bpm_set_bpm. split; [reflexivity |]. unfold changed_bpm.
      repeat split.
      * intros -> ->. reflexivity.
      * intros -> ->. reflexivity.
      * intros Hm. apply Z.eqb_neq in Hm. rewrite Hm, !andb_false_r.
        reflexivity.
      * intros H1 H2. apply String.eqb_neq in H1, H2. rewrite H1, H2.
        reflexivity.
  - intros Hmode -> -> Hb.
    assert (Hstep : forall bc v,
              _handle_tempo_change bc (set_bpm v m) =
              Ok (set_bpm (changed_bpm "Speed Up" 5 4 bc v) m)).
    { intros bc v. rewrite (handle_tempo_change_parsed _ bc 5 4 (Hp v))
        by lia.
      destruct m; simpl in *. subst. reflexivity. }
    rewrite <- (set_bpm_same m), Hb. simpl.
    repeat (rewrite Hstep; simpl; rewrite ?bpm_set_bpm).
    reflexivity.
Qed.

End TempoChange.

Lemma tempo_change_rule_witness :
  bpm_after_bars [1; 2; 3; 4; 5; 6; 7; 8]
    (set_tempo_change_mode "Speed Up" (@init Q _)) =
  Ok [120; 120; 120; 125; 125; 125; 125; 130].
Proof.
  apply (proj2 (tempo_change_rule
                  (set_tempo_change_mode "Speed Up" (@init Q _)) 1 5 4
                  eq_refl eq_refl ltac:(discriminate))); reflexivity.
Defined.

(** A metronome as ui.py leaves it when "0" is typed for the interval and
    "Speed Up" is chosen: the entry is read through [int], so the attribute
    holds the integer 0. *)
Example zero_interval_setting :
  py_int (VStr "0") = Ok 0 /\ py_int (VStr "-5") = Ok (-5).
Proof. split; reflexivity. Qed.

(** C5 (evaluation at the failing settings). With interval 0 and mode
    "Speed Up" the bar boundary raises [ZeroDivisionError] instead of using
    interval 4, and the playback thread ends at its first bar boundary with
    the running flag still set; with step -5 the step is used as it is, so
    "Speed Up" lowers 120 to 115 where the default step would give 125. *)
Theorem tempo_change_bad_integers :
  let speed_up := set_tempo_change_mode "Speed Up" (@init Q _) in
  let zero := set_tempo_change_interval (VInt 0) speed_up in
  let negative := set_tempo_change_step (VInt (-5)) speed_up in
  _handle_tempo_change 1 zero = Raise ZeroDivisionError /\
  (let out := play (fun _ => 0%Q) 8
                (spawn (start None 0%Q (set_count_in_enabled false zero))) in
   snd out = Raise ZeroDivisionError /\
   running (self (fst out)) = true /\
   length (delays (fst out)) = 3%nat) /\
  _handle_tempo_change 4 negative = Ok (set_bpm 115 negative) /\
  _handle_tempo_change 4 speed_up = Ok (set_bpm 125 speed_up).
Proof. vm_compute. repeat split; reflexivity. Qed.

(** ** Lifecycle *)

Section Lifecycle.
Context {F : Type} {FO : PyFloat F}.
Implicit Types m : Metronome F.

(** C6 (as the code has it). Starting a sequence with an empty list returns
    normally, without an error, and leaves the whole object as it was: the
    section list, the current index, the tempo and meter values, and the
    running flag; no playback is started. *)
Theorem start_song_flow_empty_is_silent (now : F) m :
  start_song_flow [] now m = Ok m.
Proof. reflexivity. Qed.

(** C10. While the metronome is running, [start] changes nothing: the
    object is returned as it was, so the flag stays set, [start_time] and
    [next_tick_time] keep their values, the thread handle is the same and
    no thread is created. *)
Theorem start_while_running_is_noop (arg : option F) (now : F) m :
  running m = true ->
  start arg now m = m /\
  running (start arg now m) = true /\
  start_time (start arg now m) = start_time m /\
  next_tick_time (start arg now m) = next_tick_time m /\
  thread (start arg now m) = thread m /\
  threads_created (start arg now m) = threads_created m.
Proof.
  intros Hr. assert (Hs : start arg now m = m).
  { unfold start. rewrite Hr. reflexivity. }
  rewrite Hs. repeat split; auto.
Qed.

(** A first [start] does create the thread, so the statement above is not
    about an operation that never does anything. *)
Lemma start_when_stopped (arg : option F) (now : F) m :
  running m = false ->
  running (start arg now m) = true /\
  thread (start arg now m) = Some (threads_created m) /\
  threads_created (start arg now m) = S (threads_created m) /\
  next_tick_time (start arg now m) = start_time (start arg now m).
Proof.
  intros Hr. unfold start. rewrite Hr. destruct m; simpl. repeat split.
Qed.

End Lifecycle.

(** C6 (the claim as stated fails). The call with an empty list does not end
    in an error. *)
Lemma start_song_flow_empty_no_error :
  ~ (exists e, start_song_flow [] 0%Q (@init Q _) = Raise e).
Proof. intros [e He]. discriminate He. Qed.

Lemma start_while_running_is_noop_witness :
  let m := start None 7%Q (@init Q _) in
  start (Some 9%Q) 11%Q m = m.
Proof.
  apply (proj1 (start_while_running_is_noop (Some 9%Q) 11%Q
                  (start None 7%Q (@init Q _)) eq_refl)).
Defined.

(** ** Tempo bounds *)

Section TempoBounds.
Context {F : Type} {FO : PyFloat F}.
Implicit Types (m : Metronome F) (w : World F).

Lemma bpm_load_section (s : SongSection) m :
  bpm (load_section s m) = sec_bpm s.
Proof. destruct m; reflexivity. Qed.




End TempoBounds.



(** ** Delay of a tick *)

(** With other than two subdivisions the swing flag is not looked at, in any
    arithmetic. *)
Lemma swing_needs_two_subdivisions {F : Type} {FO : PyFloat F}
    (m : Metronome F) (tick_in_beat : Z) (sw : bool) :
  subdivisions m <> 2 ->
  _calculate_delay tick_in_beat (set_swing_enabled sw m) =
  truediv 60 (bpm m * subdivisions m).
Proof.
  intros Hs. apply Z.eqb_neq in Hs. unfold _calculate_delay.
  destruct m; simpl in *. rewrite Hs, andb_false_r. reflexivity.
Qed.

(** C3. In exact arithmetic, for a bpm in [[MIN_BPM, MAX_BPM]] and at least
    one subdivision, the delay of a tick is returned and is: with swing on
    and exactly two subdivisions, [(60/bpm)*2/3] on the first tick of the
    beat and [(60/bpm)*1/3] on the other; in every other case
    [60/(bpm*subdivisions)]. With other than two subdivisions the delay with
    the swing flag set is the delay with it cleared. *)
Theorem calculate_delay_formula (m : Metronome Q) (tick_in_beat : Z) :
  in_bpm_bounds (bpm m) -> 1 <= subdivisions m ->
  (exists d : Q,
     _calculate_delay tick_in_beat m = Ok d /\
     (d == if swing_enabled m && (subdivisions m =? 2)
           then if tick_in_beat =? 0
                then (60 / inject_Z (bpm m)) * 2 / 3
                else (60 / inject_Z (bpm m)) * 1 / 3
           else 60 / (inject_Z (bpm m) * inject_Z (subdivisions m)))%Q) /\
  (subdivisions m <> 2 ->
   _calculate_delay tick_in_beat (set_swing_enabled true m) =
   _calculate_delay tick_in_beat (set_swing_enabled false m)).
Proof.
  intros [Hlo Hhi] Hsub. unfold MIN_BPM in Hlo. split.
  - unfold _calculate_delay, truediv.
    assert (Hb : (bpm m =? 0) = false) by (apply Z.eqb_neq; lia).
    assert (Hbs : (bpm m * subdivisions m =? 0) = false)
      by (apply Z.eqb_neq; nia).
    assert (Hq : ~ (inject_Z (bpm m) == 0)%Q).
    { change 0%Q with (inject_Z 0). rewrite inject_Z_injective. lia. }
    assert (Hqs : ~ (inject_Z (subdivisions m) == 0)%Q).
    { change 0%Q with (inject_Z 0). rewrite inject_Z_injective. lia. }
    rewrite Hb, Hbs.
    destruct (swing_enabled m && (subdivisions m =? 2)); simpl.
    + eexists. split; [reflexivity |].
      destruct (tick_in_beat =? 0); field; exact Hq.
    + eexists. split; [reflexivity |].
      rewrite inject_Z_mult. reflexivity.
  - intros Hs. now rewrite !swing_needs_two_subdivisions.
Qed.

Lemma calculate_delay_formula_witness :
  exists d : Q,
    _calculate_delay 0 (set_swing_enabled true
                          (set_subdivisions 2 (@init Q _))) = Ok d /\
    (d == (60 / inject_Z 120) * 2 / 3)%Q.
Proof.
  apply (proj1 (calculate_delay_formula
                  (set_swing_enabled true (set_subdivisions 2 (@init Q _))) 0
                  ltac:(vm_compute; split; discriminate)
                  ltac:(vm_compute; discriminate))).
Defined.

(** ** Scheduling *)

Section SchedulingInvariant.
Context {F : Type} {FO : PyFloat F}.
Implicit Types (m : Metronome F) (w : World F).

Lemma frames_set_running b : frames_time (F:=F) (set_running b).
Proof. intros []; repeat split. Qed.

Lemma frames_set_bpm v : frames_time (F:=F) (set_bpm v).
Proof. intros []; repeat split. Qed.

Lemma frames_set_current_section_index i :
  frames_time (F:=F) (set_current_section_index i).
Proof. intros []; repeat split. Qed.

Lemma frames_set_current_section s :
  frames_time (F:=F) (set_current_section s).
Proof. intros []; repeat split. Qed.

Lemma frames_load_section s : frames_time (F:=F) (load_section s).
Proof. intros []; repeat split. Qed.

(** A bar boundary that returns has at most written the bpm. *)
Lemma handle_tempo_change_shape (bar_count : Z) m m' :
  _handle_tempo_change bar_count m = Ok m' -> exists v, m' = set_bpm v m.
Proof.
  unfold _handle_tempo_change.
  destruct (tempo_change _ _ _ _ _) as [[v |] | e]; simpl; intros H;
    inversion H; subst.
  - eauto.
  - exists (bpm m'). now rewrite set_bpm_same.
Qed.

Section Invariant.
Variable P : World F -> Prop.
Hypothesis P_self_frame :
  forall m r tr ds r' tr' f, frames_time f ->
    P (mkWorld m r tr ds) -> P (mkWorld (f m) r' tr' ds).

Hypothesis P_advance : forall d, preserves P (advance d).

Lemma preserves_ret {A} (a : A) : preserves P (ret a).
Proof. intros w Hw. exact Hw. Qed.

Lemma preserves_lift {A} (r : result A) : preserves P (lift r).
Proof. intros w Hw. exact Hw. Qed.

Lemma preserves_get_self : preserves P get_self.
Proof. intros w Hw. exact Hw. Qed.

Lemma preserves_bind {A B} (c : M F A) (k : A -> M F B) :
  preserves P c -> (forall a, preserves P (k a)) -> preserves P (bind c k).
Proof.
  intros Hc Hk w Hw. unfold bind. specialize (Hc w Hw).
  destruct (c w) as [w' [a | e]]; simpl in *; [apply Hk |]; assumption.
Qed.

Lemma frames_id : frames_time (F:=F) (fun m => m).
Proof. intros m; repeat split. Qed.

Lemma preserves_update f : frames_time f -> preserves P (update f).
Proof.
  intros Hf [m r tr ds] Hw. simpl.
  apply (P_self_frame m r tr ds r tr f Hf Hw).
Qed.

Lemma preserves_emit (e : event F) : preserves P (emit e).
Proof.
  intros [m r tr ds] Hw. simpl.
  apply (P_self_frame m r tr ds r (tr ++ [e]) (fun m => m) frames_id Hw).
Qed.

Lemma preserves_time_time (clock : nat -> F) : preserves P (time_time clock).
Proof.
  intros [m r tr ds] Hw. simpl.
  apply (P_self_frame m r tr ds (S r) tr (fun m => m) frames_id Hw).
Qed.

Lemma preserves_handle_tempo_change (bar_count : Z) :
  preserves P (call (_handle_tempo_change bar_count)).
Proof.
  intros [m r tr ds] Hw. unfold call, bind, get_self, lift, update. simpl.
  destruct (_handle_tempo_change bar_count m) as [m' | e] eqn:Hm; simpl.
  - apply handle_tempo_change_shape in Hm as [v ->].
    apply (P_self_frame m r tr ds r tr (set_bpm v) (frames_set_bpm v) Hw).
  - exact Hw.
Qed.

Ltac preserve :=
  repeat first
    [ assumption | progress cbv zeta
    | match goal with H : forall _ _, preserves _ _ |- _ => apply H end
    | apply preserves_ret | apply preserves_lift | apply preserves_get_self
    | apply preserves_emit | apply preserves_time_time | apply P_advance
    | apply preserves_handle_tempo_change
    | apply preserves_update;
      first [ apply frames_set_running | apply frames_set_current_section_index
            | apply frames_set_current_section | apply frames_load_section ]
    | apply preserves_bind; [| intros ? ]
    | match goal with
      | |- preserves _ (if ?b then _ else _) => destruct b
      | |- preserves _ (match ?x with _ => _ end) => destruct x
      end ].

Variable clock : nat -> F.

Lemma preserves_sleep : preserves P (sleep_until_next_tick clock).
Proof. unfold sleep_until_next_tick. preserve. Qed.

Lemma preserves_count_in : preserves P (count_in clock).
Proof.
  assert (Ht : preserves P (count_in_tick clock)).
  { pose proof preserves_sleep. unfold count_in_tick. preserve. }
  assert (Hr : forall n, preserves P (repeat_M n (count_in_tick clock))).
  { induction n; simpl; preserve. }
  unfold count_in. preserve. apply Hr.
Qed.

Lemma preserves_loop_body (tc bc : Z) : preserves P (loop_body clock tc bc).
Proof.
  pose proof preserves_sleep.
  unfold loop_body, timer_expired, section_check. preserve.
Qed.

Lemma preserves_steady_state (n : nat) (tc bc : Z) :
  preserves P (steady_state clock n tc bc).
Proof.
  pose proof preserves_loop_body as Hbody.
  revert tc bc. induction n; intros tc bc; simpl; preserve.
Qed.

Lemma preserves_play (n : nat) : preserves P (play clock n).
Proof.
  unfold play. apply preserves_bind.
  - apply preserves_count_in.
  - intros _. apply preserves_steady_state.
Qed.

End Invariant.

Lemma on_schedule_frame (t0 : F) m r tr ds r' tr' f :
  frames_time f ->
  on_schedule t0 (mkWorld m r tr ds) -> on_schedule t0 (mkWorld (f m) r' tr' ds).
Proof.
  intros Hf [Hs Hn]. destruct (Hf m) as (Hfs & Hfn & _).
  unfold on_schedule in *. simpl in *. rewrite Hfs, Hfn. now split.
Qed.

Lemma on_schedule_advance (t0 d : F) : preserves (on_schedule t0) (advance d).
Proof.
  intros [m r tr ds] [Hs Hn]. unfold on_schedule in *. simpl in *.
  rewrite fold_left_app. simpl. rewrite <- Hn. destruct m; simpl in *.
  now split.
Qed.

(** Whatever the clock answers and however the pass ends, [play] keeps the
    thread on schedule. *)
Lemma play_on_schedule (clock : nat -> F) (n : nat) (t0 : F) :
  preserves (on_schedule t0) (play clock n).
Proof.
  apply preserves_play.
  - apply on_schedule_frame.
  - apply on_schedule_advance.
Qed.

End SchedulingInvariant.

(** *** The clock does not enter the schedule *)

Section ClockIndependence.
Context {F : Type} {FO : PyFloat F}.
Implicit Types (m : Metronome F) (w : World F).

Lemma related_ret {A} (a : A) : related (F:=F) (ret a) (ret a).
Proof. intros w1 w2 Hw. split; [exact Hw | reflexivity]. Qed.

Lemma related_lift {A} (r : result A) : related (F:=F) (lift r) (lift r).
Proof. intros w1 w2 Hw. split; [exact Hw | reflexivity]. Qed.

Lemma related_get_self : related (F:=F) get_self get_self.
Proof.
  intros w1 w2 Hw. split; [exact Hw |]. destruct Hw as [Hs _]. simpl.
  now rewrite Hs.
Qed.

Lemma related_bind {A B} (c1 c2 : M F A) (k1 k2 : A -> M F B) :
  related c1 c2 -> (forall a, related (k1 a) (k2 a)) ->
  related (bind c1 k1) (bind c2 k2).
Proof.
  intros Hc Hk w1 w2 Hw. unfold bind. destruct (Hc w1 w2 Hw) as [Hw' Hr].
  destruct (c1 w1) as [w1' r1], (c2 w2) as [w2' r2]. simpl in *. subst r2.
  destruct r1 as [a | e]; [apply Hk; exact Hw' | split; [exact Hw' | easy]].
Qed.

Lemma related_update f : frames_time f -> related (update f) (update f).
Proof.
  intros Hf [m1 r1 tr1 ds1] [m2 r2 tr2 ds2] (Hs & Hd & Ht).
  unfold same_schedule, timer_off in *. simpl in *. subst.
  destruct (Hf m2) as (_ & _ & Htd). rewrite Htd. auto.
Qed.

Lemma related_emit (e1 e2 : event F) : related (emit e1) (emit e2).
Proof.
  intros [m1 r1 tr1 ds1] [m2 r2 tr2 ds2] Hw. split; [exact Hw | reflexivity].
Qed.

Lemma related_advance (d : F) : related (advance d) (advance d).
Proof.
  intros [m1 r1 tr1 ds1] [m2 r2 tr2 ds2] (Hs & Hd & Ht).
  unfold same_schedule, timer_off in *. simpl in *. subst.
  destruct m2; simpl in *. auto.
Qed.

Lemma related_handle_tempo_change (bar_count : Z) :
  related (F:=F) (call (_handle_tempo_change bar_count))
          (call (_handle_tempo_change bar_count)).
Proof.
  intros [m1 r1 tr1 ds1] [m2 r2 tr2 ds2] (Hs & Hd & Ht).
  unfold same_schedule, timer_off in *. simpl in *. subst.
  unfold call, bind, get_self, lift, update. simpl.
  destruct (_handle_tempo_change bar_count m2) as [m' | e] eqn:Hm; simpl.
  - apply handle_tempo_change_shape in Hm as [v ->].
    destruct (frames_set_bpm v m2) as (_ & _ & Htd). rewrite Htd. auto.
  - auto.
Qed.

Variables clock1 clock2 : nat -> F.

(** The sleep reads the clock and may or may not sleep; the object and the
    delay history are out of its reach. *)
Lemma related_sleep :
  related (sleep_until_next_tick clock1) (sleep_until_next_tick clock2).
Proof.
  intros [m1 r1 tr1 ds1] [m2 r2 tr2 ds2] (Hs & Hd & Ht).
  unfold same_schedule in *. simpl in *. subst.
  unfold sleep_until_next_tick, bind, get_self, time_time. simpl.
  do 2 destruct (fltb _ _); simpl; auto.
Qed.

(** With no duration set the timer check answers [False] without reading
    the clock. *)
Lemma related_timer_expired :
  related (timer_expired clock1) (timer_expired clock2).
Proof.
  intros [m1 r1 tr1 ds1] [m2 r2 tr2 ds2] (Hs & Hd & Ht).
  unfold same_schedule in *. simpl in *. subst.
  unfold timer_expired, bind, get_self. simpl.
  unfold timer_off in Ht. rewrite Ht. simpl. auto.
Qed.

Ltac relate :=
  repeat first
    [ assumption | progress cbv zeta
    | match goal with H : forall _ _, related _ _ |- _ => apply H end
    | apply related_sleep | apply related_timer_expired
    | apply related_ret | apply related_lift | apply related_get_self
    | apply related_emit | apply related_advance
    | apply related_handle_tempo_change
    | apply related_update;
      first [ apply frames_set_running | apply frames_set_current_section_index
            | apply frames_set_current_section | apply frames_load_section ]
    | apply related_bind; [| intros ? ]
    | match goal with
      | |- related (if ?b then _ else _) _ => destruct b
      | |- related (match ?x with _ => _ end) _ => destruct x
      end ].

Lemma related_count_in : related (count_in clock1) (count_in clock2).
Proof.
  assert (Ht : related (count_in_tick clock1) (count_in_tick clock2)).
  { unfold count_in_tick. relate. }
  assert (Hr : forall n, related (repeat_M n (count_in_tick clock1))
                                 (repeat_M n (count_in_tick clock2))).
  { induction n; simpl; relate. }
  unfold count_in. relate. apply Hr.
Qed.

Lemma related_loop_body (tc bc : Z) :
  related (loop_body clock1 tc bc) (loop_body clock2 tc bc).
Proof. unfold loop_body, section_check. relate. Qed.

Lemma related_steady_state (n : nat) (tc bc : Z) :
  related (steady_state clock1 n tc bc) (steady_state clock2 n tc bc).
Proof.
  pose proof related_loop_body as Hbody.
  revert tc bc. induction n; intros tc bc; simpl; relate.
Qed.

(** Two runs of [play] that differ only in what the clock answers compute
    the same delays, leave the same object and end the same way. *)
Lemma play_clock_independent (n : nat) :
  related (play clock1 n) (play clock2 n).
Proof.
  unfold play. apply related_bind.
  - apply related_count_in.
  - intros _. apply related_steady_state.
Qed.

End ClockIndependence.

(** *** Uniform delays *)

Section UniformRun.
Context {F : Type} {FO : PyFloat F}.
Implicit Types (m : Metronome F) (w : World F).
Variable clock : nat -> F.

Lemma set_next_tick_time_twice (a b : F) m :
  set_next_tick_time a (set_next_tick_time b m) = set_next_tick_time a m.
Proof. destruct m; reflexivity. Qed.

Lemma next_tick_time_set (a : F) m :
  next_tick_time (set_next_tick_time a m) = a.
Proof. destruct m; reflexivity. Qed.

Lemma set_next_tick_time_same m :
  set_next_tick_time (next_tick_time m) m = m.
Proof. destruct m; reflexivity. Qed.

Lemma steady_settings_set_next_tick_time (a : F) m :
  steady_settings m -> steady_settings (set_next_tick_time a m).
Proof. destruct m; exact (fun H => H). Qed.

Lemma delays_set_next_tick_time (a : F) m :
  nominal_delay (set_next_tick_time a m) = nominal_delay m /\
  beat_delay (set_next_tick_time a m) = beat_delay m /\
  bpm (set_next_tick_time a m) = bpm m /\
  running (set_next_tick_time a m) = running m.
Proof. destruct m; repeat split. Qed.

Lemma timer_expired_off m r tr ds :
  timer_off m ->
  timer_expired clock (mkWorld m r tr ds) = (mkWorld m r tr ds, Ok false).
Proof.
  intros Ht. unfold timer_expired, bind, get_self. simpl.
  unfold timer_off in Ht. rewrite Ht. reflexivity.
Qed.

Lemma section_check_no_section (bc : Z) m r tr ds :
  current_section m = None ->
  section_check bc (mkWorld m r tr ds) = (mkWorld m r tr ds, Ok (Some bc)).
Proof.
  intros Hc. unfold section_check, bind, get_self. simpl. rewrite Hc.
  reflexivity.
Qed.

Lemma handle_tempo_change_steady (bc : Z) m :
  steady_settings m -> _handle_tempo_change bc m = Ok m.
Proof.
  intros (_ & _ & _ & _ & _ & _ & Hup & Hdown & Hp).
  unfold _handle_tempo_change, tempo_change, mode_due.
  destruct (step_and_interval _ _) as [[step interval] |]; [| discriminate].
  simpl. rewrite Hup, Hdown. reflexivity.
Qed.

Lemma calculate_delay_steady (tib : Z) m :
  steady_settings m -> _calculate_delay tib m = Ok (nominal_delay m).
Proof.
  intros (_ & _ & Hb & Hs & _ & Hsw & _).
  unfold _calculate_delay, truediv, nominal_delay. rewrite Hsw.
  assert (Hz : (bpm m * subdivisions m =? 0) = false)
    by (apply Z.eqb_neq; nia).
  now rewrite Hz.
Qed.

Lemma sleep_returns w :
  exists tr', sleep_until_next_tick clock w =
              (mkWorld (self w) (S (clock_reads w)) tr' (delays w), Ok tt).
Proof.
  unfold sleep_until_next_tick, bind, get_self, time_time. simpl.
  destruct (fltb _ _); simpl; eauto.
Qed.

Ltac run_thread :=
  cbv beta iota zeta
      delta [bind get_self lift emit ret update advance call
             self clock_reads trace delays].

(** One pass of the loop under steady settings: it goes on, and has added
    the nominal delay to [next_tick_time]. *)
Lemma loop_body_steady (tc bc : Z) m r tr ds :
  steady_settings m ->
  exists r' tr' bc',
    loop_body clock tc bc (mkWorld m r tr ds) =
    (mkWorld (set_next_tick_time
                (fadd (next_tick_time m) (nominal_delay m)) m)
             r' tr' (ds ++ [nominal_delay m]),
     Ok (Some (tc + 1, bc'))).
Proof.
  intros Hst. pose proof Hst as (Hcs & Htm & Hb & Hsd & Hbpb & _).
  unfold loop_body. unfold bind at 1. rewrite timer_expired_off by exact Htm.
  cbv beta iota. unfold bind at 1.
  rewrite section_check_no_section by exact Hcs.
  run_thread.
  rewrite tick_identity_ok by assumption.
  unfold pymod at 1.
  assert (Hz : (beats_per_bar m * subdivisions m =? 0) = false)
    by (apply Z.eqb_neq; nia).
  rewrite Hz. run_thread.
  destruct (on_beat m); run_thread;
    (destruct ((tc + 1) mod (beats_per_bar m * subdivisions m) =? 0);
     run_thread;
     rewrite ?handle_tempo_change_steady by exact Hst;
     run_thread;
     rewrite calculate_delay_steady by exact Hst;
     run_thread;
     match goal with
     | |- context [sleep_until_next_tick ?c ?w] =>
         destruct (sleep_returns w) as [tr' Hsl]; rewrite Hsl
     end;
     run_thread; eauto).
Qed.

Lemma add_times_succ (n : nat) (d t : F) :
  add_times n d (fadd t d) = add_times (S n) d t.
Proof. unfold add_times. now rewrite Nat.iter_succ_r. Qed.

(** [n] passes under steady settings: the loop is still running and has
    added the nominal delay [n] times. *)
Lemma steady_state_steady (n : nat) (tc bc : Z) m r tr ds :
  steady_settings m -> running m = true ->
  exists r' tr' bc',
    steady_state clock n tc bc (mkWorld m r tr ds) =
    (mkWorld (set_next_tick_time
                (add_times n (nominal_delay m) (next_tick_time m)) m)
             r' tr' (ds ++ List.repeat (nominal_delay m) n),
     Ok (InLoop (tc + Z.of_nat n) bc')).
Proof.
  revert tc bc m r tr ds.
  induction n as [| n IH]; intros tc bc m r tr ds Hst Hr.
  - exists r, tr, bc. simpl. unfold ret, add_times. simpl.
    rewrite set_next_tick_time_same, app_nil_r, Z.add_0_r. reflexivity.
  - destruct (loop_body_steady tc bc m r tr ds Hst) as (r1 & tr1 & bc1 & H1).
    set (m1 := set_next_tick_time
                 (fadd (next_tick_time m) (nominal_delay m)) m) in *.
    destruct (delays_set_next_tick_time
                (fadd (next_tick_time m) (nominal_delay m)) m)
      as (Hnom & _ & _ & Hrun).
    fold m1 in Hnom, Hrun.
    destruct (IH (tc + 1) bc1 m1 r1 tr1 (ds ++ [nominal_delay m])%list)
      as (r' & tr' & bc' & H2).
    { now apply steady_settings_set_next_tick_time. }
    { now rewrite Hrun. }
    exists r', tr', bc'.
    cbn [steady_state]. unfold bind at 1. unfold get_self at 1.
    cbv beta iota. cbn [self]. rewrite Hr. unfold bind at 1. rewrite H1.
    cbv beta iota. rewrite H2. rewrite Hnom. unfold m1.
    rewrite set_next_tick_time_twice, next_tick_time_set, add_times_succ.
    rewrite <- app_assoc. simpl.
    replace (tc + 1 + Z.of_nat n) with (tc + Z.pos (Pos.of_succ_nat n)) by lia.
    reflexivity.
Qed.

Lemma count_in_tick_steady m r tr ds :
  bpm m <> 0 ->
  exists r' tr',
    count_in_tick clock (mkWorld m r tr ds) =
    (mkWorld (set_next_tick_time (fadd (next_tick_time m) (beat_delay m)) m)
             r' tr' (ds ++ [beat_delay m]), Ok tt).
Proof.
  intros Hb. unfold count_in_tick. run_thread. unfold truediv.
  apply Z.eqb_neq in Hb. rewrite Hb. run_thread.
  match goal with
  | |- context [sleep_until_next_tick ?c ?w] =>
      destruct (sleep_returns w) as [tr' Hsl]; rewrite Hsl
  end.
  run_thread. eauto.
Qed.

Lemma repeat_count_in_tick_steady (k : nat) m r tr ds :
  bpm m <> 0 ->
  exists r' tr',
    repeat_M k (count_in_tick clock) (mkWorld m r tr ds) =
    (mkWorld (set_next_tick_time
                (add_times k (beat_delay m) (next_tick_time m)) m)
             r' tr' (ds ++ List.repeat (beat_delay m) k), Ok tt).
Proof.
  revert m r tr ds. induction k as [| k IH]; intros m r tr ds Hb.
  - exists r, tr. simpl. unfold ret, add_times. simpl.
    now rewrite set_next_tick_time_same, app_nil_r.
  - destruct (count_in_tick_steady m r tr ds Hb) as (r1 & tr1 & H1).
    set (m1 := set_next_tick_time
                 (fadd (next_tick_time m) (beat_delay m)) m) in *.
    destruct (delays_set_next_tick_time
                (fadd (next_tick_time m) (beat_delay m)) m)
      as (_ & Hbeat & Hbpm & _).
    fold m1 in Hbeat, Hbpm.
    destruct (IH m1 r1 tr1 (ds ++ [beat_delay m])%list) as (r' & tr' & H2).
    { now rewrite Hbpm. }
    exists r', tr'. cbn [repeat_M]. unfold bind at 1. rewrite H1.
    cbv beta iota. rewrite H2, Hbeat. unfold m1.
    rewrite set_next_tick_time_twice, next_tick_time_set, add_times_succ.
    rewrite <- app_assoc. reflexivity.
Qed.

(** [play] under steady settings, observed for [n] passes. *)
Lemma play_steady (n : nat) m :
  steady_settings m -> running m = true ->
  exists w bc,
    play clock n (spawn m) = (w, Ok (InLoop (Z.of_nat n) bc)) /\
    self w = set_next_tick_time
               (add_times n (nominal_delay m)
                  (add_times (count_in_ticks m) (beat_delay m)
                     (next_tick_time m))) m /\
    delays w = (List.repeat (beat_delay m) (count_in_ticks m) ++
                List.repeat (nominal_delay m) n)%list.
Proof.
  intros Hst Hr. pose proof Hst as (_ & _ & Hb & _).
  assert (Hci : exists r1 tr1,
             count_in clock (spawn m) =
             (mkWorld (set_next_tick_time
                         (add_times (count_in_ticks m) (beat_delay m)
                            (next_tick_time m)) m)
                      r1 tr1 (List.repeat (beat_delay m) (count_in_ticks m)),
              Ok tt)).
  { unfold count_in, spawn, count_in_ticks. run_thread.
    destruct (count_in_enabled m).
    - apply (repeat_count_in_tick_steady _ m 0%nat [] [] Hb).
    - exists 0%nat, []. unfold ret, add_times. simpl.
      now rewrite set_next_tick_time_same. }
  destruct Hci as (r1 & tr1 & H1).
  set (t1 := add_times (count_in_ticks m) (beat_delay m) (next_tick_time m))
    in *.
  destruct (delays_set_next_tick_time t1 m) as (Hnom & _ & _ & Hrun).
  destruct (steady_state_steady n 0 0 (set_next_tick_time t1 m) r1 tr1
              (List.repeat (beat_delay m) (count_in_ticks m)))
    as (r' & tr' & bc' & H2).
  { now apply steady_settings_set_next_tick_time. }
  { now rewrite Hrun. }
  eexists. exists bc'. unfold play. unfold bind at 1. rewrite H1.
  cbv beta iota. rewrite H2. rewrite Z.add_0_l. split; [reflexivity |].
  cbn [self delays].
  rewrite set_next_tick_time_twice, next_tick_time_set, Hnom.
  split; reflexivity.
Qed.

End UniformRun.

(** In exact arithmetic, adding [d] [n] times is adding [n * d]. *)
Lemma add_times_Q (n : nat) (d t : Q) :
  (add_times n d t == t + inject_Z (Z.of_nat n) * d)%Q.
Proof.
  unfold add_times. induction n as [| n IH].
  - simpl. ring.
  - rewrite Nat.iter_succ, IH, Nat2Z.inj_succ. unfold Z.succ.
    rewrite inject_Z_plus. simpl fadd. ring.
Qed.

(** *** Every pass adds the computed delay *)

Section PassSchedule.
Context {F : Type} {FO : PyFloat F}.
Implicit Types (m : Metronome F) (w : World F).
Variable clock : nat -> F.

Lemma calculate_delay_frame (tib : Z) (t : F) m :
  _calculate_delay tib (set_next_tick_time t m) = _calculate_delay tib m.
Proof. destruct m; reflexivity. Qed.

Ltac run_all :=
  cbv beta iota zeta
      delta [bind get_self lift emit ret update advance call time_time
             sleep_until_next_tick timer_expired section_check
             self clock_reads trace delays fst snd].

Lemma count_in_tick_schedule w :
  count_in_schedule w (count_in_tick clock w).
Proof.
  destruct w as [m r tr ds]. unfold count_in_schedule, count_in_tick.
  run_all.
  destruct (truediv 60 (bpm m)) as [d | e]; run_all.
  - match goal with
    | |- context [if fltb ?a ?b then _ else _] => destruct (fltb a b)
    end; run_all;
      (split; [destruct m; reflexivity |]);
      exists d; repeat split; destruct m; reflexivity.
  - repeat split.
Qed.

Lemma tick_identity_inv (tc sub bpb beat tib : Z) (a : bool) :
  tick_identity tc sub bpb = Ok (beat, tib, a) -> tib = (tc - 1) mod sub.
Proof.
  unfold tick_identity, floordiv, pymod.
  destruct (sub =? 0); [discriminate |]. cbn [rbind].
  destruct ((tc - 1) mod sub =? 0); cbn [rbind].
  - destruct (bpb =? 0); [discriminate |]. cbn [rbind]. congruence.
  - congruence.
Qed.

Ltac split_head :=
  match goal with
  | |- context [match ?x with _ => _ end] =>
      lazymatch x with
      | context [match _ with _ => _ end] => fail
      | _ => destruct x eqn:?
      end
  end.

Lemma loop_body_schedule (tc bc : Z) w :
  pass_schedule tc w (loop_body clock tc bc w).
Proof.
  destruct w as [m r tr ds]. unfold pass_schedule, loop_body.
  run_all.
  repeat (split_head; run_all).
  all: repeat match goal with
       | H : _handle_tempo_change _ _ = Ok _ |- _ =>
           apply handle_tempo_change_shape in H as [? ->]
       | H : tick_identity _ _ _ = Ok _ |- _ =>
           apply tick_identity_inv in H
       end.
  all: subst; rewrite ?calculate_delay_frame.
  all: destruct m; cbn -[_calculate_delay Z.modulo Z.add Z.sub] in *.
  all: try (repeat split; reflexivity).
  all: split; [reflexivity |]; split; [reflexivity |]; eexists;
    split; [eassumption |]; split; reflexivity.
Qed.

End PassSchedule.

(** *** The schedule after k ticks does not depend on the clock *)

Section Lockstep.
Context {F : Type} {FO : PyFloat F}.
Implicit Types (m : Metronome F) (w : World F).

Lemma bind_returns {A B} (c : M F A) (k : A -> M F B) w w' a :
  c w = (w', Ok a) -> bind c k w = k a w'.
Proof. intros H. unfold bind. now rewrite H. Qed.

Lemma in_step_refl w : in_step w w.
Proof. split; reflexivity. Qed.

Lemma agree_ret {A} (a : A) : agree (F:=F) (ret a) (ret a).
Proof. intros w1 w2 Hw. split; [exact Hw | reflexivity]. Qed.

Lemma agree_lift {A} (r : result A) : agree (F:=F) (lift r) (lift r).
Proof. intros w1 w2 Hw. split; [exact Hw | reflexivity]. Qed.

Lemma agree_get_self : agree (F:=F) get_self get_self.
Proof.
  intros w1 w2 Hw. split; [exact Hw |]. destruct Hw as [Hs _]. simpl.
  now rewrite Hs.
Qed.

Lemma agree_bind {A B} (c1 c2 : M F A) (k1 k2 : A -> M F B) :
  agree c1 c2 -> (forall a, agree (k1 a) (k2 a)) ->
  agree (bind c1 k1) (bind c2 k2).
Proof.
  intros Hc Hk w1 w2 Hw. unfold bind. destruct (Hc w1 w2 Hw) as [Hw' Hr].
  destruct (c1 w1) as [w1' r1], (c2 w2) as [w2' r2]. simpl in *. subst r2.
  destruct r1 as [a | e]; [apply Hk; exact Hw' | split; [exact Hw' | easy]].
Qed.

Lemma agree_update (f : Metronome F -> Metronome F) :
  agree (update f) (update f).
Proof.
  intros [m1 r1 tr1 ds1] [m2 r2 tr2 ds2] [Hs Hd]. unfold in_step in *.
  simpl in *. subst. auto.
Qed.

Lemma agree_emit (e1 e2 : event F) : agree (emit e1) (emit e2).
Proof.
  intros [m1 r1 tr1 ds1] [m2 r2 tr2 ds2] Hw. split; [exact Hw | reflexivity].
Qed.

Lemma agree_advance (d : F) : agree (advance d) (advance d).
Proof.
  intros [m1 r1 tr1 ds1] [m2 r2 tr2 ds2] [Hs Hd]. unfold in_step in *.
  simpl in *. subst. auto.
Qed.

Lemma agree_call (f : Metronome F -> result (Metronome F)) :
  agree (call f) (call f).
Proof.
  intros [m1 r1 tr1 ds1] [m2 r2 tr2 ds2] [Hs Hd]. unfold in_step in *.
  simpl in *. subst. unfold call, bind, get_self, lift, update. simpl.
  destruct (f m2); simpl; auto.
Qed.

Variables clock1 clock2 : nat -> F.

Lemma agree_sleep :
  agree (sleep_until_next_tick clock1) (sleep_until_next_tick clock2).
Proof.
  intros [m1 r1 tr1 ds1] [m2 r2 tr2 ds2] [Hs Hd]. unfold in_step in *.
  simpl in *. subst.
  unfold sleep_until_next_tick, bind, get_self, time_time. simpl.
  do 2 match goal with
       | |- context [if fltb ?a ?b then _ else _] => destruct (fltb a b)
       end; simpl; auto.
Qed.

Ltac agreeing :=
  repeat first
    [ assumption | progress cbv zeta
    | match goal with H : forall _, agree _ _ |- _ => apply H end
    | apply agree_sleep
    | apply agree_ret | apply agree_lift | apply agree_get_self
    | apply agree_emit | apply agree_advance | apply agree_call
    | apply agree_update
    | apply agree_bind; [| intros ? ]
    | match goal with
      | |- agree (if ?b then _ else _) _ => destruct b
      | |- agree (match ?x with _ => _ end) _ => destruct x
      end ].

Lemma agree_count_in : agree (count_in clock1) (count_in clock2).
Proof.
  assert (Ht : agree (count_in_tick clock1) (count_in_tick clock2)).
  { unfold count_in_tick. agreeing. }
  assert (Hr : forall n, agree (repeat_M n (count_in_tick clock1))
                               (repeat_M n (count_in_tick clock2))).
  { induction n; simpl; agreeing. }
  unfold count_in. agreeing.
Qed.

Lemma agree_section_check (bc : Z) :
  agree (F:=F) (section_check bc) (section_check bc).
Proof. unfold section_check. agreeing. Qed.

(** The timer check reads the clock and answers; it writes nothing but the
    count of clock readings. *)
Lemma timer_expired_shape (clock : nat -> F) m r tr ds :
  exists b r',
    timer_expired clock (mkWorld m r tr ds) = (mkWorld m r' tr ds, Ok b).
Proof.
  unfold timer_expired, bind, get_self, time_time, ret. simpl.
  destruct (fltb _ (timer_duration m)); simpl; eauto.
Qed.

(** Two passes from worlds in step: either they stay in step and end the
    same way, or one of them has left the loop on its timer, before adding
    any delay. *)
Lemma pass_in_step (tc bc : Z) w1 w2 :
  in_step w1 w2 ->
  (in_step (fst (loop_body clock1 tc bc w1)) (fst (loop_body clock2 tc bc w2))
   /\ snd (loop_body clock1 tc bc w1) = snd (loop_body clock2 tc bc w2)) \/
  (snd (loop_body clock1 tc bc w1) = Ok None /\
   delays (fst (loop_body clock1 tc bc w1)) = delays w1) \/
  (snd (loop_body clock2 tc bc w2) = Ok None /\
   delays (fst (loop_body clock2 tc bc w2)) = delays w2).
Proof.
  destruct w1 as [m1 r1 tr1 ds1], w2 as [m2 r2 tr2 ds2].
  intros [Hs Hd]. simpl in Hs, Hd. subst m2 ds2.
  destruct (timer_expired_shape clock1 m1 r1 tr1 ds1) as (b1 & r1' & H1).
  destruct (timer_expired_shape clock2 m1 r2 tr2 ds1) as (b2 & r2' & H2).
  unfold loop_body.
  rewrite (bind_returns _ _ _ _ _ H1), (bind_returns _ _ _ _ _ H2).
  destruct b1; [right; left; split; reflexivity |].
  destruct b2; [right; right; split; reflexivity |].
  left. cbv iota.
  match goal with
  | |- in_step (fst (?c1 ?w1)) (fst (?c2 ?w2)) /\ _ =>
      assert (Ha : agree c1 c2)
  end.
  { pose proof agree_section_check. agreeing. }
  apply Ha. split; reflexivity.
Qed.

End Lockstep.

Section ScheduleByTicks.
Context {F : Type} {FO : PyFloat F}.
Implicit Types (m : Metronome F) (w : World F).

(** The delay history only grows. *)
Lemma delays_grow_steady_state (clock : nat -> F) (n : nat) (tc bc : Z) w :
  delays w `prefix_of` delays (fst (steady_state clock n tc bc w)).
Proof.
  apply (preserves_steady_state (fun w' => delays w `prefix_of` delays w')).
  - intros m r tr ds r' tr' f _ H. exact H.
  - intros d [m r tr ds] H. simpl in *. now apply prefix_app_r.
  - reflexivity.
Qed.

(** The schedule is the initial [next_tick_time] with the delay history
    added in turn, whatever the initial world. *)
Lemma play_accumulates (clock : nat -> F) (n : nat) m :
  next_tick_time (self (fst (play clock n (spawn m)))) =
  fold_left fadd (delays (fst (play clock n (spawn m)))) (next_tick_time m).
Proof.
  apply (preserves_play
           (fun w => next_tick_time (self w)
                     = fold_left fadd (delays w) (next_tick_time m))).
  - intros m' r tr ds r' tr' f Hf H. simpl in *.
    destruct (Hf m') as (_ & Hn & _). now rewrite Hn.
  - intros d [m' r tr ds] H. simpl in *.
    rewrite fold_left_app. simpl. rewrite <- H. now destruct m'.
  - reflexivity.
Qed.

Variables clock1 clock2 : nat -> F.

Lemma steady_state_succ (clock : nat -> F) (n : nat) (tc bc : Z) w :
  steady_state clock (S n) tc bc w =
  if running (self w) then
    match loop_body clock tc bc w with
    | (w', Ok (Some (tc', bc'))) => steady_state clock n tc' bc' w'
    | (w', Ok None) => (w', Ok Exited)
    | (w', Raise e) => (w', Raise e)
    end
  else (w, Ok Exited).
Proof.
  cbn [steady_state]. unfold bind at 1. unfold get_self at 1.
  cbv beta iota. destruct (running (self w)); [| reflexivity].
  unfold bind. destruct (loop_body clock tc bc w) as [w' [[[tc' bc'] |] | e]];
    reflexivity.
Qed.

Lemma steady_state_in_step (n1 n2 : nat) (tc bc : Z) w1 w2 :
  in_step w1 w2 ->
  delays (fst (steady_state clock1 n1 tc bc w1))
    `prefix_of` delays (fst (steady_state clock2 n2 tc bc w2)) \/
  delays (fst (steady_state clock2 n2 tc bc w2))
    `prefix_of` delays (fst (steady_state clock1 n1 tc bc w1)).
Proof.
  revert n2 tc bc w1 w2.
  induction n1 as [| n1 IH]; intros n2 tc bc w1 w2 Hw.
  - left. change (steady_state clock1 0 tc bc w1)
      with (w1, Ok (InLoop tc bc) : result loop_state).
    cbn [fst]. destruct Hw as [_ ->]. apply delays_grow_steady_state.
  - destruct n2 as [| n2].
    + right. change (steady_state clock2 0 tc bc w2)
        with (w2, Ok (InLoop tc bc) : result loop_state).
      cbn [fst]. destruct Hw as [_ <-]. apply delays_grow_steady_state.
    + pose proof (delays_grow_steady_state clock1 (S n1) tc bc w1) as G1.
      pose proof (delays_grow_steady_state clock2 (S n2) tc bc w2) as G2.
      pose proof Hw as [Hs Hd].
      rewrite steady_state_succ in G1, G2 |- *.
      rewrite (steady_state_succ clock2). rewrite <- Hs in *.
      destruct (running (self w1)).
      * destruct (pass_in_step clock1 clock2 tc bc w1 w2 Hw)
          as [[Hw' Hr] | [[Hr Hdel] | [Hr Hdel]]].
        -- destruct (loop_body clock1 tc bc w1) as [w1' o1],
                    (loop_body clock2 tc bc w2) as [w2' o2].
           cbn [fst snd] in *. subst o2.
           destruct o1 as [[[tc' bc'] |] | e]; cbn [fst snd].
           ++ now apply IH.
           ++ left. destruct Hw' as [_ ->]. reflexivity.
           ++ left. destruct Hw' as [_ ->]. reflexivity.
        -- left.
           destruct (loop_body clock1 tc bc w1) as [w1' o1].
           cbn [fst snd] in *. subst o1. cbn [fst snd].
           rewrite Hdel, Hd. exact G2.
        -- right.
           destruct (loop_body clock2 tc bc w2) as [w2' o2].
           cbn [fst snd] in *. subst o2. cbn [fst snd].
           rewrite Hdel, <- Hd. exact G1.
      * left. cbn [fst]. now rewrite Hd.
Qed.

Lemma play_in_step (n1 n2 : nat) m :
  delays (fst (play clock1 n1 (spawn m)))
    `prefix_of` delays (fst (play clock2 n2 (spawn m))) \/
  delays (fst (play clock2 n2 (spawn m)))
    `prefix_of` delays (fst (play clock1 n1 (spawn m))).
Proof.
  unfold play, bind.
  destruct (agree_count_in clock1 clock2 (spawn m) (spawn m)
              (in_step_refl _)) as [Hw Hr].
  destruct (count_in clock1 (spawn m)) as [w1 o1],
           (count_in clock2 (spawn m)) as [w2 o2].
  cbn [fst snd] in *. subst o2. destruct o1 as [[] | e].
  - now apply steady_state_in_step.
  - left. cbn [fst]. destruct Hw as [_ ->]. reflexivity.
Qed.

(** After the same number of ticks, two runs have the same delays and the
    same [next_tick_time], whatever their clocks answered and however many
    passes each was observed for. *)
Lemma schedule_by_ticks (n1 n2 : nat) m :
  length (delays (fst (play clock1 n1 (spawn m))))
    = length (delays (fst (play clock2 n2 (spawn m)))) ->
  delays (fst (play clock1 n1 (spawn m)))
    = delays (fst (play clock2 n2 (spawn m))) /\
  next_tick_time (self (fst (play clock1 n1 (spawn m))))
    = next_tick_time (self (fst (play clock2 n2 (spawn m)))).
Proof.
  intros Hlen.
  assert (Hd : delays (fst (play clock1 n1 (spawn m)))
               = delays (fst (play clock2 n2 (spawn m)))).
  { destruct (play_in_step n1 n2 m) as [Hp | Hp].
    - apply (prefix_length_eq _ _ Hp). lia.
    - symmetry. apply (prefix_length_eq _ _ Hp). lia. }
  split; [exact Hd |].
  rewrite (play_accumulates clock1), (play_accumulates clock2), Hd.
  reflexivity.
Qed.

End ScheduleByTicks.

Lemma start_keeps_settings {F : Type} {FO : PyFloat F}
    (arg : option F) (now : F) (m : Metronome F) :
  running m = false ->
  (steady_settings m -> steady_settings (start arg now m)) /\
  running (start arg now m) = true /\
  next_tick_time (start arg now m) = start_time (start arg now m) /\
  bpm (start arg now m) = bpm m /\
  subdivisions (start arg now m) = subdivisions m /\
  count_in_ticks (start arg now m) = count_in_ticks m.
Proof.
  intros Hr. unfold start. rewrite Hr. destruct m; simpl.
  split; [exact (fun H => H) | repeat split].
Qed.

(** C2. (1) In any arithmetic, for any clock, any settings and any number of
    observed passes, however the run ends: after [start] and [play],
    [start_time] is what [start] set and [next_tick_time] is [start_time]
    with the delays computed so far (count-in ticks and steady-state ticks)
    added one after the other. (2) For every pass of the loop and every
    count-in tick, with or without a timer, whatever the clock answers: a
    tick adds to [next_tick_time] exactly the delay computed for it
    ([_calculate_delay] for the tick, [60/bpm] in the count-in), which is
    the one entry it adds to the delay history; a pass that leaves the loop
    or raises leaves the schedule as it was; the clock reading never enters
    [next_tick_time]. (3) So after the same number of ticks two runs have
    the same delays and the same [next_tick_time], whatever their clocks
    answered, with or without a timer: the jitter does not accumulate.
    (4) With no timer set, two runs that differ only in the answers of the
    clock leave the same object and end the same way. (5) In exact
    arithmetic and under steady settings the loop is still running after
    any [k] passes, has computed one delay per tick, and [next_tick_time]
    is [start_time] plus the count-in ticks times [60/bpm] plus [k] times
    the nominal delay [60/(bpm*subdivisions)]; without count-in that is
    [start_time + k * nominal_delay]. *)
Theorem drift_free_schedule :
  (forall (F : Type) (FO : PyFloat F) (clock : nat -> F) (arg : option F)
          (now : F) (m0 : Metronome F) (n : nat),
     running m0 = false ->
     let m := start arg now m0 in
     let w := fst (play clock n (spawn m)) in
     start_time (self w) = start_time m /\
     next_tick_time (self w) = fold_left fadd (delays w) (start_time m)) /\
  (forall (F : Type) (FO : PyFloat F) (clock : nat -> F) (tc bc : Z)
          (w : World F),
     pass_schedule tc w (loop_body clock tc bc w) /\
     count_in_schedule w (count_in_tick clock w)) /\
  (forall (F : Type) (FO : PyFloat F) (clock1 clock2 : nat -> F)
          (m : Metronome F) (n1 n2 : nat),
     let w1 := fst (play clock1 n1 (spawn m)) in
     let w2 := fst (play clock2 n2 (spawn m)) in
     length (delays w1) = length (delays w2) ->
     delays w1 = delays w2 /\
     next_tick_time (self w1) = next_tick_time (self w2)) /\
  (forall (F : Type) (FO : PyFloat F) (clock1 clock2 : nat -> F)
          (m : Metronome F) (n : nat),
     timer_off m ->
     let out1 := play clock1 n (spawn m) in
     let out2 := play clock2 n (spawn m) in
     snd out1 = snd out2 /\
     delays (fst out1) = delays (fst out2) /\
     self (fst out1) = self (fst out2)) /\
  (forall (clock : nat -> Q) (arg : option Q) (now : Q) (m0 : Metronome Q)
          (k : nat),
     running m0 = false -> steady_settings m0 ->
     let m := start arg now m0 in
     exists w bc,
       play clock k (spawn m) = (w, Ok (InLoop (Z.of_nat k) bc)) /\
       length (delays w) = (count_in_ticks m0 + k)%nat /\
       (next_tick_time (self w) ==
        start_time m
        + inject_Z (Z.of_nat (count_in_ticks m0)) * (60 / inject_Z (bpm m0))
        + inject_Z (Z.of_nat k)
          * (60 / inject_Z (bpm m0 * subdivisions m0)))%Q /\
       (count_in_enabled m0 = false ->
        (next_tick_time (self w) ==
         start_time m
         + inject_Z (Z.of_nat k)
           * (60 / inject_Z (bpm m0 * subdivisions m0)))%Q)).
Proof.
  split; [| split; [| split; [| split]]].
  - intros F FO clock arg now m0 n Hr m w.
    destruct (start_keeps_settings arg now m0 Hr) as (_ & _ & Hnt & _).
    apply (play_on_schedule clock n (start_time m) (spawn m)).
    split; [reflexivity | exact Hnt].
  - intros F FO clock tc bc w. split.
    + apply loop_body_schedule.
    + apply count_in_tick_schedule.
  - intros F FO clock1 clock2 m n1 n2 w1 w2.
    apply schedule_by_ticks.
  - intros F FO clock1 clock2 m n Ht out1 out2.
    destruct (play_clock_independent clock1 clock2 n (spawn m) (spawn m))
      as [(Hs & Hd & _) Hr].
    { repeat split. exact Ht. }
    auto.
  - intros clock arg now m0 k Hr Hst m.
    destruct (start_keeps_settings arg now m0 Hr)
      as (Hst' & Hrun & Hnt & Hbpm & Hsub & Hci).
    destruct (play_steady clock k m (Hst' Hst) Hrun)
      as (w & bc & Hplay & Hself & Hdel).
    fold m in Hnt, Hbpm, Hsub, Hci.
    assert (Hnext : (next_tick_time (self w) ==
              start_time m
              + inject_Z (Z.of_nat (count_in_ticks m0))
                * (60 / inject_Z (bpm m0))
              + inject_Z (Z.of_nat k)
                * (60 / inject_Z (bpm m0 * subdivisions m0)))%Q).
    { rewrite Hself, next_tick_time_set, !add_times_Q, Hnt, Hci.
      unfold nominal_delay, beat_delay. rewrite Hbpm, Hsub. reflexivity. }
    exists w, bc. split; [exact Hplay |]. split; [| split].
    + rewrite Hdel, length_app, !repeat_length, Hci. reflexivity.
    + exact Hnext.
    + intros Hoff. rewrite Hnext. unfold count_in_ticks. rewrite Hoff.
      simpl. ring.
Qed.

Lemma drift_free_schedule_witness :
  let m := start None 5%Q (set_count_in_enabled false (@init Q _)) in
  exists w bc,
    play (fun n => 5 + inject_Z (Z.of_nat n) * (3 # 1000))%Q 1000 (spawn m)
      = (w, Ok (InLoop 1000 bc)) /\
    (next_tick_time (self w) == 5 + 1000 * (60 / 120))%Q.
Proof.
  destruct (proj2 (proj2 (proj2 (proj2 drift_free_schedule)))
              (fun n => 5 + inject_Z (Z.of_nat n) * (3 # 1000))%Q None 5%Q
              (set_count_in_enabled false (@init Q _)) 1000%nat eq_refl)
    as (w & bc & Hplay & _ & _ & Hnext).
  { repeat split; try reflexivity; discriminate. }
  exists w, bc. split; [exact Hplay |]. exact (Hnext eq_refl).
Defined.

(** * Further properties *)

(** ** Section dictionaries *)

Lemma to_dict_lookup_other (s : SongSection) (k : string) :
  k <> "name" -> k <> "bars" -> k <> "bpm" -> k <> "beats_per_bar" ->
  k <> "subdivisions" -> k <> "swing_enabled" ->
  to_dict s !! k = None.
Proof. intros. unfold to_dict. by simplify_map_eq. Qed.

Lemma from_dict_inv (d : gmap string pyval) (s : SongSection) :
  from_dict d = Ok s -> to_dict s ⊆ d /\ post_init s = Ok s.
Proof.
  unfold from_dict, getitem. intros H.
  destruct (d !! "name") as [[| n | |] |] eqn:H1; try discriminate H.
  destruct (d !! "bars") as [[b | | |] |] eqn:H2; try discriminate H.
  destruct (d !! "bpm") as [[t | | |] |] eqn:H3; try discriminate H.
  destruct (d !! "beats_per_bar") as [[bpb | | |] |] eqn:H4;
    try discriminate H.
  destruct (d !! "subdivisions") as [[sub | | |] |] eqn:H5;
    try discriminate H.
  destruct (d !! "swing_enabled") as [[| | sw |] |] eqn:H6;
    try discriminate H.
  simpl in H. unfold new_SongSection in H.
  pose proof (post_init_inv _ _ H) as ->. split.
  - unfold to_dict. simpl.
    repeat (apply insert_subseteq_l; [assumption |]).
    apply map_empty_subseteq.
  - exact H.
Qed.

Lemma le_zero_validated {F : Type} {FO : PyFloat F} (v : Dynamic.value F) :
  Dynamic.le_zero v = Ok false <-> Dynamic.validated v.
Proof.
  destruct v as [z | x | s | [|] | | l | d]; simpl;
    try (split; [discriminate | contradiction]).
  - destruct (Z.leb_spec z 0); split; intros H';
      try discriminate; try reflexivity; lia.
  - split; [now intros [= ->] | now intros ->].
  - split; reflexivity.
  - split; discriminate.
Qed.

Lemma dynamic_from_dict_inv {F : Type} {FO : PyFloat F}
    (d : gmap string (Dynamic.value F)) (s : Dynamic.SongSection F) :
  Dynamic.from_dict d = Ok s ->
  Dynamic.to_dict s ⊆ d /\
  Dynamic.le_zero (Dynamic.bars s) = Ok false /\
  Dynamic.le_zero (Dynamic.bpm s) = Ok false /\
  Dynamic.le_zero (Dynamic.beats_per_bar s) = Ok false /\
  Dynamic.le_zero (Dynamic.subdivisions s) = Ok false.
Proof.
  unfold Dynamic.from_dict, Dynamic.getitem. intros H.
  destruct (d !! "name") as [n |] eqn:H1; [| discriminate H].
  destruct (d !! "bars") as [b |] eqn:H2; [| discriminate H].
  destruct (d !! "bpm") as [t |] eqn:H3; [| discriminate H].
  destruct (d !! "beats_per_bar") as [bpb |] eqn:H4; [| discriminate H].
  destruct (d !! "subdivisions") as [sub |] eqn:H5; [| discriminate H].
  destruct (d !! "swing_enabled") as [sw |] eqn:H6; [| discriminate H].
  cbn [rbind] in H.
  unfold Dynamic.new_SongSection, Dynamic.post_init in H.
  cbn [Dynamic.bars Dynamic.bpm Dynamic.beats_per_bar Dynamic.subdivisions]
    in H.
  destruct (Dynamic.le_zero b) as [[|] |] eqn:Hb; try discriminate H.
  destruct (Dynamic.le_zero t) as [[|] |] eqn:Ht; try discriminate H.
  destruct (Dynamic.le_zero bpb) as [[|] |] eqn:Hbpb; try discriminate H.
  destruct (Dynamic.le_zero sub) as [[|] |] eqn:Hsub; try discriminate H.
  cbn [rbind] in H. injection H as <-.
  unfold Dynamic.to_dict. cbn.
  split; [| repeat split; assumption].
  repeat (apply insert_subseteq_l; [assumption |]).
  apply map_empty_subseteq.
Qed.

(** Where the typed [from_dict] does not answer [TypeError], its answer is
    the one of the class on stored values: the same section, the same
    [KeyError], the same [ValueError]. *)
Lemma from_dict_agrees {F : Type} {FO : PyFloat F} (d : gmap string pyval) :
  from_dict d <> Raise TypeError ->
  Dynamic.from_dict (of_pyval <$> d)
  = result_map (of_section (F := F)) (from_dict d).
Proof.
  unfold Dynamic.from_dict, Dynamic.getitem, from_dict, getitem.
  rewrite !lookup_fmap. intros H.
  destruct (d !! "name") as [[| n | |] |];
    try reflexivity; try (now destruct H).
  destruct (d !! "bars") as [[b | | |] |];
    try reflexivity; try (now destruct H).
  destruct (d !! "bpm") as [[t | | |] |];
    try reflexivity; try (now destruct H).
  destruct (d !! "beats_per_bar") as [[bpb | | |] |];
    try reflexivity; try (now destruct H).
  destruct (d !! "subdivisions") as [[sub | | |] |];
    try reflexivity; try (now destruct H).
  destruct (d !! "swing_enabled") as [[| | sw |] |];
    try reflexivity; try (now destruct H).
  cbn. unfold Dynamic.new_SongSection, Dynamic.post_init, new_SongSection,
    post_init. cbn.
  destruct (b <=? 0); [reflexivity |].
  destruct (t <=? 0); [reflexivity |].
  destruct (bpb <=? 0); [reflexivity |].
  destruct (sub <=? 0); reflexivity.
Qed.

(** X1. What [from_dict] returns it has read from the dictionary and
    validated. (1) On the values Python stores, for every dictionary: the
    dictionary of the returned section is contained in the input (the six
    keys are there, and their values were stored as they are, whatever
    their type), and each of [bars], [bpm], [beats_per_bar] and
    [subdivisions] got past its check [<= 0]: it is a positive [int],
    [True], or a [float] for which [<= 0] is false (as it is for a NaN); a
    section never holds a [str], [None], a [list] or a [dict] there.
    (2) Where the typed [from_dict] does not answer [TypeError], it answers
    as the class on stored values does. (3) So for the typed [from_dict]:
    the dictionary of the returned section is contained in the input and
    the four numbers are positive. *)
Theorem from_dict_sound :
  (forall (F : Type) (FO : PyFloat F) (d : gmap string (Dynamic.value F))
          (s : Dynamic.SongSection F),
     Dynamic.from_dict d = Ok s ->
     Dynamic.to_dict s ⊆ d /\
     Dynamic.validated (Dynamic.bars s) /\
     Dynamic.validated (Dynamic.bpm s) /\
     Dynamic.validated (Dynamic.beats_per_bar s) /\
     Dynamic.validated (Dynamic.subdivisions s)) /\
  (forall (F : Type) (FO : PyFloat F) (d : gmap string pyval),
     from_dict d <> Raise TypeError ->
     Dynamic.from_dict (of_pyval <$> d)
     = result_map (of_section (F := F)) (from_dict d)) /\
  (forall (d : gmap string pyval) (s : SongSection),
     from_dict d = Ok s ->
     to_dict s ⊆ d /\
     0 < bars s /\ 0 < sec_bpm s /\ 0 < sec_beats_per_bar s /\
     0 < sec_subdivisions s).
Proof.
  split; [| split].
  - intros F FO d s H.
    apply dynamic_from_dict_inv in H as (Hsub & H1 & H2 & H3 & H4).
    rewrite <- !le_zero_validated. auto.
  - intros F FO d. apply from_dict_agrees.
  - intros d s H. apply from_dict_inv in H as [Hsub Hv].
    split; [exact Hsub | now apply post_init_ok].
Qed.

Lemma from_dict_sound_witness :
  let d : gmap string (Dynamic.value Q) :=
    <["name" := Dynamic.Int 7]>
    (<["bars" := Dynamic.Bool true]>
    (<["bpm" := Dynamic.Int 90]>
    (<["beats_per_bar" := Dynamic.Float (7 # 2)]>
    (<["subdivisions" := Dynamic.Int 1]>
    (<["swing_enabled" := Dynamic.NoneValue]>
    (<["comment" := Dynamic.List []]> ∅)))))) in
  let s := Dynamic.mkSongSection (Dynamic.Int 7) (Dynamic.Bool true)
             (Dynamic.Int 90) (Dynamic.Float (7 # 2)) (Dynamic.Int 1)
             Dynamic.NoneValue in
  Dynamic.from_dict d = Ok s /\
  Dynamic.to_dict s ⊆ d /\ Dynamic.validated (Dynamic.bars s).
Proof.
  intros d s.
  assert (H : Dynamic.from_dict d = Ok s) by (vm_compute; reflexivity).
  split; [exact H |].
  destruct (proj1 from_dict_sound Q _ d s H) as (Hsub & Hb & _).
  split; [exact Hsub | exact Hb].
Defined.

(** X2. [from_dict] reads six keys and no other: a dictionary that differs in
    another key gives the same outcome. *)
Theorem from_dict_ignores_other_keys
    (d : gmap string pyval) (k : string) (v : pyval) :
  k <> "name" -> k <> "bars" -> k <> "bpm" -> k <> "beats_per_bar" ->
  k <> "subdivisions" -> k <> "swing_enabled" ->
  from_dict (<[k := v]> d) = from_dict d /\
  from_dict (delete k d) = from_dict d.
Proof.
  intros. unfold from_dict, getitem.
  rewrite !lookup_insert_ne, !lookup_delete_ne by congruence. done.
Qed.

Lemma from_dict_ignores_other_keys_witness :
  from_dict (<["colour" := VStr "red"]>
               (to_dict (mkSongSection "intro" 2 90 3 1 false))) =
  from_dict (to_dict (mkSongSection "intro" 2 90 3 1 false)).
Proof.
  apply (proj1 (from_dict_ignores_other_keys
                  (to_dict (mkSongSection "intro" 2 90 3 1 false))
                  "colour" (VStr "red")
                  ltac:(discriminate) ltac:(discriminate) ltac:(discriminate)
                  ltac:(discriminate) ltac:(discriminate)
                  ltac:(discriminate))).
Defined.

(** X3. A missing key makes [from_dict] raise [KeyError] with the first missing
    key, in the order name, bars, bpm, beats_per_bar, subdivisions,
    swing_enabled, provided the keys before it hold values of their
    types. *)
Theorem from_dict_missing_key (d : gmap string pyval) :
  (d !! "name" = None -> from_dict d = Raise (KeyError "name")) /\
  (forall n, d !! "name" = Some (VStr n) -> d !! "bars" = None ->
             from_dict d = Raise (KeyError "bars")) /\
  (forall n b, d !! "name" = Some (VStr n) -> d !! "bars" = Some (VInt b) ->
               d !! "bpm" = None -> from_dict d = Raise (KeyError "bpm")) /\
  (forall k, In k ["name"; "bars"; "bpm"; "beats_per_bar"; "subdivisions";
                   "swing_enabled"] ->
             d !! k = None -> is_ok (from_dict d) = false).
Proof.
  repeat split.
  - intros H. unfold from_dict, getitem. now rewrite H.
  - intros n H1 H2. unfold from_dict, getitem. now rewrite H1, H2.
  - intros n b H1 H2 H3. unfold from_dict, getitem. now rewrite H1, H2, H3.
  - intros k Hk Hd. destruct (from_dict d) as [s |] eqn:Hf; [| reflexivity].
    apply from_dict_inv in Hf as [Hsub _].
    assert (Hs : is_Some (to_dict s !! k)).
    { destruct (getitem_to_dict s) as (G1 & G2 & G3 & G4 & G5 & G6).
      unfold getitem in *. simpl in Hk.
      destruct Hk as [<- | [<- | [<- | [<- | [<- | [<- | []]]]]]];
        match goal with
        | |- is_Some (?m !! ?key) => destruct (m !! key); [eauto | discriminate]
        end. }
    destruct Hs as [x Hx].
    pose proof (lookup_weaken _ _ _ _ Hx Hsub) as Hd'. congruence.
Qed.

Lemma from_dict_missing_key_witness :
  from_dict (delete "bpm" (to_dict (mkSongSection "intro" 2 90 3 1 false))) =
  Raise (KeyError "bpm").
Proof.
  refine (proj1 (proj2 (proj2 (from_dict_missing_key _))) "intro" 2 _ _ _);
    vm_compute; reflexivity.
Defined.

(** ** Songs *)

Lemma from_dict_to_dict_valid (s : SongSection) :
  post_init s = Ok s -> from_dict (to_dict s) = Ok s.
Proof.
  intros Hs.
  destruct (getitem_to_dict s) as (H1 & H2 & H3 & H4 & H5 & H6).
  unfold from_dict. rewrite H1, H2, H3, H4, H5, H6. simpl.
  unfold new_SongSection. now destruct s.
Qed.

Lemma comprehension_from_dict_to_dict (secs : list SongSection) :
  Forall (fun s => post_init s = Ok s) secs ->
  comprehension from_dict (map to_dict secs) = Ok secs.
Proof.
  induction 1 as [| s secs Hs _ IH]; simpl; [reflexivity |].
  rewrite (from_dict_to_dict_valid s Hs). simpl.
  rewrite IH. reflexivity.
Qed.

Lemma comprehension_from_dict_sound (l : list (gmap string pyval))
    (secs : list SongSection) :
  comprehension from_dict l = Ok secs ->
  Forall2 (fun s d => to_dict s ⊆ d /\ post_init s = Ok s) secs l.
Proof.
  revert secs. induction l as [| d l IH]; simpl; intros secs H.
  - inversion H. constructor.
  - destruct (from_dict d) as [s |] eqn:Hd; [| discriminate].
    simpl in H.
    destruct (comprehension from_dict l) as [ss |]; [| discriminate].
    inversion H; subst. constructor; [| now apply IH].
    now apply from_dict_inv in Hd.
Qed.

(** X4. A song whose name is not empty and whose sections are all as their
    constructor leaves them comes back unchanged from its dictionary. *)
Theorem Song_from_dict_to_dict (s : Song) :
  song_name s <> "" ->
  Forall (fun x => post_init x = Ok x) (song_sections s) ->
  Song_from_dict (Song_to_dict s) = Ok s.
Proof.
  intros Hn Hs. unfold Song_from_dict, Song_to_dict, song_getitem.
  rewrite lookup_insert_eq. simpl.
  rewrite lookup_insert_ne by discriminate. rewrite lookup_insert_eq. simpl.
  rewrite (comprehension_from_dict_to_dict _ Hs). simpl.
  unfold new_Song, Song_post_init. simpl.
  apply String.eqb_neq in Hn. rewrite Hn. now destruct s.
Qed.

Lemma Song_from_dict_to_dict_witness :
  let s := mkSong "blues"
             [mkSongSection "head" 12 96 4 2 true;
              mkSongSection "solo" 24 96 4 2 true] in
  Song_from_dict (Song_to_dict s) = Ok s.
Proof.
  apply Song_from_dict_to_dict.
  - discriminate.
  - repeat constructor.
Defined.

(** X5. What [Song.from_dict] returns has a name that is not empty and sections
    that all passed the section validation, read in order from the
    dictionary; the song constructor itself accepts any section list, the
    empty one included. *)
Theorem Song_from_dict_sound (d : gmap string song_val) (s : Song) :
  Song_from_dict d = Ok s ->
  d !! "name" = Some (SVStr (song_name s)) /\
  song_name s <> "" /\
  exists l, d !! "sections" = Some (SVSections l) /\
            Forall2 (fun x dx => to_dict x ⊆ dx /\ post_init x = Ok x)
                    (song_sections s) l.
Proof.
  unfold Song_from_dict, song_getitem. intros H.
  destruct (d !! "name") as [[n |] |] eqn:H1; try discriminate H.
  destruct (d !! "sections") as [[| l] |] eqn:H2; try discriminate H.
  simpl in H.
  destruct (comprehension from_dict l) as [secs |] eqn:Hc;
    [| discriminate H].
  simpl in H. unfold new_Song, Song_post_init in H. simpl in H.
  destruct (String.eqb n "") eqn:Hn; [discriminate H |].
  inversion H; subst; simpl. apply String.eqb_neq in Hn.
  split; [reflexivity |]. split; [exact Hn |].
  exists l. split; [reflexivity |]. now apply comprehension_from_dict_sound.
Qed.

Lemma Song_from_dict_sound_witness :
  song_name (mkSong "blues" [mkSongSection "head" 12 96 4 2 true]) <> "".
Proof.
  refine (proj1 (proj2 (Song_from_dict_sound
            (Song_to_dict (mkSong "blues"
                             [mkSongSection "head" 12 96 4 2 true])) _ _))).
  vm_compute. reflexivity.
Defined.

(** ** File names and directory listings *)

Lemma list_ascii_of_string_app (a b : string) :
  list_ascii_of_string (a ++ b) =
  (list_ascii_of_string a ++ list_ascii_of_string b)%list.
Proof. induction a as [| c a IH]; simpl; [reflexivity | now rewrite IH]. Qed.

Lemma list_ascii_of_string_inj (a b : string) :
  list_ascii_of_string a = list_ascii_of_string b -> a = b.
Proof.
  intros H. rewrite <- (string_of_list_ascii_of_string a),
              <- (string_of_list_ascii_of_string b). now rewrite H.
Qed.

Lemma endswith_iff (s suffix : string) :
  endswith s suffix = true <-> exists p, s = p ++ suffix.
Proof.
  unfold endswith. rewrite bool_decide_eq_true. split.
  - intros [k Hk]. exists (string_of_list_ascii k).
    apply list_ascii_of_string_inj.
    now rewrite list_ascii_of_string_app, list_ascii_of_string_of_list_ascii.
  - intros [p ->]. exists (list_ascii_of_string p).
    apply list_ascii_of_string_app.
Qed.

Lemma drop_last_app (p suffix : string) :
  drop_last (String.length suffix) (p ++ suffix) = p.
Proof.
  unfold drop_last. rewrite list_ascii_of_string_app, length_app.
  assert (Hl : length (list_ascii_of_string suffix) = String.length suffix).
  { induction suffix; simpl; congruence. }
  rewrite Hl.
  replace (length (list_ascii_of_string p) + String.length suffix
           - String.length suffix)%nat
    with (length (list_ascii_of_string p)) by lia.
  rewrite take_app_length. apply string_of_list_ascii_of_string.
Qed.

(** X6. The file name the song manager works with always ends in [.json];
    giving the name with or without the extension, or normalising it twice,
    leads to the same file, so [load_song] finds what [save_song] wrote
    under either spelling. *)
Theorem with_json_extension_stable (filename : string) :
  endswith (with_json_extension filename) ".json" = true /\
  with_json_extension (with_json_extension filename) =
    with_json_extension filename /\
  (endswith filename ".json" = false ->
   with_json_extension (filename ++ ".json") = with_json_extension filename).
Proof.
  assert (Hadd : forall f, endswith (f ++ ".json") ".json" = true).
  { intros f. apply endswith_iff. now exists f. }
  assert (H1 : endswith (with_json_extension filename) ".json" = true).
  { unfold with_json_extension.
    destruct (endswith filename ".json") eqn:He; simpl; [exact He | apply Hadd]. }
  split; [exact H1 |]. split.
  - unfold with_json_extension at 1. now rewrite H1.
  - intros He. unfold with_json_extension. now rewrite Hadd, He.
Qed.

Lemma with_json_extension_stable_witness :
  with_json_extension ("waltz" ++ ".json") = with_json_extension "waltz".
Proof.
  apply (proj2 (proj2 (with_json_extension_stable "waltz"))).
  vm_compute. reflexivity.
Defined.

(** X7. The setlist names listed are exactly the names [name] with a file
    [name.json] in the directory, which is the file [save_setlist] writes
    for a setlist of that name; they come in ascending order, one per such
    file. *)
Theorem get_setlist_files_spec (listing : list string) :
  (forall n, n ∈ get_setlist_files listing <-> (n ++ ".json") ∈ listing) /\
  StronglySorted String.le (get_setlist_files listing) /\
  length (get_setlist_files listing) = length (get_song_files listing).
Proof.
  unfold get_setlist_files, get_song_files, sorted. split; [| split].
  - intros n. rewrite merge_sort_Permutation. split.
    + intros (f & -> & Hf)%list_elem_of_fmap.
      apply list_elem_of_filter in Hf as [He Hin].
      apply endswith_iff in He as [p ->].
      now rewrite (drop_last_app p ".json" : drop_last 5 (p ++ ".json") = p).
    + intros Hin. apply list_elem_of_fmap.
      exists (n ++ ".json"). split.
      * symmetry. apply (drop_last_app n ".json").
      * apply list_elem_of_filter. split; [| exact Hin].
        apply endswith_iff. now exists n.
  - apply StronglySorted_merge_sort; apply _.
  - rewrite merge_sort_Permutation. apply length_map.
Qed.

(** X8. The samples offered are exactly the [.wav] files of the directory, in
    ascending order, each as often as it is listed. *)
Theorem get_available_samples_spec (listing : list string) :
  (forall f, f ∈ get_available_samples listing <->
             f ∈ listing /\ endswith f ".wav" = true) /\
  StronglySorted String.le (get_available_samples listing) /\
  get_available_samples listing
    ≡ₚ filter (fun f => endswith f ".wav" = true) listing.
Proof.
  unfold get_available_samples, sorted. split; [| split].
  - intros f. rewrite merge_sort_Permutation, list_elem_of_filter. tauto.
  - apply StronglySorted_merge_sort; apply _.
  - apply merge_sort_Permutation.
Qed.

(** ** Setlists *)

Section SetlistProperties.
Context {F : Type}.
Implicit Types (sl : Setlist F) (e : SetlistEntry F).

Lemma index_in_range_iff (index : Z) sl :
  index_in_range index sl = true <->
  0 <= index /\ (Z.to_nat index < length (entries sl))%nat.
Proof.
  unfold index_in_range. rewrite andb_true_iff, Z.leb_le, Z.ltb_lt. lia.
Qed.

(** X9. [remove_entry] with an index out of range, negative ones included,
    changes nothing; with an index in range it removes the entry at that
    position and no other: the entries before keep their places, the
    entries after move up by one. *)
Theorem remove_entry_spec (index : Z) sl :
  (index < 0 \/ Z.of_nat (length (entries sl)) <= index ->
   remove_entry index sl = sl) /\
  (0 <= index < Z.of_nat (length (entries sl)) ->
   setlist_name (remove_entry index sl) = setlist_name sl /\
   length (entries (remove_entry index sl)) = (length (entries sl) - 1)%nat /\
   (forall i, (i < Z.to_nat index)%nat ->
              entries (remove_entry index sl) !! i = entries sl !! i) /\
   (forall i, (Z.to_nat index <= i)%nat ->
              entries (remove_entry index sl) !! i = entries sl !! S i)).
Proof.
  unfold remove_entry. split.
  - intros Hout. destruct (index_in_range index sl) eqn:Hr; [| reflexivity].
    apply index_in_range_iff in Hr. lia.
  - intros Hin.
    assert (Hr : index_in_range index sl = true)
      by (apply index_in_range_iff; lia).
    rewrite Hr. simpl. repeat split.
    + rewrite length_delete; [reflexivity |].
      apply lookup_lt_is_Some. lia.
    + intros i Hi. now apply list_lookup_delete_lt.
    + intros i Hi. now apply list_lookup_delete_ge.
Qed.

Lemma list_insert_at_lookup {A} (j : nat) (x : A) (l : list A) :
  (j <= length l)%nat -> list_insert_at j x l !! j = Some x.
Proof.
  intros Hj. unfold list_insert_at. apply list_lookup_middle.
  rewrite length_take. lia.
Qed.

Lemma list_insert_at_Permutation {A} (j : nat) (x : A) (l : list A) :
  list_insert_at j x l ≡ₚ x :: l.
Proof.
  unfold list_insert_at. rewrite <- Permutation_middle.
  now rewrite take_drop.
Qed.

Lemma delete_list_insert_at {A} (j : nat) (x : A) (l : list A) :
  (j <= length l)%nat -> delete j (list_insert_at j x l) = l.
Proof.
  intros Hj. unfold list_insert_at.
  assert (Hlen : length (take j l) = j) by (rewrite length_take; lia).
  rewrite <- Hlen at 1. rewrite delete_middle. apply take_drop.
Qed.

Lemma list_insert_at_delete {A} (i : nat) (x : A) (l : list A) :
  l !! i = Some x -> list_insert_at i x (delete i l) = l.
Proof.
  intros Hx. unfold list_insert_at.
  pose proof (lookup_lt_Some _ _ _ Hx) as Hlt.
  assert (Hlen : length (take i l) = i) by (rewrite length_take; lia).
  rewrite delete_take_drop.
  rewrite take_app_length', drop_app_length' by (symmetry; exact Hlen).
  now apply take_drop_middle.
Qed.

Lemma move_entry_in_range (from_index to_index : Z) sl :
  0 <= from_index < Z.of_nat (length (entries sl)) ->
  0 <= to_index < Z.of_nat (length (entries sl)) ->
  exists x,
    entries sl !! Z.to_nat from_index = Some x /\
    move_entry from_index to_index sl =
    mkSetlist (setlist_name sl)
      (list_insert_at (Z.to_nat to_index) x
         (delete (Z.to_nat from_index) (entries sl))).
Proof.
  intros Hf Ht. unfold move_entry.
  assert (Hrf : index_in_range from_index sl = true)
    by (apply index_in_range_iff; lia).
  assert (Hrt : index_in_range to_index sl = true)
    by (apply index_in_range_iff; lia).
  rewrite Hrf, Hrt. simpl.
  destruct (entries sl !! Z.to_nat from_index) as [x |] eqn:Hx.
  - exists x. split; reflexivity.
  - apply lookup_ge_None in Hx. lia.
Qed.

(** X10. [move_entry] with either index out of range changes nothing. With both
    in range the setlist keeps its name, its length and its entries (the
    new order is a permutation of the old), and the entry that was at
    [from_index] is at [to_index]. *)
Theorem move_entry_spec (from_index to_index : Z) sl :
  (index_in_range from_index sl && index_in_range to_index sl = false ->
   move_entry from_index to_index sl = sl) /\
  (0 <= from_index < Z.of_nat (length (entries sl)) ->
   0 <= to_index < Z.of_nat (length (entries sl)) ->
   setlist_name (move_entry from_index to_index sl) = setlist_name sl /\
   entries (move_entry from_index to_index sl) ≡ₚ entries sl /\
   length (entries (move_entry from_index to_index sl))
     = length (entries sl) /\
   entries (move_entry from_index to_index sl) !! Z.to_nat to_index
     = entries sl !! Z.to_nat from_index).
Proof.
  split.
  - unfold move_entry. intros ->. reflexivity.
  - intros Hf Ht.
    destruct (move_entry_in_range from_index to_index sl Hf Ht)
      as (x & Hx & ->).
    cbn [setlist_name entries].
    assert (Hp : list_insert_at (Z.to_nat to_index) x
                   (delete (Z.to_nat from_index) (entries sl))
                 ≡ₚ entries sl).
    { rewrite list_insert_at_Permutation. symmetry.
      now apply delete_Permutation. }
    split; [reflexivity |]. split; [exact Hp |]. split.
    + now rewrite Hp.
    + rewrite Hx. apply list_insert_at_lookup.
      rewrite length_delete by eauto. lia.
Qed.

(** X11. Moving an entry and moving it back restores the setlist. *)
Theorem move_entry_back (from_index to_index : Z) sl :
  0 <= from_index < Z.of_nat (length (entries sl)) ->
  0 <= to_index < Z.of_nat (length (entries sl)) ->
  move_entry to_index from_index (move_entry from_index to_index sl) = sl.
Proof.
  intros Hf Ht.
  destruct (move_entry_in_range from_index to_index sl Hf Ht)
    as (x & Hx & H1).
  pose proof (lookup_lt_Some _ _ _ Hx) as Hlt.
  assert (Hlen : length (list_insert_at (Z.to_nat to_index) x
                           (delete (Z.to_nat from_index) (entries sl)))
                 = length (entries sl)).
  { rewrite list_insert_at_Permutation. cbn [length].
    rewrite length_delete by eauto. lia. }
  rewrite H1.
  destruct (move_entry_in_range to_index from_index
              (mkSetlist (setlist_name sl)
                 (list_insert_at (Z.to_nat to_index) x
                    (delete (Z.to_nat from_index) (entries sl)))))
    as (y & Hy & H2).
  { cbn [entries]. rewrite Hlen. exact Ht. }
  { cbn [entries]. rewrite Hlen. exact Hf. }
  rewrite H2. cbn [entries setlist_name] in *.
  rewrite list_insert_at_lookup in Hy
    by (rewrite length_delete by eauto; lia).
  inversion Hy; subst y.
  rewrite delete_list_insert_at
    by (rewrite length_delete by eauto; lia).
  rewrite (list_insert_at_delete _ _ _ Hx). now destruct sl.
Qed.

(** X12. [add_entry] puts the song last and keeps what was there; removing the
    entry at the old length afterwards restores the setlist. *)
Theorem add_entry_last (song : Song) (delay : F) sl :
  entries (add_entry song delay sl) !! length (entries sl)
    = Some (mkSetlistEntry song delay) /\
  (forall i e, entries sl !! i = Some e ->
               entries (add_entry song delay sl) !! i = Some e) /\
  remove_entry (Z.of_nat (length (entries sl))) (add_entry song delay sl)
    = sl.
Proof.
  unfold add_entry. simpl. repeat split.
  - apply list_lookup_middle. reflexivity.
  - intros i e He. now apply lookup_app_l_Some.
  - unfold remove_entry, index_in_range. simpl. rewrite length_app. simpl.
    assert (H1 : (0 <=? Z.of_nat (length (entries sl))) = true)
      by (apply Z.leb_le; lia).
    assert (H2 : (Z.of_nat (length (entries sl))
                  <? Z.of_nat (length (entries sl) + 1)) = true)
      by (apply Z.ltb_lt; lia).
    rewrite H1, H2. simpl. rewrite Nat2Z.id, delete_middle, app_nil_r.
    now destruct sl.
Qed.

Lemma load_entries_to_dict (load_song : string -> result Song)
    (es : list (SetlistEntry F)) sl :
  Forall (fun e => load_song (song_name (entry_song e)) = Ok (entry_song e))
         es ->
  load_entries load_song (map entry_to_dict es) sl =
  Ok (mkSetlist (setlist_name sl) (entries sl ++ es)).
Proof.
  intros Hes. revert sl. induction Hes as [| e es He _ IH]; intros sl; simpl.
  - rewrite app_nil_r. now destruct sl.
  - unfold entry_getitem, entry_to_dict.
    rewrite lookup_insert_eq. simpl. rewrite He. simpl.
    rewrite lookup_insert_ne by discriminate. rewrite lookup_insert_eq. simpl.
    rewrite IH. unfold add_entry. simpl. rewrite <- app_assoc. simpl.
    now destruct e.
Qed.

(** X13. A setlist dictionary keeps only the name of each song. [from_dict]
    gives the setlist back when the song manager answers, for the name of
    each entry's song, that very song. *)
Theorem Setlist_from_dict_to_dict (load_song : string -> result Song) sl :
  Forall (fun e => load_song (song_name (entry_song e)) = Ok (entry_song e))
         (entries sl) ->
  Setlist_from_dict (Setlist_to_dict sl) load_song = Ok sl.
Proof.
  intros Hes. unfold Setlist_from_dict, Setlist_to_dict, setlist_getitem.
  rewrite lookup_insert_eq. simpl.
  rewrite lookup_insert_ne by discriminate. rewrite lookup_insert_eq. simpl.
  rewrite (load_entries_to_dict load_song _ _ Hes). simpl. now destruct sl.
Qed.

Lemma load_entries_failure (load_song : string -> result Song)
    (es1 es2 : list (SetlistEntry F)) e (ex : exn) sl :
  Forall (fun e => is_ok (load_song (song_name (entry_song e))) = true) es1 ->
  load_song (song_name (entry_song e)) = Raise ex ->
  load_entries load_song (map entry_to_dict (es1 ++ e :: es2)) sl = Raise ex.
Proof.
  intros Hes He. revert sl. induction Hes as [| e1 es1 H1 _ IH]; intros sl.
  - simpl. unfold entry_getitem, entry_to_dict.
    rewrite lookup_insert_eq. simpl. now rewrite He.
  - simpl. unfold entry_getitem, entry_to_dict.
    rewrite lookup_insert_eq. simpl.
    destruct (load_song (song_name (entry_song e1))) as [s1 |];
      [| discriminate].
    simpl. rewrite lookup_insert_ne by discriminate.
    rewrite lookup_insert_eq. simpl. apply IH.
Qed.

(** X14. When the song of some entry cannot be loaded, and those before it can,
    [from_dict] raises what the song manager raised: no shortened setlist
    is returned. *)
Theorem Setlist_from_dict_load_failure (load_song : string -> result Song)
    (es1 es2 : list (SetlistEntry F)) e (ex : exn) (n : string) :
  Forall (fun e => is_ok (load_song (song_name (entry_song e))) = true) es1 ->
  load_song (song_name (entry_song e)) = Raise ex ->
  Setlist_from_dict (Setlist_to_dict (mkSetlist n (es1 ++ e :: es2)))
    load_song = Raise ex.
Proof.
  intros Hes He. unfold Setlist_from_dict, Setlist_to_dict, setlist_getitem.
  rewrite lookup_insert_eq. simpl.
  rewrite lookup_insert_ne by discriminate. rewrite lookup_insert_eq. simpl.
  now apply load_entries_failure.
Qed.

End SetlistProperties.

Lemma remove_entry_spec_witness :
  let e := fun n => mkSetlistEntry (mkSong n []) 0%Q in
  entries (remove_entry 1 (mkSetlist "gig" [e "a"; e "b"; e "c"])) !! 1%nat
  = Some (e "c").
Proof.
  intros e.
  apply (proj2 (proj2 (proj2 (proj2 (remove_entry_spec 1
           (mkSetlist "gig" [e "a"; e "b"; e "c"])) ltac:(simpl; lia))))
           1%nat).
  simpl. lia.
Defined.

Lemma move_entry_spec_witness :
  let e := fun n => mkSetlistEntry (mkSong n []) 0%Q in
  entries (move_entry 0 2 (mkSetlist "gig" [e "a"; e "b"; e "c"])) !! 2%nat
  = Some (e "a").
Proof.
  intros e.
  apply (proj2 (proj2 (proj2 (proj2 (move_entry_spec 0 2
           (mkSetlist "gig" [e "a"; e "b"; e "c"])) ltac:(simpl; lia)
           ltac:(simpl; lia))))).
Defined.

Lemma move_entry_back_witness :
  let e := fun n => mkSetlistEntry (mkSong n []) 0%Q in
  move_entry 2 0 (move_entry 0 2 (mkSetlist "gig" [e "a"; e "b"; e "c"]))
  = mkSetlist "gig" [e "a"; e "b"; e "c"].
Proof.
  intros e.
  apply (move_entry_back 0 2 (mkSetlist "gig" [e "a"; e "b"; e "c"]));
    simpl; lia.
Defined.

Lemma add_entry_last_witness :
  let e := fun n => mkSetlistEntry (mkSong n []) 0%Q in
  entries (add_entry (mkSong "c" []) 0%Q (mkSetlist "gig" [e "a"; e "b"]))
    !! 0%nat = Some (e "a").
Proof.
  intros e.
  apply (proj1 (proj2 (add_entry_last (mkSong "c" []) 0%Q
                         (mkSetlist "gig" [e "a"; e "b"])))).
  reflexivity.
Defined.

Lemma get_setlist_files_spec_witness :
  "gig" ∈ get_setlist_files ["notes.txt"; "gig.json"; "club.json"].
Proof.
  apply (proj1 (get_setlist_files_spec
                  ["notes.txt"; "gig.json"; "club.json"])).
  vm_compute. apply list_elem_of_In. right. left. reflexivity.
Defined.

Lemma get_available_samples_spec_witness :
  "kick-808.wav" ∈ get_available_samples ["readme.md"; "kick-808.wav"].
Proof.
  apply (proj1 (get_available_samples_spec ["readme.md"; "kick-808.wav"])).
  split.
  - apply list_elem_of_In. right. left. reflexivity.
  - vm_compute. reflexivity.
Defined.

Lemma Setlist_from_dict_to_dict_witness :
  let blues := mkSong "blues" [mkSongSection "head" 12 96 4 2 true] in
  let load := fun n => if String.eqb n "blues" then Ok blues
                       else Raise (KeyError n) in
  let sl := mkSetlist "gig" [mkSetlistEntry blues 5%Q;
                             mkSetlistEntry blues 0%Q] in
  Setlist_from_dict (Setlist_to_dict sl) load = Ok sl.
Proof.
  intros blues load sl. apply Setlist_from_dict_to_dict.
  repeat constructor.
Defined.

Lemma Setlist_from_dict_load_failure_witness :
  let blues := mkSong "blues" [mkSongSection "head" 12 96 4 2 true] in
  let lost := mkSong "lost" [] in
  let load := fun n => if String.eqb n "blues" then Ok blues
                       else Raise (KeyError n) in
  Setlist_from_dict
    (Setlist_to_dict (mkSetlist "gig" ([mkSetlistEntry blues 5%Q]
                                       ++ mkSetlistEntry lost 0%Q :: [])))
    load = Raise (KeyError "lost").
Proof.
  intros blues lost load.
  apply (Setlist_from_dict_load_failure load
           [mkSetlistEntry blues 5%Q] [] (mkSetlistEntry lost 0%Q)).
  - repeat constructor.
  - reflexivity.
Defined.

(** ** Stop and restart *)

Section StopStart.
Context {F : Type} {FO : PyFloat F}.
Implicit Types m : Metronome F.

(** X15. [stop] leaves the metronome idle: flag cleared, no thread, no sections,
    index 0; stopping twice is stopping once. The live tempo and meter are
    not touched, so after a song flow they stay those of the section that
    was playing. *)
Theorem stop_spec m :
  (running (stop m) = false /\ thread (stop m) = None /\
   current_section_index (stop m) = 0%nat /\
   current_section (stop m) = None /\ sections (stop m) = []) /\
  stop (stop m) = stop m /\
  (bpm (stop m) = bpm m /\ beats_per_bar (stop m) = beats_per_bar m /\
   subdivisions (stop m) = subdivisions m /\
   swing_enabled (stop m) = swing_enabled m /\
   threads_created (stop m) = threads_created m).
Proof.
  unfold stop. destruct m as [[th |] ? ? ? ? ? ? ? ? ? ? ? ? ? ? ? ? ? ?];
    simpl; repeat split.
Qed.

(** X16. After [stop], starting a sequence is a fresh start, whatever was
    playing before: a new thread is created, the flag is set, the sequence
    is at its first section with that section's tempo and meter loaded, and
    the schedule starts at the clock reading. *)
Theorem start_song_flow_after_stop
    (s0 : SongSection) (rest : list SongSection) (now : F) m :
  exists m',
    start_song_flow (s0 :: rest) now (stop m) = Ok m' /\
    running m' = true /\
    thread m' = Some (threads_created m) /\
    threads_created m' = S (threads_created m) /\
    at_section (s0 :: rest) 0 s0 m' /\
    swing_enabled m' = sec_swing_enabled s0 /\
    start_time m' = now /\ next_tick_time m' = now.
Proof.
  eexists. split; [reflexivity |].
  unfold at_section, stop, start.
  destruct m as [[th |] ? ? ? ? ? ? ? ? ? ? ? ? ? ? ? ? ? ?];
    simpl; repeat split.
Qed.

(** X17. [start_song_flow] does not stop a running metronome: with the flag set
    it replaces the section list and loads the first section under the
    running loop, and leaves the thread and the schedule as they are. *)
Theorem start_song_flow_while_running
    (s0 : SongSection) (rest : list SongSection) (now : F) m :
  running m = true ->
  exists m',
    start_song_flow (s0 :: rest) now m = Ok m' /\
    at_section (s0 :: rest) 0 s0 m' /\
    thread m' = thread m /\ threads_created m' = threads_created m /\
    start_time m' = start_time m /\ next_tick_time m' = next_tick_time m.
Proof.
  intros Hr. eexists. split; [reflexivity |].
  unfold at_section, start. destruct m; simpl in *. subst. simpl.
  repeat split.
Qed.

(** X18. The tap-tempo write is a clamp: a tempo in bounds is written as it is,
    one below is written as [MIN_BPM], one above as [MAX_BPM], and writing
    back what was written changes nothing. *)
Theorem tap_tempo_write_clamps (tapped : Z) m :
  (in_bpm_bounds tapped -> bpm (tap_tempo_write tapped m) = tapped) /\
  (tapped < MIN_BPM -> bpm (tap_tempo_write tapped m) = MIN_BPM) /\
  (MAX_BPM < tapped -> bpm (tap_tempo_write tapped m) = MAX_BPM) /\
  tap_tempo_write (bpm (tap_tempo_write tapped m)) (tap_tempo_write tapped m)
    = tap_tempo_write tapped m.
Proof.
  unfold tap_tempo_write, in_bpm_bounds, MIN_BPM, MAX_BPM.
  rewrite !bpm_set_bpm. repeat split; try lia.
  destruct m; simpl. f_equal. lia.
Qed.

End StopStart.

Lemma start_song_flow_while_running_witness :
  let s := mkSongSection "verse" 8 90 3 2 false in
  exists m',
    start_song_flow [s] 9%Q (start None 7%Q (@init Q _)) = Ok m' /\
    bpm m' = 90 /\ start_time m' = 7%Q.
Proof.
  intros s.
  destruct (start_song_flow_while_running s [] 9%Q
              (start None 7%Q (@init Q _)) eq_refl)
    as (m' & H & (_ & _ & _ & Hb & _) & _ & _ & Hs & _).
  exists m'. repeat split; assumption.
Defined.

Lemma tap_tempo_write_clamps_witness :
  bpm (tap_tempo_write 300 (@init Q _)) = MAX_BPM.
Proof.
  apply (proj1 (proj2 (proj2 (tap_tempo_write_clamps 300 (@init Q _))))).
  reflexivity.
Defined.

(** ** The tempo ramp *)

Lemma div_succ (t p : Z) :
  0 <= t -> 0 < p ->
  (t + 1) / p = t / p + (if (t + 1) mod p =? 0 then 1 else 0).
Proof.
  intros Ht Hp.
  pose proof (Z.div_mod t p ltac:(lia)) as Ht'.
  pose proof (Z.mod_pos_bound t p Hp) as Hr.
  pose proof (Z.div_mod (t + 1) p ltac:(lia)) as Ht1.
  pose proof (Z.mod_pos_bound (t + 1) p Hp) as Hr1.
  destruct (Z.eqb_spec ((t + 1) mod p) 0) as [Hz | Hz]; nia.
Qed.

Section Ramp.
Context {F : Type} {FO : PyFloat F}.
Implicit Types m : Metronome F.

Lemma set_bpm_twice (a b : Z) m : set_bpm a (set_bpm b m) = set_bpm a m.
Proof. destruct m; reflexivity. Qed.

(** X19. Over the bar boundaries 1, 2, ..., n, with a step that is not negative
    and a positive interval, "Speed Up" raises a bpm that is not above
    [MAX_BPM] by one step every [interval] bars until it stops at
    [MAX_BPM], and "Slow Down" lowers a bpm that is not below [MIN_BPM] by
    one step every [interval] bars until it stops at [MIN_BPM]; nothing
    else changes. *)
Theorem tempo_ramp (n : nat) (step interval : Z) m :
  tempo_change_step m = VInt step ->
  tempo_change_interval m = VInt interval ->
  0 <= step -> 0 < interval ->
  (tempo_change_mode m = "Speed Up" -> bpm m <= MAX_BPM ->
   after_bars n m =
   Ok (set_bpm (Z.min MAX_BPM (bpm m + step * (Z.of_nat n / interval))) m)) /\
  (tempo_change_mode m = "Slow Down" -> MIN_BPM <= bpm m ->
   after_bars n m =
   Ok (set_bpm (Z.max MIN_BPM (bpm m - step * (Z.of_nat n / interval))) m)).
Proof.
  intros Hs Hi Hstep Hint.
  assert (Hp : forall v, step_and_interval (tempo_change_step (set_bpm v m))
                           (tempo_change_interval (set_bpm v m))
                         = Ok (step, interval)).
  { intros v. destruct m; simpl in *. subst. reflexivity. }
  assert (Hmode : forall v, tempo_change_mode (set_bpm v m)
                            = tempo_change_mode m).
  { intros v. destruct m; reflexivity. }
  split; intros Hm Hb.
  - induction n as [| n IH].
    + simpl. rewrite Z.div_0_l by lia. rewrite Z.mul_0_r, Z.add_0_r.
      rewrite Z.min_r by exact Hb. now rewrite set_bpm_same.
    + cbn [after_bars]. rewrite IH. cbn [rbind].
      rewrite (handle_tempo_change_parsed _ _ step interval (Hp _))
        by lia.
      rewrite set_bpm_twice, bpm_set_bpm, Hmode, Hm. f_equal. f_equal.
      unfold changed_bpm. cbn [String.eqb Ascii.eqb Bool.eqb andb].
      rewrite Nat2Z.inj_succ. unfold Z.succ.
      rewrite (div_succ (Z.of_nat n) interval) by lia.
      destruct ((Z.of_nat n + 1) mod interval =? 0); lia.
  - induction n as [| n IH].
    + simpl. rewrite Z.div_0_l by lia. rewrite Z.mul_0_r, Z.sub_0_r.
      rewrite Z.max_r by exact Hb. now rewrite set_bpm_same.
    + cbn [after_bars]. rewrite IH. cbn [rbind].
      rewrite (handle_tempo_change_parsed _ _ step interval (Hp _))
        by lia.
      rewrite set_bpm_twice, bpm_set_bpm, Hmode, Hm. f_equal. f_equal.
      unfold changed_bpm. cbn [String.eqb Ascii.eqb Bool.eqb andb].
      rewrite Nat2Z.inj_succ. unfold Z.succ.
      rewrite (div_succ (Z.of_nat n) interval) by lia.
      destruct ((Z.of_nat n + 1) mod interval =? 0); lia.
Qed.

End Ramp.

Lemma tempo_ramp_witness :
  after_bars 200 (set_tempo_change_mode "Speed Up" (@init Q _)) =
  Ok (set_bpm 250 (set_tempo_change_mode "Speed Up" (@init Q _))).
Proof.
  apply (proj1 (tempo_ramp 200 5 4
                  (set_tempo_change_mode "Speed Up" (@init Q _))
                  eq_refl eq_refl ltac:(lia) ltac:(lia)) eq_refl).
  vm_compute. discriminate.
Defined.

(** ** What the loop plays *)

Section Passes.
Context {F : Type} {FO : PyFloat F}.
Implicit Types (m : Metronome F) (w : World F).
Variable clock : nat -> F.

Lemma samples_of_app (tr1 tr2 : list (event F)) :
  samples_of (tr1 ++ tr2) = (samples_of tr1 ++ samples_of tr2)%list.
Proof. apply flat_map_app. Qed.

Lemma beats_of_app (tr1 tr2 : list (event F)) :
  beats_of (tr1 ++ tr2) = (beats_of tr1 ++ beats_of tr2)%list.
Proof. apply flat_map_app. Qed.

Lemma ticks_from_succ (tc : Z) (n : nat) :
  ticks_from tc (S n) = (tc + 1) :: ticks_from (tc + 1) n.
Proof.
  unfold ticks_from. cbn [seq map]. f_equal.
  rewrite <- seq_shift, map_map. apply map_ext. intros i. lia.
Qed.

(** The sleep plays no sample and calls no callback. *)
Lemma sleep_quiet w :
  exists tr', sleep_until_next_tick clock w =
              (mkWorld (self w) (S (clock_reads w)) tr' (delays w), Ok tt) /\
              samples_of tr' = samples_of (trace w) /\
              beats_of tr' = beats_of (trace w).
Proof.
  unfold sleep_until_next_tick, bind, get_self, time_time. simpl.
  destruct (fltb _ _); simpl.
  - eexists. split; [reflexivity |].
    rewrite samples_of_app, beats_of_app. simpl. now rewrite !app_nil_r.
  - eauto.
Qed.

Lemma handle_tempo_change_quiet (bc : Z) m :
  quiet_settings m -> _handle_tempo_change bc m = Ok m.
Proof.
  intros (_ & _ & _ & _ & Hup & Hdown & Hp).
  unfold _handle_tempo_change, tempo_change, mode_due.
  destruct (step_and_interval _ _) as [[step interval] |]; [| discriminate].
  simpl. rewrite Hup, Hdown. reflexivity.
Qed.

Lemma calculate_delay_returns (tib : Z) m :
  bpm m <> 0 -> subdivisions m <> 0 ->
  exists d, _calculate_delay tib m = Ok d.
Proof.
  intros Hb Hs. unfold _calculate_delay, truediv.
  assert (Hz : (bpm m * subdivisions m =? 0) = false)
    by (apply Z.eqb_neq; nia).
  apply Z.eqb_neq in Hb. rewrite Hb, Hz.
  destruct (swing_enabled m && (subdivisions m =? 2)); simpl; eauto.
Qed.

Lemma expected_sample_ok (tc sub bpb : Z) :
  sub <> 0 -> bpb <> 0 ->
  exists beat tib a,
    tick_identity tc sub bpb = Ok (beat, tib, a) /\
    tib = (tc - 1) mod sub /\
    a = accent_at tc sub bpb /\
    expected_sample tc sub bpb
      = (if a then AccentedSample else RegularSample).
Proof.
  intros Hs Hb. unfold expected_sample, accent_at.
  rewrite tick_identity_ok by assumption. eauto 7.
Qed.

Ltac run_pass :=
  cbv beta iota zeta
      delta [bind get_self lift emit ret update advance call
             self clock_reads trace delays].

(** A pass of the loop that gets past the timer check and whose section
    check leaves it with object [m1] and bar count [bc1]: under quiet
    settings it plays the sample of its tick, calls the callback if one is
    registered, counts the bar if the tick ends one, and adds one delay,
    the one [_calculate_delay] returns for the tick. *)
Lemma loop_body_tick (tc bc bc1 : Z) m m1 r tr ds :
  timer_off m ->
  section_check bc (mkWorld m r tr ds) = (mkWorld m1 r tr ds, Ok (Some bc1)) ->
  quiet_settings m1 ->
  exists r' tr' d,
    loop_body clock tc bc (mkWorld m r tr ds) =
    (mkWorld (set_next_tick_time (fadd (next_tick_time m1) d) m1)
             r' tr' (ds ++ [d]),
     Ok (Some (tc + 1,
               if (tc + 1) mod (beats_per_bar m1 * subdivisions m1) =? 0
               then bc1 + 1 else bc1))) /\
    samples_of tr' =
      (samples_of tr
       ++ [expected_sample (tc + 1) (subdivisions m1) (beats_per_bar m1)])%list
    /\
    beats_of tr' =
      (beats_of tr
       ++ (if on_beat m1
           then [accent_at (tc + 1) (subdivisions m1) (beats_per_bar m1)]
           else []))%list /\
    _calculate_delay ((tc + 1 - 1) mod subdivisions m1) m1 = Ok d.
Proof.
  intros Htm Hcheck Hq. pose proof Hq as (_ & Hb & Hsd & Hbpb & _).
  unfold loop_body. unfold bind at 1. rewrite timer_expired_off by exact Htm.
  cbv beta iota. unfold bind at 1. rewrite Hcheck.
  run_pass.
  destruct (expected_sample_ok (tc + 1) (subdivisions m1) (beats_per_bar m1)
              Hsd Hbpb) as (beat & tib & a & Hid & Htib & Ha & Hsample).
  rewrite Hid, Hsample, <- Ha. clear Hid Hsample Ha.
  unfold pymod at 1.
  assert (Hz : (beats_per_bar m1 * subdivisions m1 =? 0) = false)
    by (apply Z.eqb_neq; nia).
  rewrite Hz. run_pass.
  destruct (calculate_delay_returns tib m1 Hb Hsd) as [d Hd].
  destruct (on_beat m1); run_pass;
    (destruct ((tc + 1) mod (beats_per_bar m1 * subdivisions m1) =? 0);
     run_pass;
     rewrite ?handle_tempo_change_quiet by exact Hq;
     run_pass;
     rewrite Hd;
     run_pass;
     match goal with
     | |- context [sleep_until_next_tick ?c ?w] =>
         destruct (sleep_quiet w) as (tr' & Hsl & Hsam & Hbeat);
         rewrite Hsl
     end;
     run_pass;
     exists (S r), tr', d;
     (split; [reflexivity |]);
     rewrite Hsam, Hbeat; cbn [trace];
     rewrite ?samples_of_app, ?beats_of_app; simpl;
     rewrite ?app_nil_r, <- ?app_assoc;
     (split; [reflexivity | split; [reflexivity |]]);
     rewrite <- Htib; exact Hd).
Qed.

Lemma quiet_settings_set_next_tick_time (t : F) m :
  quiet_settings m -> quiet_settings (set_next_tick_time t m).
Proof. destruct m; exact (fun H => H). Qed.

Lemma fields_set_next_tick_time (t : F) m :
  bpm (set_next_tick_time t m) = bpm m /\
  subdivisions (set_next_tick_time t m) = subdivisions m /\
  beats_per_bar (set_next_tick_time t m) = beats_per_bar m /\
  on_beat (set_next_tick_time t m) = on_beat m /\
  current_section (set_next_tick_time t m) = current_section m /\
  running (set_next_tick_time t m) = running m /\
  timer_off (set_next_tick_time t m) = timer_off m.
Proof. destruct m; repeat split. Qed.

Lemma section_check_within (bc : Z) (s : SongSection) m r tr ds :
  current_section m = Some s -> bc < bars s ->
  section_check bc (mkWorld m r tr ds) = (mkWorld m r tr ds, Ok (Some bc)).
Proof.
  intros Hc Hlt. unfold section_check, bind, get_self. simpl. rewrite Hc.
  apply Z.leb_gt in Hlt. now rewrite Hlt.
Qed.

(** One count-in tick: the count-in sample, no callback, one delay of
    [60/bpm]. *)
Lemma count_in_tick_plays m r tr ds :
  bpm m <> 0 ->
  exists r' tr',
    count_in_tick clock (mkWorld m r tr ds) =
    (mkWorld (set_next_tick_time (fadd (next_tick_time m) (beat_delay m)) m)
             r' tr' (ds ++ [beat_delay m]), Ok tt) /\
    samples_of tr' = (samples_of tr ++ [CountInSample])%list /\
    beats_of tr' = beats_of tr.
Proof.
  intros Hb. unfold count_in_tick. run_pass. unfold truediv.
  apply Z.eqb_neq in Hb. rewrite Hb. run_pass.
  match goal with
  | |- context [sleep_until_next_tick ?c ?w] =>
      destruct (sleep_quiet w) as (tr' & Hsl & Hsam & Hbeat); rewrite Hsl
  end.
  run_pass. exists (S r), tr'. split; [reflexivity |].
  rewrite Hsam, Hbeat. cbn [trace]. rewrite samples_of_app, beats_of_app.
  simpl. now rewrite app_nil_r.
Qed.

Lemma repeat_snoc {A} (x : A) (n : nat) :
  (List.repeat x n ++ [x])%list = x :: List.repeat x n.
Proof. induction n; simpl; [reflexivity | now rewrite IHn]. Qed.

Lemma repeat_count_in_tick_plays (k : nat) m r tr ds :
  bpm m <> 0 ->
  exists r' tr' t,
    repeat_M k (count_in_tick clock) (mkWorld m r tr ds) =
    (mkWorld (set_next_tick_time t m) r' tr'
             (ds ++ List.repeat (beat_delay m) k), Ok tt) /\
    samples_of tr' = (samples_of tr ++ List.repeat CountInSample k)%list /\
    beats_of tr' = beats_of tr.
Proof.
  revert m r tr ds. induction k as [| k IH]; intros m r tr ds Hb.
  - exists r, tr, (next_tick_time m). simpl. unfold ret.
    now rewrite set_next_tick_time_same, !app_nil_r.
  - destruct (count_in_tick_plays m r tr ds Hb)
      as (r1 & tr1 & H1 & Hs1 & Hb1).
    set (m1 := set_next_tick_time
                 (fadd (next_tick_time m) (beat_delay m)) m) in *.
    destruct (delays_set_next_tick_time
                (fadd (next_tick_time m) (beat_delay m)) m)
      as (_ & Hbeat & Hbpm & _).
    fold m1 in Hbeat, Hbpm.
    destruct (IH m1 r1 tr1 (ds ++ [beat_delay m])%list)
      as (r' & tr' & t & H2 & Hs2 & Hb2).
    { now rewrite Hbpm. }
    exists r', tr', t. cbn [repeat_M]. unfold bind at 1. rewrite H1.
    cbv beta iota. rewrite H2, Hbeat. unfold m1.
    rewrite set_next_tick_time_twice, <- app_assoc.
    split; [reflexivity |].
    rewrite Hs2, Hs1, Hb2, Hb1, <- app_assoc. simpl. split; reflexivity.
Qed.

(** The count-in phase from the start of the thread. *)
Lemma count_in_plays m :
  bpm m <> 0 ->
  exists r' tr' t,
    count_in clock (spawn m) =
    (mkWorld (set_next_tick_time t m) r' tr'
             (List.repeat (beat_delay m) (count_in_ticks m)), Ok tt) /\
    samples_of tr' = List.repeat CountInSample (count_in_ticks m) /\
    beats_of tr' = [].
Proof.
  intros Hb. unfold count_in, spawn, count_in_ticks. run_pass.
  destruct (count_in_enabled m).
  - apply (repeat_count_in_tick_plays _ m 0%nat [] [] Hb).
  - exists 0%nat, [], (next_tick_time m). unfold ret.
    now rewrite set_next_tick_time_same.
Qed.

(** [n] passes without a section sequence under quiet settings. *)
Lemma steady_state_plays (n : nat) (tc bc : Z) m r tr ds :
  quiet_settings m -> current_section m = None -> running m = true ->
  exists w bc',
    steady_state clock n tc bc (mkWorld m r tr ds) =
      (w, Ok (InLoop (tc + Z.of_nat n) bc')) /\
    (exists t, self w = set_next_tick_time t m) /\
    length (delays w) = (length ds + n)%nat /\
    samples_of (trace w) =
      (samples_of tr
       ++ map (fun i => expected_sample i (subdivisions m) (beats_per_bar m))
              (ticks_from tc n))%list /\
    beats_of (trace w) =
      (beats_of tr
       ++ (if on_beat m
           then map (fun i => accent_at i (subdivisions m) (beats_per_bar m))
                    (ticks_from tc n)
           else []))%list.
Proof.
  revert tc bc m r tr ds.
  induction n as [| n IH]; intros tc bc m r tr ds Hq Hc Hr.
  - exists (mkWorld m r tr ds), bc. simpl. unfold ret.
    rewrite Z.add_0_r, !app_nil_r, Nat.add_0_r. repeat split.
    + exists (next_tick_time m). now rewrite set_next_tick_time_same.
    + now destruct (on_beat m); rewrite ?app_nil_r.
  - pose proof Hq as (Htm & _).
    destruct (loop_body_tick tc bc bc m m r tr ds Htm
                (section_check_no_section bc m r tr ds Hc) Hq)
      as (r1 & tr1 & d & H1 & Hs1 & Hb1 & _).
    set (m1 := set_next_tick_time (fadd (next_tick_time m) d) m) in *.
    destruct (fields_set_next_tick_time (fadd (next_tick_time m) d) m)
      as (_ & Hsub & Hbpb & Hob & Hcs & Hrun & _).
    fold m1 in Hsub, Hbpb, Hob, Hcs, Hrun.
    match type of H1 with
    | _ = (_, Ok (Some (_, ?b))) => set (bc1 := b) in *
    end.
    destruct (IH (tc + 1) bc1 m1 r1 tr1 (ds ++ [d])%list)
      as (w & bc' & H2 & (t & Ht) & Hlen & Hs2 & Hb2).
    { now apply quiet_settings_set_next_tick_time. }
    { now rewrite Hcs. }
    { now rewrite Hrun. }
    exists w, bc'.
    cbn [steady_state]. unfold bind at 1. unfold get_self at 1.
    cbv beta iota. cbn [self]. rewrite Hr. unfold bind at 1. rewrite H1.
    cbv beta iota. rewrite H2.
    replace (tc + 1 + Z.of_nat n) with (tc + Z.of_nat (S n)) by lia.
    split; [reflexivity |]. split; [| split; [| split]].
    + exists t. rewrite Ht. unfold m1. apply set_next_tick_time_twice.
    + rewrite Hlen, length_app. simpl. lia.
    + rewrite Hs2, Hs1, Hsub, Hbpb, ticks_from_succ, <- app_assoc.
      reflexivity.
    + rewrite Hb2, Hb1, Hsub, Hbpb, Hob, ticks_from_succ, <- app_assoc.
      now destruct (on_beat m).
Qed.

(** X20. Without a section sequence and under quiet settings (swing allowed),
    [play] observed for [k] passes is still in its loop and has played, in
    this order: the count-in sample once per count-in tick, then for the
    ticks 1, ..., [k] the accented sample on the ticks that start a bar and
    the regular sample on the others, one sample and one delay per tick.
    The beat callback, if one is registered, was called once per
    steady-state tick, with the accent flag of the tick, and never during
    the count-in. *)
Theorem play_plays (k : nat) m :
  quiet_settings m -> current_section m = None -> running m = true ->
  exists w bc,
    play clock k (spawn m) = (w, Ok (InLoop (Z.of_nat k) bc)) /\
    samples_of (trace w) =
      (List.repeat CountInSample (count_in_ticks m)
       ++ map (fun i => expected_sample i (subdivisions m) (beats_per_bar m))
              (ticks_from 0 k))%list /\
    beats_of (trace w) =
      (if on_beat m
       then map (fun i => accent_at i (subdivisions m) (beats_per_bar m))
                (ticks_from 0 k)
       else []) /\
    length (delays w) = (count_in_ticks m + k)%nat.
Proof.
  intros Hq Hc Hr. pose proof Hq as (_ & Hb & _).
  destruct (count_in_plays m Hb) as (r1 & tr1 & t1 & H1 & Hs1 & Hb1).
  destruct (fields_set_next_tick_time t1 m)
    as (_ & Hsub & Hbpb & Hob & Hcs & Hrun & _).
  destruct (steady_state_plays k 0 0 (set_next_tick_time t1 m) r1 tr1
              (List.repeat (beat_delay m) (count_in_ticks m)))
    as (w & bc & H2 & _ & Hlen & Hs2 & Hb2).
  { now apply quiet_settings_set_next_tick_time. }
  { now rewrite Hcs. }
  { now rewrite Hrun. }
  exists w, bc. unfold play. unfold bind at 1. rewrite H1.
  cbv beta iota. rewrite H2, Z.add_0_l. split; [reflexivity |].
  rewrite Hs2, Hb2, Hs1, Hb1, Hsub, Hbpb, Hob, Hlen, repeat_length.
  repeat split.
Qed.

End Passes.

Lemma play_plays_witness :
  let m := start None 0%Q (set_subdivisions 2 (@init Q _)) in
  exists w bc,
    play (fun _ => 0%Q) 9 (spawn m) = (w, Ok (InLoop 9 bc)) /\
    samples_of (trace w) =
      (List.repeat CountInSample 8
       ++ [AccentedSample; RegularSample; RegularSample; RegularSample;
           RegularSample; RegularSample; RegularSample; RegularSample;
           AccentedSample])%list.
Proof.
  intros m.
  destruct (play_plays (fun _ => 0%Q) 9 m) as (w & bc & H & Hs & _).
  - repeat split; try reflexivity; discriminate.
  - reflexivity.
  - reflexivity.
  - exists w, bc. split; [exact H | exact Hs].
Defined.

(** ** Song flow *)

Lemma drop_cons_nth_error {A} (l : list A) (i : nat) (x : A) (r : list A) :
  drop i l = x :: r -> nth_error l i = Some x /\ drop (S i) l = r.
Proof.
  revert i. induction l as [| y l IH]; intros [| i] H; simpl in *;
    try discriminate.
  - inversion H. now rewrite drop_0.
  - now apply IH.
Qed.

Lemma drop_nil_nth_error {A} (l : list A) (i : nat) :
  drop i l = [] -> nth_error l i = None /\ (length l <= i)%nat.
Proof.
  revert i. induction l as [| y l IH]; intros [| i] H; simpl in *;
    try discriminate; try (split; [reflexivity | lia]).
  destruct (IH i H). split; [assumption | lia].
Qed.

Lemma flow_ticks_nonneg (secs : list SongSection) :
  Forall (fun s => post_init s = Ok s) secs -> 0 <= flow_ticks secs.
Proof.
  induction 1 as [| s secs Hs _ IH]; simpl; [lia |].
  apply post_init_ok in Hs. unfold get_total_ticks. nia.
Qed.

Lemma mod_add_multiple (T t p : Z) :
  0 < p -> T mod p = 0 -> (T + t) mod p = t mod p.
Proof.
  intros Hp HT. rewrite Z.add_mod by lia. rewrite HT, Z.add_0_l.
  apply Z.mod_mod. lia.
Qed.

(** A tick count shifted by whole bars has the same place in its beat and
    the same accent. *)
Lemma tick_phase (T i sub bpb : Z) :
  sub <> 0 -> bpb <> 0 -> T mod (bpb * sub) = 0 ->
  (T + i - 1) mod sub = (i - 1) mod sub /\
  accent_at (T + i) sub bpb = accent_at i sub bpb /\
  expected_sample (T + i) sub bpb = expected_sample i sub bpb.
Proof.
  intros Hs Hb HT.
  assert (Hq : T + i - 1 = i - 1 + (T / (bpb * sub) * bpb) * sub).
  { pose proof (Z_div_exact_full_2 T (bpb * sub) ltac:(nia) HT) as H.
    set (q := T / (bpb * sub)) in *. lia. }
  assert (Ha : accent_at (T + i) sub bpb = accent_at i sub bpb).
  { unfold accent_at. rewrite !tick_identity_ok by assumption.
    rewrite Hq, Z_mod_plus_full, Z_div_plus_full by assumption.
    now rewrite Z_mod_plus_full. }
  split; [| split].
  - rewrite Hq. apply Z_mod_plus_full.
  - exact Ha.
  - unfold expected_sample. now rewrite Ha.
Qed.

Section SongFlow.
Context {F : Type} {FO : PyFloat F}.
Implicit Types (m : Metronome F) (w : World F).
Variable clock : nat -> F.

Lemma at_section_set_next_tick_time (t : F) secs ix s m :
  at_section secs ix s m -> at_section secs ix s (set_next_tick_time t m).
Proof. destruct m; exact (fun H => H). Qed.

Lemma section_check_switch (bc : Z) (s s' : SongSection) m r tr ds :
  current_section m = Some s -> bars s <= bc ->
  nth_error (sections m) (S (current_section_index m)) = Some s' ->
  section_check bc (mkWorld m r tr ds) =
  (mkWorld (load_section s'
              (set_current_section (Some s')
                 (set_current_section_index (S (current_section_index m)) m)))
           r tr ds, Ok (Some 0)).
Proof.
  intros Hc Hle Hn. unfold section_check, bind, get_self, update, ret.
  cbn [self clock_reads trace delays]. rewrite Hc.
  apply Z.leb_le in Hle. rewrite Hle, Hn. reflexivity.
Qed.

Lemma section_check_end (bc : Z) (s : SongSection) m r tr ds :
  current_section m = Some s -> bars s <= bc ->
  nth_error (sections m) (S (current_section_index m)) = None ->
  section_check bc (mkWorld m r tr ds) =
  (mkWorld (set_running false
              (set_current_section_index (S (current_section_index m)) m))
           r tr ds, Ok None).
Proof.
  intros Hc Hle Hn. unfold section_check, bind, get_self, update, ret.
  cbn [self clock_reads trace delays]. rewrite Hc.
  apply Z.leb_le in Hle. rewrite Hle, Hn. reflexivity.
Qed.

Lemma switch_keeps_settings (s' : SongSection) (ix : nat) secs s m :
  quiet_settings m -> at_section secs ix s m -> post_init s' = Ok s' ->
  let m1 := load_section s'
              (set_current_section (Some s')
                 (set_current_section_index (S ix) m)) in
  quiet_settings m1 /\ at_section secs (S ix) s' m1 /\
  on_beat m1 = on_beat m.
Proof.
  intros Hq Ha Hv. apply post_init_ok in Hv.
  unfold quiet_settings, at_section, timer_off in *.
  destruct m; simpl in *. intuition lia.
Qed.

(** [_calculate_delay] reads the tempo, the subdivisions and the swing flag,
    and nothing else of the object. *)
Lemma calculate_delay_settings (tib : Z) m m' :
  bpm m = bpm m' -> subdivisions m = subdivisions m' ->
  swing_enabled m = swing_enabled m' ->
  _calculate_delay tib m = _calculate_delay tib m'.
Proof. unfold _calculate_delay. now intros -> -> ->. Qed.

Lemma calculate_delay_loaded (tib : Z) (s : SongSection) m m' :
  _calculate_delay tib (load_section s m)
  = _calculate_delay tib (load_section s m').
Proof. apply calculate_delay_settings; destruct m, m'; reflexivity. Qed.

Lemma calculate_delay_at_section (tib : Z) secs ix (s : SongSection) m :
  at_section secs ix s m -> swing_enabled m = sec_swing_enabled s ->
  _calculate_delay tib m = _calculate_delay tib (load_section s m).
Proof.
  intros (_ & _ & _ & Hb & _ & Hs & _) Hsw.
  apply calculate_delay_settings; destruct m; simpl in *; congruence.
Qed.

Lemma section_delays_any (s : SongSection) m m' :
  section_delays m s = section_delays m' s.
Proof.
  unfold section_delays. apply map_ext. intros i.
  apply calculate_delay_loaded.
Qed.

Lemma flat_map_section_delays_any (secs : list SongSection) m m' :
  flat_map (section_delays m) secs = flat_map (section_delays m') secs.
Proof. apply flat_map_ext. intros s. apply section_delays_any. Qed.

(** Passes inside a section: from tick [t] of the section to tick [t + k],
    with the bar count following the ticks. [T] is the tick count at which
    the section began. The samples, the callback flags and the delays are
    those of the ticks [t + 1, ..., t + k] of the section. *)
Lemma section_passes (secs : list SongSection) (ix : nat) (s : SongSection)
    (T : Z) (k : nat) :
  let p := sec_beats_per_bar s * sec_subdivisions s in
  0 < p -> T mod p = 0 ->
  forall (t : Z) m r tr ds,
    quiet_settings m -> at_section secs ix s m ->
    0 <= t -> t + Z.of_nat k <= bars s * p ->
    exists m' r' tr' ds',
      (forall n,
         steady_state clock (k + n) (T + t) (t / p) (mkWorld m r tr ds) =
         steady_state clock n (T + t + Z.of_nat k) ((t + Z.of_nat k) / p)
                      (mkWorld m' r' tr' ds')) /\
      (exists x, m' = set_next_tick_time x m) /\
      length ds' = (length ds + k)%nat /\
      samples_of tr' =
        (samples_of tr
         ++ map (fun i => expected_sample i (sec_subdivisions s)
                                          (sec_beats_per_bar s))
                (ticks_from t k))%list /\
      beats_of tr' =
        (beats_of tr
         ++ (if on_beat m
             then map (fun i => accent_at i (sec_subdivisions s)
                                          (sec_beats_per_bar s))
                      (ticks_from t k)
             else []))%list /\
      map Ok ds' =
        (map Ok ds
         ++ map (fun i => _calculate_delay ((i - 1) mod sec_subdivisions s) m)
                (ticks_from t k))%list.
Proof.
  intros p Hp HT. induction k as [| k IH]; intros t m r tr ds Hq Ha Ht Hk.
  - exists m, r, tr, ds. rewrite !Z.add_0_r, Nat.add_0_r.
    unfold ticks_from. cbn [seq map]. rewrite !app_nil_r.
    repeat split.
    + exists (next_tick_time m). now rewrite set_next_tick_time_same.
    + destruct (on_beat m); now rewrite app_nil_r.
  - pose proof Hq as (Htm & _ & Hsub0 & Hbpb0 & _).
    pose proof Ha as (_ & _ & Hcs & _ & Hbpb & Hsub & Hrun).
    rewrite Hsub in Hsub0. rewrite Hbpb in Hbpb0.
    assert (Hbc : t / p < bars s).
    { apply Z.div_lt_upper_bound; lia. }
    destruct (loop_body_tick clock (T + t) (t / p) (t / p) m m r tr ds Htm
                (section_check_within _ s m r tr ds Hcs Hbc) Hq)
      as (r1 & tr1 & d & H1 & Hs1 & Hb1 & Hd1).
    rewrite Hbpb, Hsub in H1, Hs1, Hb1. rewrite Hsub in Hd1.
    fold p in H1.
    replace (T + t + 1) with (T + (t + 1)) in H1, Hs1, Hb1, Hd1 by lia.
    destruct (tick_phase T (t + 1) _ _ Hsub0 Hbpb0 HT)
      as (Hph1 & Hph2 & Hph3).
    rewrite Hph3 in Hs1. rewrite Hph2 in Hb1. rewrite Hph1 in Hd1.
    rewrite (mod_add_multiple T (t + 1) p Hp HT) in H1.
    assert (Hdiv : (if (t + 1) mod p =? 0 then t / p + 1 else t / p)
                   = (t + 1) / p).
    { rewrite (div_succ t p) by lia. destruct ((t + 1) mod p =? 0); lia. }
    rewrite Hdiv in H1.
    set (m1 := set_next_tick_time (fadd (next_tick_time m) d) m) in *.
    destruct (IH (t + 1) m1 r1 tr1 (ds ++ [d])%list)
      as (m' & r' & tr' & ds' & Hrun' & (x & Hx) & Hlen & Hs2 & Hb2 & Hd2).
    { now apply quiet_settings_set_next_tick_time. }
    { now apply at_section_set_next_tick_time. }
    { lia. }
    { lia. }
    exists m', r', tr', ds'.
    split; [| split; [| split; [| split; [| split]]]].
    + intros n. cbn [Nat.add steady_state].
      unfold bind at 1. unfold get_self at 1. cbv beta iota. cbn [self].
      rewrite Hrun. unfold bind at 1. rewrite H1. cbv beta iota.
      rewrite Hrun'.
      replace (T + (t + 1) + Z.of_nat k) with (T + t + Z.of_nat (S k))
        by lia.
      replace (t + 1 + Z.of_nat k) with (t + Z.of_nat (S k)) by lia.
      reflexivity.
    + exists x. rewrite Hx. unfold m1. apply set_next_tick_time_twice.
    + rewrite Hlen, length_app. simpl. lia.
    + rewrite Hs2, Hs1, ticks_from_succ, <- app_assoc. reflexivity.
    + rewrite Hb2, Hb1, ticks_from_succ, <- app_assoc.
      replace (on_beat m1) with (on_beat m) by (destruct m; reflexivity).
      now destruct (on_beat m).
    + rewrite Hd2, ticks_from_succ, map_app, <- app_assoc.
      cbn [map app]. rewrite <- Hd1. do 2 f_equal.
      apply map_ext. intros i. apply calculate_delay_frame.
Qed.

Lemma loop_body_end (tc bc : Z) m r tr ds w1 :
  timer_off m ->
  section_check bc (mkWorld m r tr ds) = (w1, Ok None) ->
  loop_body clock tc bc (mkWorld m r tr ds) = (w1, Ok None).
Proof.
  intros Htm Hc. unfold loop_body. unfold bind at 1.
  rewrite timer_expired_off by exact Htm. cbv beta iota.
  unfold bind at 1. rewrite Hc. reflexivity.
Qed.

Lemma get_total_ticks_bars (s : SongSection) :
  get_total_ticks s = bars s * (sec_beats_per_bar s * sec_subdivisions s).
Proof. unfold get_total_ticks. ring. Qed.

(** From tick [t] of section [ix] to the end of the sequence: the rest of
    the section, then each later section whole, in order. *)
Lemma flow_from (secs : list SongSection) :
  Forall (fun s => post_init s = Ok s) secs ->
  forall (rest : list SongSection) (ix : nat) (s : SongSection) (T t : Z)
         m r tr ds,
    quiet_settings m -> at_section secs ix s m ->
    swing_enabled m = sec_swing_enabled s ->
    post_init s = Ok s ->
    (ix < length secs)%nat -> drop (S ix) secs = rest ->
    T mod (sec_beats_per_bar s * sec_subdivisions s) = 0 ->
    0 <= t <= get_total_ticks s ->
    in_phase (T + get_total_ticks s) rest ->
    exists w,
      (forall extra,
         steady_state clock
           (Z.to_nat (get_total_ticks s - t + flow_ticks rest) + 1 + extra)
           (T + t) (t / (sec_beats_per_bar s * sec_subdivisions s))
           (mkWorld m r tr ds) = (w, Ok Exited)) /\
      running (self w) = false /\
      current_section_index (self w) = length secs /\
      sections (self w) = secs /\
      length (delays w) =
        (length ds + Z.to_nat (get_total_ticks s - t + flow_ticks rest))%nat /\
      samples_of (trace w) =
        (samples_of tr
         ++ map (fun i => expected_sample i (sec_subdivisions s)
                                          (sec_beats_per_bar s))
                (ticks_from t (Z.to_nat (get_total_ticks s - t)))
         ++ flat_map section_samples rest)%list /\
      beats_of (trace w) =
        (beats_of tr
         ++ (if on_beat m
             then map (fun i => accent_at i (sec_subdivisions s)
                                          (sec_beats_per_bar s))
                      (ticks_from t (Z.to_nat (get_total_ticks s - t)))
                  ++ flat_map section_accents rest
             else []))%list /\
      map Ok (delays w) =
        (map Ok ds
         ++ map (fun i => _calculate_delay ((i - 1) mod sec_subdivisions s)
                                           (load_section s m))
                (ticks_from t (Z.to_nat (get_total_ticks s - t)))
         ++ flat_map (section_delays m) rest)%list.
Proof.
  intros Hall rest.
  induction rest as [| s' rest' IH];
    intros ix s T t m r tr ds Hq Ha Hsw Hv Hix Hdrop HT Ht Hph.
  - (* last section *)
    pose proof (proj1 (post_init_ok s) Hv) as (HB & _ & Hbpb & Hsub).
    set (p := sec_beats_per_bar s * sec_subdivisions s) in *.
    assert (Hp : 0 < p) by (unfold p; nia).
    rewrite get_total_ticks_bars in *. fold p in Ht |- *.
    set (K := Z.to_nat (bars s * p - t)).
    destruct (section_passes secs ix s T K Hp HT t m r tr ds Hq Ha)
      as (m' & r' & tr' & ds' & Hrun & (x & Hx) & Hlen & Hs1 & Hb1 & Hd1);
      [lia | unfold K; lia |].
    fold p in Hrun.
    assert (Hdiv : (t + Z.of_nat K) / p = bars s).
    { replace (t + Z.of_nat K) with (bars s * p) by (unfold K; lia).
      apply Z.div_mul. lia. }
    rewrite Hdiv in Hrun.
    assert (Hq' : quiet_settings m')
      by (rewrite Hx; now apply quiet_settings_set_next_tick_time).
    assert (Ha' : at_section secs ix s m')
      by (rewrite Hx; now apply at_section_set_next_tick_time).
    pose proof Hq' as (Htm & _).
    pose proof Ha' as (Hsecs & Hidx & Hcs & _ & _ & _ & Hr').
    apply drop_nil_nth_error in Hdrop as [Hnone Hlen'].
    assert (Hend := section_check_end (bars s) s m' r' tr' ds' Hcs
                      ltac:(lia)).
    rewrite Hsecs, Hidx in Hend. specialize (Hend Hnone).
    eexists.
    split; [| split; [| split; [| split; [| split; [| split; [| split]]]]]].
    + intros extra. simpl flow_ticks.
      replace (Z.to_nat (bars s * p - t + 0) + 1 + extra)%nat
        with (K + S extra)%nat by (unfold K; lia).
      rewrite Hrun. cbn [steady_state].
      unfold bind at 1. unfold get_self at 1. cbv beta iota. cbn [self].
      rewrite Hr'. unfold bind at 1.
      rewrite (loop_body_end _ _ _ _ _ _ _ Htm Hend). reflexivity.
    + cbn [self]. destruct m'; reflexivity.
    + cbn [self]. destruct m'; simpl in *. lia.
    + cbn [self]. destruct m'; simpl in *. assumption.
    + cbn [delays]. simpl flow_ticks. rewrite Hlen. unfold K.
      f_equal. f_equal. lia.
    + cbn [trace flat_map]. rewrite app_nil_r. exact Hs1.
    + cbn [trace flat_map]. rewrite app_nil_r. exact Hb1.
    + cbn [delays flat_map]. rewrite app_nil_r, Hd1. f_equal.
      apply map_ext. intros i.
      apply (calculate_delay_at_section _ _ _ _ _ Ha Hsw).
  - (* a section follows *)
    pose proof (proj1 (post_init_ok s) Hv) as (HB & _ & Hbpb & Hsub).
    apply drop_cons_nth_error in Hdrop as [Hnth Hdrop'].
    assert (Hv' : post_init s' = Ok s').
    { rewrite Forall_forall in Hall. apply Hall. apply list_elem_of_In.
      eapply nth_error_In. exact Hnth. }
    pose proof (proj1 (post_init_ok s') Hv') as (HB' & _ & Hbpb' & Hsub').
    destruct Hph as [HT' Hph'].
    set (p := sec_beats_per_bar s * sec_subdivisions s) in *.
    set (p' := sec_beats_per_bar s' * sec_subdivisions s') in *.
    assert (Hp : 0 < p) by (unfold p; nia).
    assert (Hp' : 0 < p') by (unfold p'; nia).
    assert (Htot' : 1 <= get_total_ticks s').
    { rewrite get_total_ticks_bars. fold p'. nia. }
    pose proof (flow_ticks_nonneg rest') as Hnn.
    assert (Hall' : Forall (fun s => post_init s = Ok s) rest').
    { rewrite <- Hdrop'. now apply Forall_drop. }
    specialize (Hnn Hall').
    rewrite (get_total_ticks_bars s) in *. fold p in Ht, HT', Hph' |- *.
    set (K := Z.to_nat (bars s * p - t)).
    destruct (section_passes secs ix s T K Hp HT t m r tr ds Hq Ha)
      as (m' & r' & tr' & ds' & Hrun & (x & Hx) & Hlen & Hs1 & Hb1 & Hd1);
      [lia | unfold K; lia |].
    fold p in Hrun.
    assert (Hdiv : (t + Z.of_nat K) / p = bars s).
    { replace (t + Z.of_nat K) with (bars s * p) by (unfold K; lia).
      apply Z.div_mul. lia. }
    rewrite Hdiv in Hrun.
    replace (T + t + Z.of_nat K) with (T + bars s * p) in Hrun
      by (unfold K; lia).
    assert (Hq' : quiet_settings m')
      by (rewrite Hx; now apply quiet_settings_set_next_tick_time).
    assert (Ha' : at_section secs ix s m')
      by (rewrite Hx; now apply at_section_set_next_tick_time).
    assert (Hob' : on_beat m' = on_beat m)
      by (rewrite Hx; destruct m; reflexivity).
    pose proof Hq' as (Htm & _).
    pose proof Ha' as (Hsecs & Hidx & Hcs & _ & _ & _ & Hr').
    assert (Hswitch := section_check_switch (bars s) s s' m' r' tr' ds' Hcs
                         ltac:(lia)).
    rewrite Hsecs, Hidx in Hswitch. specialize (Hswitch Hnth).
    destruct (switch_keeps_settings s' ix secs s m' Hq' Ha' Hv')
      as (Hq1 & Ha1 & Hob1).
    set (m1 := load_section s'
                 (set_current_section (Some s')
                    (set_current_section_index (S ix) m'))) in *.
    assert (Hsw1 : swing_enabled m1 = sec_swing_enabled s')
      by (unfold m1; destruct m'; reflexivity).
    destruct (loop_body_tick clock (T + bars s * p) (bars s) 0 m' m1
                r' tr' ds' Htm Hswitch Hq1)
      as (r2 & tr2 & d & H2 & Hs2 & Hb2 & Hd2).
    pose proof Ha1 as (_ & _ & _ & Hbpm1 & Hbpb1 & Hsub1 & _).
    rewrite Hbpb1, Hsub1 in H2, Hs2, Hb2. rewrite Hsub1 in Hd2.
    fold p' in H2.
    destruct (tick_phase (T + bars s * p) 1 (sec_subdivisions s')
                (sec_beats_per_bar s') ltac:(lia) ltac:(lia) HT')
      as (Hph1 & Hph2 & Hph3).
    rewrite Hph3 in Hs2. rewrite Hph2 in Hb2. rewrite Hph1 in Hd2.
    rewrite (mod_add_multiple (T + bars s * p) 1 p' Hp' HT') in H2.
    assert (Hbc : (if 1 mod p' =? 0 then 0 + 1 else 0) = 1 / p').
    { pose proof (div_succ 0 p' ltac:(lia) Hp') as Hd.
      rewrite Z.div_0_l in Hd by lia. change (0 + 1) with 1 in *.
      rewrite Hd. destruct (1 mod p' =? 0); reflexivity. }
    rewrite Hbc in H2.
    set (m2 := set_next_tick_time (fadd (next_tick_time m1) d) m1) in *.
    destruct (IH (S ix) s' (T + bars s * p) 1 m2 r2 tr2
                 (ds' ++ [d])%list)
      as (w & Hw & Hwr & Hwi & Hws & Hwl & Hwsam & Hwbeat & Hwdel).
    { now apply quiet_settings_set_next_tick_time. }
    { now apply at_section_set_next_tick_time. }
    { unfold m2. destruct m1; exact Hsw1. }
    { exact Hv'. }
    { apply nth_error_Some. congruence. }
    { exact Hdrop'. }
    { exact HT'. }
    { lia. }
    { exact Hph'. }
    assert (Hob2 : on_beat m2 = on_beat m).
    { rewrite <- Hob', <- Hob1. unfold m2. destruct m1; reflexivity. }
    assert (Hticks : Z.to_nat (get_total_ticks s')
                     = S (Z.to_nat (get_total_ticks s' - 1))) by lia.
    exists w.
    split; [| split; [| split; [| split; [| split; [| split; [| split]]]]]];
      try assumption.
    + intros extra. cbn [flow_ticks fold_right].
      fold (flow_ticks rest').
      replace (Z.to_nat (bars s * p - t
                         + (get_total_ticks s' + flow_ticks rest'))
               + 1 + extra)%nat
        with (K + S (Z.to_nat (get_total_ticks s' - 1 + flow_ticks rest')
                     + 1 + extra))%nat
        by (unfold K; lia).
      rewrite Hrun. cbn [steady_state].
      unfold bind at 1. unfold get_self at 1. cbv beta iota. cbn [self].
      rewrite Hr'. unfold bind at 1. rewrite H2. cbv beta iota.
      apply Hw.
    + rewrite Hwl, length_app, Hlen. cbn [flow_ticks fold_right length].
      fold (flow_ticks rest'). unfold K. lia.
    + rewrite Hwsam, Hs2, Hs1. cbn [flat_map]. unfold section_samples at 2.
      rewrite Hticks, ticks_from_succ. cbn [map].
      rewrite <- !app_assoc. reflexivity.
    + rewrite Hwbeat, Hb2, Hb1, Hob2, Hob1, Hob'. cbn [flat_map].
      unfold section_accents at 2.
      rewrite Hticks, ticks_from_succ. cbn [map].
      destruct (on_beat m); rewrite <- ?app_assoc; reflexivity.
    + rewrite Hwdel, map_app, Hd1. cbn [flat_map map].
      unfold section_delays at 2.
      rewrite Hticks, ticks_from_succ. cbn [map].
      rewrite <- !app_assoc. cbn [app].
      change (0 + 1) with 1. f_equal. f_equal.
      { apply map_ext. intros i.
        apply (calculate_delay_at_section _ _ _ _ _ Ha Hsw). }
      f_equal.
      { rewrite <- Hd2. symmetry.
        apply calculate_delay_settings; unfold m1; destruct m, m';
          reflexivity. }
      f_equal.
      { apply map_ext. intros i. apply calculate_delay_loaded. }
      apply flat_map_section_delays_any.
Qed.

(** X21. A sequence of constructed sections, started on a stopped metronome
    with no timer and no tempo change in effect, and in phase (a single
    section always is, and so is any list of sections with one meter): after
    the count-in the loop plays the sections in their order, each for its
    [get_total_ticks] ticks with its own tempo, meter and swing: the samples
    are, section after section, the accented sample on the first tick of
    each bar of the section and the regular sample on the others; the beat
    callback, if one is registered, gets the accent flag of each of these
    ticks; the delays are, section after section, the ones
    [_calculate_delay] returns with that section loaded. Then the loop
    leaves on its own with the running flag cleared and the index just past
    the last section. *)
Theorem song_flow_plays (s0 : SongSection) (rest : list SongSection)
    (now : F) (m0 : Metronome F) :
  running m0 = false ->
  timer_off m0 ->
  String.eqb (tempo_change_mode m0) "Speed Up" = false ->
  String.eqb (tempo_change_mode m0) "Slow Down" = false ->
  is_ok (step_and_interval (tempo_change_step m0) (tempo_change_interval m0))
    = true ->
  Forall (fun s => post_init s = Ok s) (s0 :: rest) ->
  in_phase 0 (s0 :: rest) ->
  exists m w,
    start_song_flow (s0 :: rest) now m0 = Ok m /\
    (forall extra,
       play clock (Z.to_nat (flow_ticks (s0 :: rest)) + 1 + extra) (spawn m)
       = (w, Ok Exited)) /\
    running (self w) = false /\
    current_section_index (self w) = length (s0 :: rest) /\
    length (delays w) =
      (count_in_ticks m + Z.to_nat (flow_ticks (s0 :: rest)))%nat /\
    samples_of (trace w) =
      (List.repeat CountInSample (count_in_ticks m)
       ++ flat_map section_samples (s0 :: rest))%list /\
    beats_of (trace w) =
      (if on_beat m0 then flat_map section_accents (s0 :: rest) else []) /\
    map Ok (delays w) =
      (List.repeat (truediv 60 (sec_bpm s0)) (count_in_ticks m)
       ++ flat_map (section_delays m0) (s0 :: rest))%list.
Proof.
  intros Hr Htm Hup Hdown Hp Hall Hph.
  assert (Hv0 : post_init s0 = Ok s0) by (inversion Hall; assumption).
  pose proof (proj1 (post_init_ok s0) Hv0) as (HB & Hbpm & Hbpb & Hsub).
  eexists.
  set (m := start None now
              (load_section s0
                 (set_current_section (Some s0)
                    (set_current_section_index 0%nat
                       (set_sections (s0 :: rest) m0))))).
  assert (Hq : quiet_settings m /\ at_section (s0 :: rest) 0 s0 m /\
               swing_enabled m = sec_swing_enabled s0 /\
               on_beat m = on_beat m0).
  { unfold m, start, quiet_settings, at_section, timer_off in *.
    destruct m0; simpl in *. subst. simpl. intuition lia. }
  destruct Hq as (Hq & Ha & Hsw & Hob). pose proof Hq as (_ & Hb & _).
  pose proof Ha as (_ & _ & _ & Hbpm_m & _).
  destruct (count_in_plays clock m Hb) as (r1 & tr1 & t1 & H1 & Hs1 & Hb1).
  destruct Hph as [HT Hph].
  destruct (flow_from (s0 :: rest) Hall rest 0%nat s0 0 0
              (set_next_tick_time t1 m) r1 tr1
              (List.repeat (beat_delay m) (count_in_ticks m)))
    as (w & Hw & Hwr & Hwi & _ & Hwl & Hwsam & Hwbeat & Hwdel).
  { now apply quiet_settings_set_next_tick_time. }
  { now apply at_section_set_next_tick_time. }
  { destruct m; exact Hsw. }
  { exact Hv0. }
  { simpl. lia. }
  { reflexivity. }
  { exact HT. }
  { unfold get_total_ticks. nia. }
  { exact Hph. }
  exists w. split; [reflexivity |]. fold m.
  pose proof (flow_ticks_nonneg _ Hall) as Hnn.
  cbn [flow_ticks fold_right] in *. fold (flow_ticks rest) in *.
  rewrite Z.sub_0_r, Z.add_0_l, Z.div_0_l in Hw by nia.
  rewrite Z.sub_0_r in Hwl, Hwsam, Hwbeat, Hwdel.
  split; [| split; [| split; [| split; [| split; [| split]]]]];
    try assumption.
  - intros extra. unfold play. unfold bind at 1. rewrite H1.
    cbv beta iota. apply Hw.
  - rewrite Hwl, repeat_length. reflexivity.
  - rewrite Hwsam, Hs1. reflexivity.
  - rewrite Hwbeat, Hb1.
    replace (on_beat (set_next_tick_time t1 m)) with (on_beat m0)
      by (rewrite <- Hob; destruct m; reflexivity).
    reflexivity.
  - rewrite Hwdel. cbn [flat_map]. f_equal.
    + unfold beat_delay. rewrite Hbpm_m. unfold truediv.
      assert (Hz : (sec_bpm s0 =? 0) = false) by (apply Z.eqb_neq; lia).
      rewrite Hz. clear. induction (count_in_ticks m) as [| n IH];
        simpl; [reflexivity | now rewrite IH].
    + f_equal.
      * unfold section_delays. apply map_ext. intros i.
        apply calculate_delay_loaded.
      * apply flat_map_section_delays_any.
Qed.

End SongFlow.

Lemma song_flow_plays_witness :
  let verse := mkSongSection "verse" 2 100 3 2 false in
  let chorus := mkSongSection "chorus" 1 140 3 2 true in
  exists m w,
    start_song_flow [verse; chorus] 0%Q (@init Q _) = Ok m /\
    play (fun _ => 0%Q) 19 (spawn m) = (w, Ok Exited) /\
    running (self w) = false /\
    samples_of (trace w) =
      (List.repeat CountInSample 6
       ++ [AccentedSample; RegularSample; RegularSample;
           RegularSample; RegularSample; RegularSample;
           AccentedSample; RegularSample; RegularSample;
           RegularSample; RegularSample; RegularSample]
       ++ [AccentedSample; RegularSample; RegularSample;
           RegularSample; RegularSample; RegularSample])%list /\
    map Ok (delays w) =
      (List.repeat (truediv 60 100) 6
       ++ section_delays (@init Q _) verse
       ++ section_delays (@init Q _) chorus)%list.
Proof.
  intros verse chorus.
  destruct (song_flow_plays (fun _ => 0%Q) verse [chorus] 0%Q (@init Q _))
    as (m & w & Hm & Hplay & Hrun & _ & _ & Hsam & _ & Hdel);
    try reflexivity.
  - repeat constructor.
  - repeat split.
  - exists m, w. split; [exact Hm |]. split; [exact (Hplay 0%nat) |].
    split; [exact Hrun |]. rewrite Hsam, Hdel.
    inversion Hm. split; reflexivity.
Defined.

(** ** Ways out of the loop *)

Section Exits.
Context {F : Type} {FO : PyFloat F}.
Implicit Types (m : Metronome F) (w : World F).
Variable clock : nat -> F.

(** X22. When a duration is set and the clock, read at the top of a pass, shows
    that it has elapsed ([>=], so also at the very instant), the pass
    clears the running flag and plays nothing: no sample, no delay, no
    change of section; and the loop is left, however many passes it is
    given. *)
Theorem timer_expiry_stops (n : nat) (tc bc : Z) m r tr ds :
  running m = true ->
  fltb (of_int 0) (timer_duration m) = true ->
  fleb (timer_duration m) (fsub (clock r) (start_time m)) = true ->
  steady_state clock (S n) tc bc (mkWorld m r tr ds) =
  (mkWorld (set_running false m) (S r) tr ds, Ok Exited).
Proof.
  intros Hr Hset Hexp. cbn [steady_state].
  unfold bind at 1. unfold get_self at 1. cbv beta iota. cbn [self].
  rewrite Hr. unfold bind at 1.
  assert (Hbody : loop_body clock tc bc (mkWorld m r tr ds) =
                  (mkWorld (set_running false m) (S r) tr ds, Ok None)).
  { unfold loop_body, timer_expired, bind, get_self, time_time, update, ret.
    cbn [self clock_reads trace delays]. rewrite Hset.
    cbn [self clock_reads trace delays]. rewrite Hexp. reflexivity. }
  rewrite Hbody. reflexivity.
Qed.

Lemma tick_identity_zero_meter (sub bpb : Z) :
  sub = 0 \/ bpb = 0 -> tick_identity 1 sub bpb = Raise ZeroDivisionError.
Proof.
  unfold tick_identity, floordiv, pymod. intros H.
  destruct (Z.eqb_spec sub 0) as [Hs | Hs]; [reflexivity |].
  destruct H as [H | H]; [contradiction |]. subst bpb.
  change (1 - 1) with 0. cbn [rbind].
  rewrite Z.mod_0_l by exact Hs. reflexivity.
Qed.

(** X23. A meter with a zero, which the entry fields of the window accept: with
    0 subdivisions or 0 beats per bar the first steady-state pass raises
    [ZeroDivisionError] before any sample is played. The thread ends there,
    after the count-in, and the running flag stays set. *)
Theorem zero_meter_raises (n : nat) m :
  timer_off m -> current_section m = None -> running m = true ->
  bpm m <> 0 ->
  subdivisions m = 0 \/ beats_per_bar m = 0 ->
  exists w,
    play clock (S n) (spawn m) = (w, Raise ZeroDivisionError) /\
    running (self w) = true /\
    samples_of (trace w) = List.repeat CountInSample (count_in_ticks m) /\
    beats_of (trace w) = [].
Proof.
  intros Htm Hc Hr Hb Hz.
  destruct (count_in_plays clock m Hb) as (r1 & tr1 & t1 & H1 & Hs1 & Hb1).
  destruct (fields_set_next_tick_time t1 m)
    as (_ & Hsub & Hbpb & _ & Hcs & Hrun & Htm').
  eexists. split; [| split; [| split]].
  - unfold play. unfold bind at 1. rewrite H1. cbv beta iota.
    cbn [steady_state]. unfold bind at 1. unfold get_self at 1.
    cbv beta iota. cbn [self]. rewrite Hrun, Hr. unfold bind at 1.
    unfold loop_body. unfold bind at 1.
    rewrite timer_expired_off by (rewrite Htm'; exact Htm).
    cbv beta iota. unfold bind at 1.
    rewrite section_check_no_section by (rewrite Hcs; exact Hc).
    cbv beta iota. unfold bind at 1. unfold get_self at 1.
    cbv beta iota. cbn [self]. unfold bind at 1. unfold lift at 1.
    rewrite Hsub, Hbpb. change (0 + 1) with 1.
    rewrite (tick_identity_zero_meter _ _ Hz). reflexivity.
  - cbn [self]. now rewrite Hrun.
  - exact Hs1.
  - exact Hb1.
Qed.

End Exits.

Lemma timer_expiry_stops_witness :
  let m := start None 10%Q (set_timer_duration 30%Q (@init Q _)) in
  steady_state (fun _ => 40%Q) 5 16 4 (mkWorld m 9 [] []) =
  (mkWorld (set_running false m) 10 [] [], Ok Exited).
Proof.
  intros m.
  apply (timer_expiry_stops (fun _ => 40%Q) 4 16 4 m 9 [] []);
    reflexivity.
Defined.

Lemma zero_meter_raises_witness :
  let m := start None 0%Q (set_subdivisions 0 (@init Q _)) in
  exists w,
    play (fun _ => 0%Q) 1 (spawn m) = (w, Raise ZeroDivisionError) /\
    running (self w) = true.
Proof.
  intros m.
  destruct (zero_meter_raises (fun _ => 0%Q) 0 m) as (w & H & Hr & _);
    try reflexivity.
  - discriminate.
  - left. reflexivity.
  - exists w. split; assumption.
Defined.
